(** * SistemasDistribuidos: the distributed-sort middleware

    A shallow embedding of the coordination layer of the middleware
    ([server_manager.py], [distributed_sort.py], [client_handler.py], the
    monitor of [middleware.py]) and the properties of its registry, its
    partitioning step, its k-way merge, its dispatcher, its framing and its
    job counters.

    Conventions of the embedding.
    - Python integers that are data are [Z]; indices, lengths and the
      counters that only count up are [nat].
    - Values that arrive as parsed JSON and are used without a type check
      ([ip], [port], [name] of a registration) are kept as dynamically typed
      [pyval]s, with Python's truthiness and [==].
    - Clock readings and durations ([time.time()] and differences of them)
      are only stored and never computed with; they are integers (ticks).
    - Mutable objects are threaded explicitly: a method that mutates the
      registry or a statistics dictionary takes the old value and returns
      the new one.
    - The network is an oracle passed as an argument: the outcome of each
      probe, of each exchange with a worker, and of the writes to the client
      socket.  Logging is left out.  In [process_distributed] and
      [handle_distributed_sort] the probes return and the client socket is
      up or down for the whole call; in [handle_list] and the monitor a
      probe may also raise.
    - One call runs at a time.  Within a job the worker threads are joined
      before their results are read; their effects on the registry are taken
      in index order, and the section on schedules shows what does not
      depend on that order. *)

From stdpp Require Import gmap strings list fin_maps sorting.
From Stdlib Require Import ZArith QArith Sorting.Sorted Permutation.
From Equations Require Import Equations.

Local Open Scope string_scope.
Local Open Scope list_scope.
Local Open Scope nat_scope.

(** * The model *)

(** ** [heapq] on tuples [(value, idx, list_idx)]

    [heapq] is Python's standard priority queue.  The merge only relies on
    its contract: [heappush] adds an item, [heappop] removes and returns the
    least item under Python's tuple order (lexicographic).  The queue is kept
    as the bag of its items; [heappop] extracts the least one. *)
Module heapq.

Definition item : Type := Z * nat * nat.

Definition item_val (x : item) : Z := x.1.1.
Definition item_idx (x : item) : nat := x.1.2.
Definition item_src (x : item) : nat := x.2.

(** Python's [<] on 3-tuples of integers. *)
Definition item_ltb (a b : item) : bool :=
  (item_val a <? item_val b)%Z
  || ((item_val a =? item_val b)%Z
      && ((item_idx a <? item_idx b)
          || ((item_idx a =? item_idx b) && (item_src a <? item_src b)))).

Definition item_le (a b : item) : Prop :=
  (item_val a < item_val b)%Z
  \/ (item_val a = item_val b
      /\ (item_idx a < item_idx b
          \/ (item_idx a = item_idx b /\ item_src a <= item_src b))).

Definition heappush (heap : list item) (x : item) : list item := heap ++ [x].

Fixpoint least (x : item) (heap : list item) : item :=
  match heap with
  | [] => x
  | y :: heap' => least (if item_ltb y x then y else x) heap'
  end.

Fixpoint remove_one (x : item) (heap : list item) : list item :=
  match heap with
  | [] => []
  | y :: heap' => if decide (x = y) then heap' else y :: remove_one x heap'
  end.

(** [heappop] of an empty heap raises [IndexError]: [None]. *)
Definition heappop (heap : list item) : option (item * list item) :=
  match heap with
  | [] => None
  | x :: heap' => let m := least x heap' in Some (m, remove_one m heap)
  end.

End heapq.

Import heapq.

(** ** [DistributedSorter.merge_sorted_lists] *)

(** [for i, lst in enumerate(lists): if lst: heappush(heap, (lst[0], 0, i))],
    with [i] the index of the head of [lists]. *)
Fixpoint push_heads (i : nat) (lists : list (list Z)) (heap : list item)
  : list item :=
  match lists with
  | [] => heap
  | lst :: rest =>
      push_heads (S i) rest
        (match lst with
         | [] => heap
         | v :: _ => heappush heap (v, 0, i)
         end)
  end.

(** The tail of one iteration of the [while]: after popping
    [(val, idx, list_idx)], push the successor of the popped element when its
    list has one. *)
Definition advance (lists : list (list Z)) (heap : list item)
    (idx list_idx : nat) : list item :=
  let src := lists !!! list_idx in
  if bool_decide (idx + 1 < length src)
  then heappush heap (src !!! (idx + 1), idx + 1, list_idx)
  else heap.

(** What is left to emit, counted with one unit per heap entry so that a
    pop always decreases it. *)
Fixpoint heap_weight (lists : list (list Z)) (heap : list item) : nat :=
  match heap with
  | [] => 0
  | x :: heap' =>
      S (length (lists !!! item_src x) - item_idx x) + heap_weight lists heap'
  end.

Definition inspect {A} (a : A) : {b | a = b} := exist _ a eq_refl.

Lemma heap_weight_app lists h1 h2 :
  heap_weight lists (h1 ++ h2) = heap_weight lists h1 + heap_weight lists h2.
Proof. induction h1 as [|x h1 IH]; simpl; [done|]. rewrite IH. lia. Qed.

Lemma heap_weight_remove_one lists x heap :
  x ∈ heap ->
  heap_weight lists heap
  = S (length (lists !!! item_src x) - item_idx x)
    + heap_weight lists (remove_one x heap).
Proof.
  induction heap as [|y heap IH]; intros Hin.
  - by apply elem_of_nil in Hin.
  - simpl. destruct (decide (x = y)) as [->|Hne].
    + reflexivity.
    + apply elem_of_cons in Hin as [?|Hin]; [done|].
      rewrite (IH Hin). simpl. lia.
Qed.

Lemma least_elem x heap : least x heap ∈ x :: heap.
Proof.
  revert x. induction heap as [|y heap IH]; intros x; simpl.
  - apply list_elem_of_singleton. reflexivity.
  - specialize (IH (if item_ltb y x then y else x)).
    apply elem_of_cons in IH as [->|IH].
    + destruct (item_ltb y x); [right; left | left].
    + right; by right.
Qed.

Lemma heappop_Some heap m heap' :
  heappop heap = Some (m, heap') -> m ∈ heap /\ heap' = remove_one m heap.
Proof.
  destruct heap as [|x heap]; [done|]. unfold heappop.
  intros [= <- <-]. split; [apply least_elem | done].
Qed.

Lemma heappop_weight lists heap val idx list_idx heap' :
  heappop heap = Some ((val, idx, list_idx), heap') ->
  heap_weight lists (advance lists heap' idx list_idx) < heap_weight lists heap.
Proof.
  intros [Hin ->]%heappop_Some.
  rewrite (heap_weight_remove_one lists _ _ Hin).
  remember (remove_one (val, idx, list_idx) heap) as h' eqn:Hh'. clear Hh'.
  unfold advance. cbn [item_src item_idx fst snd].
  case_bool_decide as Hlt.
  - unfold heappush. rewrite heap_weight_app.
    cbn [heap_weight item_src item_idx fst snd]. lia.
  - lia.
Qed.

Equations? merge_loop (lists : list (list Z)) (heap : list item)
    (result : list Z) : list Z by wf (heap_weight lists heap) lt :=
  merge_loop lists heap result with inspect (heappop heap) := {
    | exist _ None _ => result
    | exist _ (Some ((val, idx, list_idx), heap')) Hpop =>
        merge_loop lists (advance lists heap' idx list_idx) (result ++ [val]) }.
Proof. by eapply heappop_weight. Qed.

Definition merge_sorted_lists (lists : list (list Z)) : list Z :=
  match lists with
  | [] => []
  | [lst] => lst
  | _ => merge_loop lists (push_heads 0 lists []) []
  end.

Example merge_ex1 :
  merge_sorted_lists [[2; 9]; [1; 7]; [3; 8]]%Z = [1; 2; 3; 7; 8; 9]%Z.
Proof. reflexivity. Qed.

(** The same loop, recording every popped tuple instead of its value only:
    the order of emission together with the provenance of each value. *)
Equations? merge_pops (lists : list (list Z)) (heap : list item) : list item
    by wf (heap_weight lists heap) lt :=
  merge_pops lists heap with inspect (heappop heap) := {
    | exist _ None _ => []
    | exist _ (Some ((val, idx, list_idx), heap')) Hpop =>
        (val, idx, list_idx)
          :: merge_pops lists (advance lists heap' idx list_idx) }.
Proof. by eapply heappop_weight. Qed.

(** ** Partitioning ([process_distributed], "Crear chunks") *)

(** Python's [l[start:stop]] for non-negative bounds: bounds beyond the end
    are clipped and an empty range gives the empty list. *)
Definition slice {A} (start stop : nat) (l : list A) : list A :=
  take (stop - start) (drop start l).

(** [server_count] is never 0 here: the caller returns before partitioning
    when there is no active server. *)
Definition make_chunks (numbers : list Z) (server_count : nat)
  : list (list Z) :=
  let chunk_size := Nat.max 1 (length numbers / server_count) in
  (fun i =>
     let start_idx := i * chunk_size in
     let end_idx :=
       if bool_decide (i < server_count - 1)
       then start_idx + chunk_size
       else length numbers in
     slice start_idx end_idx numbers)
  <$> seq 0 server_count.

Example make_chunks_ex1 :
  make_chunks [9; 2; 7; 1; 8; 3]%Z 3 = [[9; 2]; [7; 1]; [8; 3]]%Z.
Proof. reflexivity. Qed.

Example make_chunks_ex2 :
  make_chunks [5; 1; 3; 2; 4; 0; 6]%Z 3 = [[5; 1]; [3; 2]; [4; 0; 6]]%Z.
Proof. reflexivity. Qed.

Example make_chunks_ex3 : make_chunks [5; 1]%Z 4 = [[5]; [1]; []; []]%Z.
Proof. reflexivity. Qed.

(** ** Dynamically typed values

    The scalars [json.loads] produces, floats being finite.  JSON arrays
    and objects as field values are outside the model, and so are the
    infinities and [NaN], which [json.loads] also accepts.  [NaN] is the one
    value that is not [==] itself: [py_eq] is reflexive on [pyval] only
    because [NaN] is left out. *)
Inductive pyval : Type :=
| PNone
| PBool (b : bool)
| PInt (n : Z)
| PFloat (q : Q)
| PStr (s : string).

(** [bool(v)]. *)
Definition truthy (v : pyval) : bool :=
  match v with
  | PNone => false
  | PBool b => b
  | PInt n => negb (n =? 0)%Z
  | PFloat q => negb (Qeq_bool q 0)
  | PStr s => negb (String.eqb s "")
  end.

(** [isinstance(v, int)]; [bool] is a subclass of [int], [True] is 1. *)
Definition int_value (v : pyval) : option Z :=
  match v with
  | PBool b => Some (Z.b2z b)
  | PInt n => Some n
  | _ => None
  end.

Definition num_value (v : pyval) : option Q :=
  match v with
  | PBool b => Some (inject_Z (Z.b2z b))
  | PInt n => Some (inject_Z n)
  | PFloat q => Some q
  | _ => None
  end.

(** [a == b]. *)
Definition py_eq (a b : pyval) : bool :=
  match a, b with
  | PNone, PNone => true
  | PStr s, PStr t => String.eqb s t
  | _, _ =>
      match num_value a, num_value b with
      | Some x, Some y => Qeq_bool x y
      | _, _ => false
      end
  end.

(** [data.get(key)]. *)
Definition dict_get (data : gmap string pyval) (key : string) : pyval :=
  default PNone (data !! key).

(** ** [server_manager.py] *)

Record ServerInfo : Type := mkServerInfo {
  ip : pyval;
  port : pyval;
  name : pyval;
  active : bool;
  last_response_time : Z;
  last_check_time : Z;
  total_processed : nat
}.

(** [server.ip == ip and server.port == port]. *)
Definition has_address (ip_ port_ : pyval) (server : ServerInfo) : bool :=
  py_eq (ip server) ip_ && py_eq (port server) port_.

(** The [for ... else] of [register_server]: the first record with the
    address of [new] is replaced and the loop breaks; without a break the
    record is appended. *)
Fixpoint store (new : ServerInfo) (servers : list ServerInfo)
  : list ServerInfo :=
  match servers with
  | [] => [new]
  | server :: rest =>
      if has_address (ip new) (port new) server
      then new :: rest
      else server :: store new rest
  end.

Definition missing_fields_reply : gmap string pyval :=
  {[ "status" := PStr "error";
     "mensaje" := PStr "Faltan campos obligatorios (ip, port, name)" ]}.

Definition invalid_port_reply : gmap string pyval :=
  {[ "status" := PStr "error"; "mensaje" := PStr "Puerto inválido" ]}.

Definition registered_reply : gmap string pyval :=
  {[ "status" := PStr "registered";
     "distribuido" := PBool true;
     "middleware_name" := PStr "Registrado con exito en el middleware;)" ]}.

Definition isinstance_int (v : pyval) : bool :=
  match int_value v with
  | Some _ => true
  | None => false
  end.

(** The integer an [int] instance stands for; only used behind
    [isinstance_int]. *)
Definition int_of (v : pyval) : Z := default 0%Z (int_value v).

(** [register_server]; [t1] and [t2] are the two readings of [time.time()]
    in the constructor call, in argument order. *)
Definition register_server (t1 t2 : Z) (data : gmap string pyval)
    (servers : list ServerInfo) : gmap string pyval * list ServerInfo :=
  let ip_ := dict_get data "ip" in
  let port_ := dict_get data "port" in
  let name_ := dict_get data "name" in
  if negb (forallb truthy [ip_; port_; name_])
  then (missing_fields_reply, servers)
  else if negb (isinstance_int port_)
          || (int_of port_ <=? 0)%Z || (65535 <? int_of port_)%Z
  then (invalid_port_reply, servers)
  else (registered_reply,
        store (mkServerInfo ip_ port_ name_ true t1 t2 0) servers).

Definition set_probe (is_active : bool) (now : Z) (s : ServerInfo)
  : ServerInfo :=
  mkServerInfo (ip s) (port s) (name s) is_active
    (last_response_time s) now (total_processed s).

(** [update_servers_status], for a sweep in which every call of
    [is_server_alive] returns; [is_server_alive] is the outcome of the TCP
    probe of an address.  A probe can also raise, which ends the sweep and
    the caller's work: [sweep] and [try_update_servers_status] below are the
    sweep with such probes, and agree with this one when none raises
    ([try_update_servers_status_returns]). *)
Definition update_servers_status (now : Z)
    (is_server_alive : pyval -> pyval -> bool) (servers : list ServerInfo)
  : (nat * nat) * list ServerInfo :=
  let servers' :=
    (fun s => set_probe (is_server_alive (ip s) (port s)) now s) <$> servers in
  ((length (filter (fun s => active s) servers'), length servers), servers').

Definition get_active_servers (servers : list ServerInfo) : list ServerInfo :=
  filter (fun s => active s) servers.

Fixpoint update_server_stats (server_ip server_port : pyval)
    (processing_time : Z) (processed_items : nat)
    (servers : list ServerInfo) : list ServerInfo :=
  match servers with
  | [] => []
  | s :: rest =>
      if has_address server_ip server_port s
      then mkServerInfo (ip s) (port s) (name s) (active s)
             processing_time (last_check_time s)
             (total_processed s + processed_items) :: rest
      else s :: update_server_stats server_ip server_port
                  processing_time processed_items rest
  end.

Fixpoint mark_server_inactive (server_ip server_port : pyval)
    (servers : list ServerInfo) : list ServerInfo :=
  match servers with
  | [] => []
  | s :: rest =>
      if has_address server_ip server_port s
      then mkServerInfo (ip s) (port s) (name s) false
             (last_response_time s) (last_check_time s)
             (total_processed s) :: rest
      else s :: mark_server_inactive server_ip server_port rest
  end.

Definition request (ip_ : string) (port_ : pyval) (name_ : string)
  : gmap string pyval :=
  {[ "action" := PStr "register"; "ip" := PStr ip_; "port" := port_;
     "name" := PStr name_ ]}.

Example register_ex1 :
  register_server 1700000000 1700000001 (request "10.0.0.5" (PInt 9000) "W1") []
  = (registered_reply,
     [mkServerInfo (PStr "10.0.0.5") (PInt 9000) (PStr "W1") true
        1700000000 1700000001 0]).
Proof. reflexivity. Qed.

Example register_ex2 :
  register_server 5 6 (request "10.0.0.5" (PInt 70000) "X") []
  = (invalid_port_reply, []).
Proof. reflexivity. Qed.

Example register_ex3 :
  register_server 5 6 (request "10.0.0.5" (PInt 0) "X") []
  = (missing_fields_reply, []).
Proof. reflexivity. Qed.

(** ** [distributed_sort.py] *)

Record ServerResult : Type := mkServerResult {
  server : ServerInfo;
  data : list Z;
  success : bool;
  error_message : string;
  processing_time : Z
}.

(** The [stats] dictionary of [DistributedSorter]; its four keys are fixed. *)
Record Stats : Type := mkStats {
  bytes_processed : nat;
  numbers_sorted : nat;
  total_errors : nat;
  avg_response_time : Z
}.

Definition add_numbers_sorted (n : nat) (st : Stats) : Stats :=
  mkStats (bytes_processed st) (numbers_sorted st + n) (total_errors st)
    (avg_response_time st).

Definition set_total_errors (n : nat) (st : Stats) : Stats :=
  mkStats (bytes_processed st) (numbers_sorted st) n (avg_response_time st).

Definition add_bytes_processed (n : nat) (st : Stats) : Stats :=
  mkStats (bytes_processed st + n) (numbers_sorted st) (total_errors st)
    (avg_response_time st).

(** What the exchange with one worker comes to.
    - [Replied]: the reply arrived and decoded to a list (of integers: a
      list of anything else is outside the model);
    - [FailedAfterReply]: the reply arrived (so [update_server_stats] ran)
      but did not decode to a list;
    - [FailedTransport]: connecting, sending or receiving raised. *)
Inductive outcome : Type :=
| Replied (sorted_chunk : list Z) (elapsed : Z)
| FailedAfterReply (error : string) (elapsed elapsed' : Z)
| FailedTransport (error : string) (elapsed : Z).

Definition succeeded (o : outcome) : bool :=
  match o with
  | Replied _ _ => true
  | _ => false
  end.

(** [send_chunk_to_server], given the outcome of the exchange; the registry
    is the one of [self.server_manager]. *)
Definition send_chunk_to_server (o : outcome) (server_ : ServerInfo)
    (chunk : list Z) (servers : list ServerInfo)
  : ServerResult * list ServerInfo :=
  match o with
  | Replied sorted_chunk elapsed =>
      (mkServerResult server_ sorted_chunk true "" elapsed,
       update_server_stats (ip server_) (port server_) elapsed (length chunk)
         servers)
  | FailedAfterReply error elapsed elapsed' =>
      (mkServerResult server_ [] false error elapsed',
       mark_server_inactive (ip server_) (port server_)
         (update_server_stats (ip server_) (port server_) elapsed
            (length chunk) servers))
  | FailedTransport error elapsed =>
      (mkServerResult server_ [] false error elapsed,
       mark_server_inactive (ip server_) (port server_) servers)
  end.

(** The worker threads, started in the order of [enumerate(zip(...))] and
    joined before the results are read.  Each stores its result at its own
    index of [results]; their effects on the registry are taken in index
    order. *)
Fixpoint run_workers (worker_io : nat -> ServerInfo -> list Z -> outcome)
    (idx : nat) (jobs : list (ServerInfo * list Z))
    (results : list (option ServerResult)) (servers : list ServerInfo)
  : list (option ServerResult) * list ServerInfo :=
  match jobs with
  | [] => (results, servers)
  | (server_, chunk) :: jobs' =>
      let '(result, servers') :=
        send_chunk_to_server (worker_io idx server_ chunk) server_ chunk
          servers in
      run_workers worker_io (S idx) jobs' (<[idx := Some result]> results)
        servers'
  end.

(** "Procesar resultados": the loop over [results]. *)
Fixpoint collect (results : list (option ServerResult))
    (successful_results : list (list Z)) (failed_servers : list pyval)
    (errors : nat) : list (list Z) * list pyval * nat :=
  match results with
  | [] => (successful_results, failed_servers, errors)
  | Some result :: rest =>
      if success result
      then collect rest (successful_results ++ [data result]) failed_servers
             errors
      else collect rest successful_results
             (failed_servers ++ [name (server result)]) (S errors)
  | None :: rest => collect rest successful_results failed_servers errors
  end.

(** What is written to the client socket. *)
Inductive client_msg : Type :=
| MsgNoServers
| MsgAllFailed (failed_servers : list pyval)
| MsgSorted (final_sorted : list Z)
| MsgError
| MsgNoServersForSort
| MsgReady
| MsgInvalidJson
| MsgProtocolError.

(** The network during one call of [process_distributed]: the clock and the
    probe of [update_servers_status], the exchange of worker [idx] with its
    server, and whether writes to the client socket succeed.  The socket is
    up or down for the whole call: [MsgSorted] stands for the prefix and all
    the blocks of the reply, and a socket that fails between two of these
    writes is outside the model. *)
Record network : Type := mkNetwork {
  now : Z;
  is_server_alive : pyval -> pyval -> bool;
  worker_io : nat -> ServerInfo -> list Z -> outcome;
  client_up : bool
}.

(** The mutable state behind a [DistributedSorter]: the registry of its
    [server_manager] and its [stats]. *)
Record sorter : Type := mkSorter {
  servers : list ServerInfo;
  stats : Stats
}.

(** The [except Exception] of [process_distributed]: count the error, try to
    tell the client, return [False]. *)
Definition on_exception (client_up_ : bool) (st : sorter)
  : bool * list client_msg * sorter :=
  (false,
   if client_up_ then [MsgError] else [],
   mkSorter (servers st) (set_total_errors (S (total_errors (stats st))) (stats st))).

(** [isinstance(v, str)]. *)
Definition is_str (v : pyval) : bool :=
  match v with
  | PStr _ => true
  | _ => false
  end.

(** Whether [', '.join(failed_servers)] returns: it raises [TypeError] at
    the first item that is not a [str].  [process_distributed] joins the
    names for the error message when no worker succeeded, and for the
    warning it logs when [failed_servers] is not empty; the join of an
    empty list returns. *)
Definition join_returns (failed_servers : list pyval) : bool :=
  forallb is_str failed_servers.

(** A write to the client socket: it is delivered, or it raises. *)
Definition client_send (client_up_ : bool) (returns : bool) (msg : client_msg)
    (st : sorter) : bool * list client_msg * sorter :=
  if client_up_ then (returns, [msg], st) else on_exception client_up_ st.

(** [process_distributed], for a probe that returns: the value returned,
    what is written to the client socket, and the state left behind.  The
    two joins of [failed_servers] (in the message when no worker succeeded,
    in the warning when some failed) raise on a name that is not a [str],
    and end like every other exception in the [except] clause. *)
Definition process_distributed (net : network) (numbers : list Z)
    (st : sorter) : bool * list client_msg * sorter :=
  let '(_, servers1) :=
    update_servers_status (now net) (is_server_alive net) (servers st) in
  let active_servers := get_active_servers servers1 in
  match active_servers with
  | [] => client_send (client_up net) false MsgNoServers
            (mkSorter servers1 (stats st))
  | _ :: _ =>
      let stats1 := add_numbers_sorted (length numbers) (stats st) in
      let server_count := length active_servers in
      let chunks := make_chunks numbers server_count in
      let '(results, servers2) :=
        run_workers (worker_io net) 0 (zip active_servers chunks)
          (replicate server_count None) servers1 in
      let '(successful_results, failed_servers, errors) :=
        collect results [] [] (total_errors stats1) in
      let st2 := mkSorter servers2 (set_total_errors errors stats1) in
      match successful_results with
      | [] =>
          if join_returns failed_servers
          then client_send (client_up net) false
                 (MsgAllFailed failed_servers) st2
          else on_exception (client_up net) st2
      | _ :: _ =>
          if join_returns failed_servers
          then
            let final_sorted := merge_sorted_lists successful_results in
            client_send (client_up net) true (MsgSorted final_sorted) st2
          else on_exception (client_up net) st2
      end
  end.

(** ** [client_handler.py] *)

Record ClientHandler : Type := mkClientHandler {
  distributed_sorter : sorter;
  total_operations : nat;
  successful_operations : nat
}.

(** What the client uploads after the ready message: a body that is not
    JSON ([JSONDecodeError]), one that is JSON but not a list or cannot be
    decoded (another [ValueError]), or a list. *)
Inductive payload : Type :=
| BodyNotJson
| BodyNotList
| BodyList (numbers : list Z).

(** - [UploadClosed]: [recv(4)] returns nothing;
    - [UploadBadPrefix]: fewer than four bytes arrive ([struct.error]);
    - [UploadTruncated]: the peer closes during the body;
    - [UploadRaised]: a [recv] raises (timeout, reset);
    - [UploadBody]: the announced number of bytes arrives. *)
Inductive upload : Type :=
| UploadClosed
| UploadBadPrefix
| UploadTruncated
| UploadRaised
| UploadBody (bytes_received : nat) (body : payload).

(** One client session that asks for a sort: the probe of the handler, the
    client socket while the handler talks to it, the upload, and the network
    during the dispatch. *)
Record session : Type := mkSession {
  s_now : Z;
  s_is_server_alive : pyval -> pyval -> bool;
  s_client_up : bool;
  s_upload : upload;
  s_dispatch : network
}.

Definition with_sorter (st : sorter) (h : ClientHandler) : ClientHandler :=
  mkClientHandler st (total_operations h) (successful_operations h).

Definition incr_total (h : ClientHandler) : ClientHandler :=
  mkClientHandler (distributed_sorter h) (S (total_operations h))
    (successful_operations h).

Definition incr_successful (h : ClientHandler) : ClientHandler :=
  mkClientHandler (distributed_sorter h) (total_operations h)
    (S (successful_operations h)).

(** The outer [except Exception] of [handle_distributed_sort]. *)
Definition handler_exception (client_up_ : bool) (h : ClientHandler)
  : list client_msg * ClientHandler :=
  (if client_up_ then [MsgError] else [],
   with_sorter
     (mkSorter (servers (distributed_sorter h))
        (set_total_errors (S (total_errors (stats (distributed_sorter h))))
           (stats (distributed_sorter h))))
     h).

Definition handle_distributed_sort (s : session) (h : ClientHandler)
  : list client_msg * ClientHandler :=
  let st := distributed_sorter h in
  let '((active_count, _), servers1) :=
    update_servers_status (s_now s) (s_is_server_alive s) (servers st) in
  let h1 := with_sorter (mkSorter servers1 (stats st)) h in
  if negb (s_client_up s) then handler_exception false h1
  else if (active_count =? 0) then ([MsgNoServersForSort], h1)
  else
    match s_upload s with
    | UploadClosed => ([MsgReady], h1)
    | UploadBadPrefix => ([MsgReady; MsgProtocolError], h1)
    | UploadTruncated => ([MsgReady], h1)
    | UploadRaised =>
        let '(msgs, h2) := handler_exception true h1 in
        (MsgReady :: msgs, h2)
    | UploadBody bytes_received body =>
        let h2 :=
          with_sorter
            (mkSorter servers1 (add_bytes_processed bytes_received (stats st)))
            h1 in
        match body with
        | BodyNotJson => ([MsgReady; MsgInvalidJson], h2)
        | BodyNotList =>
            let '(msgs, h3) := handler_exception true h2 in
            (MsgReady :: msgs, h3)
        | BodyList numbers =>
            let '(success_, msgs, st') :=
              process_distributed (s_dispatch s) numbers
                (distributed_sorter h2) in
            let h3 := incr_total (with_sorter st' h2) in
            (MsgReady :: msgs,
             if success_ then incr_successful h3 else h3)
        end
    end.

(** ** Fixtures: a fleet of three workers, and runs of the model *)

Definition worker (n : Z) (label : string) : ServerInfo :=
  mkServerInfo (PStr "10.0.0.1") (PInt (9000 + n)) (PStr label) true 0 0 0.

Definition fleet : sorter :=
  mkSorter [worker 1 "W1"; worker 2 "W2"; worker 3 "W3"] (mkStats 0 0 0 0).

(** Every worker sorts what it is sent. *)
Definition sorting_io (idx : nat) (s : ServerInfo) (chunk : list Z) : outcome :=
  Replied (merge_sort Z.le chunk) 1.

(** The same, except that the second worker refuses the connection. *)
Definition second_down_io (idx : nat) (s : ServerInfo) (chunk : list Z)
  : outcome :=
  if idx =? 1 then FailedTransport "Connection refused" 0
  else Replied (merge_sort Z.le chunk) 1.

(** No worker answers. *)
Definition all_down_io (idx : nat) (s : ServerInfo) (chunk : list Z) : outcome :=
  FailedTransport "Connection refused" 0.

Definition all_alive (ip_ port_ : pyval) : bool := true.

Example three_workers_perfect_split :
  process_distributed (mkNetwork 100 all_alive sorting_io true)
    [9; 2; 7; 1; 8; 3]%Z fleet
  = (true, [MsgSorted [1; 2; 3; 7; 8; 9]%Z],
     mkSorter
       [mkServerInfo (PStr "10.0.0.1") (PInt 9001) (PStr "W1") true 1 100 2;
        mkServerInfo (PStr "10.0.0.1") (PInt 9002) (PStr "W2") true 1 100 2;
        mkServerInfo (PStr "10.0.0.1") (PInt 9003) (PStr "W3") true 1 100 2]
       (mkStats 0 6 0 0)).
Proof. vm_compute. reflexivity. Qed.

Example partial_failure :
  process_distributed (mkNetwork 100 all_alive second_down_io true)
    [9; 2; 7; 1; 8; 3]%Z fleet
  = (true, [MsgSorted [2; 3; 8; 9]%Z],
     mkSorter
       [mkServerInfo (PStr "10.0.0.1") (PInt 9001) (PStr "W1") true 1 100 2;
        mkServerInfo (PStr "10.0.0.1") (PInt 9002) (PStr "W2") false 0 100 0;
        mkServerInfo (PStr "10.0.0.1") (PInt 9003) (PStr "W3") true 1 100 2]
       (mkStats 0 6 1 0)).
Proof. vm_compute. reflexivity. Qed.

Example all_workers_fail :
  process_distributed (mkNetwork 100 all_alive all_down_io true)
    [9; 2; 7; 1; 8; 3]%Z fleet
  = (false, [MsgAllFailed [PStr "W1"; PStr "W2"; PStr "W3"]],
     mkSorter
       [mkServerInfo (PStr "10.0.0.1") (PInt 9001) (PStr "W1") false 0 100 0;
        mkServerInfo (PStr "10.0.0.1") (PInt 9002) (PStr "W2") false 0 100 0;
        mkServerInfo (PStr "10.0.0.1") (PInt 9003) (PStr "W3") false 0 100 0]
       (mkStats 0 6 3 0)).
Proof. vm_compute. reflexivity. Qed.

(** A session that uploads [[9, 2, 7, 1, 8, 3]] to the fleet of three. *)
Definition sort_session (io : nat -> ServerInfo -> list Z -> outcome) : session :=
  mkSession 50 all_alive true (UploadBody 13 (BodyList [9; 2; 7; 1; 8; 3]%Z))
    (mkNetwork 100 all_alive io true).

Example sort_session_ok :
  let '(msgs, h) :=
    handle_distributed_sort (sort_session sorting_io)
      (mkClientHandler fleet 0 0) in
  msgs = [MsgReady; MsgSorted [1; 2; 3; 7; 8; 9]%Z]
  /\ total_operations h = 1 /\ successful_operations h = 1
  /\ stats (distributed_sorter h) = mkStats 13 6 0 0.
Proof. vm_compute. by repeat split. Qed.

Example sort_session_all_down :
  let '(msgs, h) :=
    handle_distributed_sort (sort_session all_down_io)
      (mkClientHandler fleet 0 0) in
  msgs = [MsgReady; MsgAllFailed [PStr "W1"; PStr "W2"; PStr "W3"]]
  /\ total_operations h = 1 /\ successful_operations h = 0
  /\ stats (distributed_sorter h) = mkStats 13 6 3 0.
Proof. vm_compute. by repeat split. Qed.

(** * Properties *)

(** ** Partitioning *)

Lemma take_slice {A} (a b : nat) (l : list A) :
  a <= b -> take a l ++ slice a b l = take b l.
Proof.
  intros Hab. unfold slice. rewrite take_take_drop. f_equal. lia.
Qed.

Lemma slice_clip {A} (a b : nat) (l : list A) :
  slice a b l = slice (a `min` length l) (b `min` length l) l.
Proof.
  unfold slice. destruct (decide (length l <= a)) as [Hge|Hlt].
  - rewrite (Nat.min_r a) by done. rewrite !drop_ge by lia. by rewrite !take_nil.
  - rewrite (Nat.min_l a) by lia.
    destruct (decide (b <= length l)) as [Hb|Hb].
    + by rewrite (Nat.min_l b) by done.
    + rewrite (Nat.min_r b) by lia.
      rewrite !take_ge; [done| |]; rewrite length_drop; lia.
Qed.

Lemma concat_slices {A} (l : list A) (k m : nat) :
  concat ((fun i => slice (i * k) (i * k + k) l) <$> seq 0 m) = take (m * k) l.
Proof.
  induction m as [|m IH].
  - done.
  - rewrite seq_S, fmap_app, concat_app, IH. cbn [fmap list_fmap concat].
    rewrite app_nil_r, take_slice by lia. f_equal. lia.
Qed.

Lemma make_chunks_S numbers m :
  let chunk_size := Nat.max 1 (length numbers / S m) in
  make_chunks numbers (S m)
  = ((fun i => slice (i * chunk_size) (i * chunk_size + chunk_size) numbers)
       <$> seq 0 m)
    ++ [slice (m * chunk_size) (length numbers) numbers].
Proof.
  intros chunk_size. unfold make_chunks. fold chunk_size.
  rewrite seq_S, fmap_app. f_equal.
  - apply list_fmap_ext. intros i x [-> Hi]%lookup_seq. cbn.
    by rewrite bool_decide_true by lia.
  - cbn. by rewrite bool_decide_false by lia.
Qed.

Lemma make_chunks_concat numbers server_count :
  1 <= server_count -> concat (make_chunks numbers server_count) = numbers.
Proof.
  destruct server_count as [|m]; [lia|]. intros _.
  rewrite make_chunks_S, concat_app, concat_slices. cbn [concat].
  rewrite app_nil_r. unfold slice. rewrite take_take_drop.
  apply take_ge. lia.
Qed.

Lemma make_chunks_length numbers server_count :
  length (make_chunks numbers server_count) = server_count.
Proof. unfold make_chunks. by rewrite length_fmap, length_seq. Qed.

(** The cut points of the partition: chunk [i] is [numbers[cut i : cut (i+1)]]. *)
Definition cut (numbers : list Z) (server_count i : nat) : nat :=
  if bool_decide (i < server_count)
  then (i * Nat.max 1 (length numbers / server_count)) `min` length numbers
  else length numbers.

(** C2.  For every input list and every number [c >= 1] of active servers,
    the partitioning step builds exactly [c] chunks with
    [chunk = max 1 (n / c)]: chunk [i < c - 1] is
    [numbers[i*chunk : (i+1)*chunk]] and the last one is
    [numbers[(c-1)*chunk : n]].  The chunks are the slices between
    consecutive cut points that go up from 0 to [n] (they are contiguous and
    disjoint), and their concatenation is the input. *)
Theorem make_chunks_partition (numbers : list Z) (c : nat) :
  1 <= c ->
  let n := length numbers in
  let chunk := Nat.max 1 (n / c) in
  length (make_chunks numbers c) = c
  /\ (forall i, i < c - 1 ->
        make_chunks numbers c !! i
        = Some (slice (i * chunk) ((i + 1) * chunk) numbers))
  /\ make_chunks numbers c !! (c - 1)
     = Some (slice ((c - 1) * chunk) n numbers)
  /\ cut numbers c 0 = 0 /\ cut numbers c c = n
  /\ (forall i, i < c -> cut numbers c i <= cut numbers c (S i))
  /\ (forall i, i < c ->
        make_chunks numbers c !! i
        = Some (slice (cut numbers c i) (cut numbers c (S i)) numbers))
  /\ concat (make_chunks numbers c) = numbers.
Proof.
  intros Hc n chunk.
  assert (forall i, i < c - 1 ->
            make_chunks numbers c !! i
            = Some (slice (i * chunk) ((i + 1) * chunk) numbers)) as Hinner.
  { intros i Hi. unfold make_chunks. rewrite list_lookup_fmap.
    rewrite lookup_seq_lt by lia. cbn.
    rewrite bool_decide_true by done. do 2 f_equal. fold n chunk. lia. }
  assert (make_chunks numbers c !! (c - 1)
          = Some (slice ((c - 1) * chunk) n numbers)) as Hlast.
  { unfold make_chunks. rewrite list_lookup_fmap.
    rewrite lookup_seq_lt by lia. cbn.
    by rewrite bool_decide_false by lia. }
  split; [apply make_chunks_length|].
  split; [exact Hinner|]. split; [exact Hlast|].
  split; [unfold cut; rewrite bool_decide_true by lia; lia|].
  split; [unfold cut; by rewrite bool_decide_false by lia|].
  split.
  - intros i Hi. unfold cut. fold n chunk. rewrite bool_decide_true by done.
    case_bool_decide; nia.
  - split; [|by apply make_chunks_concat].
    intros i Hi. unfold cut. fold n chunk. rewrite bool_decide_true by done.
    destruct (decide (i < c - 1)) as [Hlt|Hge].
    + rewrite bool_decide_true by lia. rewrite (Hinner _ Hlt).
      rewrite slice_clip. fold n. do 2 f_equal. by rewrite Nat.add_1_r.
    + assert (i = c - 1) as -> by lia. rewrite bool_decide_false by lia.
      rewrite Hlast, slice_clip. fold n. f_equal. f_equal. lia.
Qed.

Lemma make_chunks_partition_witness :
  length (make_chunks [5; 1; 3; 2; 4; 0; 6]%Z 3) = 3
  /\ make_chunks [5; 1; 3; 2; 4; 0; 6]%Z 3 !! 2 = Some [4; 0; 6]%Z
  /\ concat (make_chunks [5; 1; 3; 2; 4; 0; 6]%Z 3) = [5; 1; 3; 2; 4; 0; 6]%Z.
Proof.
  destruct (make_chunks_partition [5; 1; 3; 2; 4; 0; 6]%Z 3 ltac:(lia))
    as (Hlen & _ & Hlast & _ & _ & _ & _ & Hconcat).
  split; [exact Hlen|]. split; [exact Hlast | exact Hconcat].
Defined.

(** ** The k-way merge *)

Lemma merge_loop_eq lists heap result :
  merge_loop lists heap result
  = match heappop heap with
    | None => result
    | Some ((val, idx, list_idx), heap') =>
        merge_loop lists (advance lists heap' idx list_idx) (result ++ [val])
    end.
Proof.
  funelim (merge_loop lists heap result);
    match goal with E : heappop heap = _ |- _ => by rewrite E end.
Qed.

Lemma merge_pops_eq lists heap :
  merge_pops lists heap
  = match heappop heap with
    | None => []
    | Some ((val, idx, list_idx), heap') =>
        (val, idx, list_idx)
          :: merge_pops lists (advance lists heap' idx list_idx)
    end.
Proof.
  funelim (merge_pops lists heap);
    match goal with E : heappop heap = _ |- _ => by rewrite E end.
Qed.

(** The loop appends to [result] the values of the popped tuples, in the
    order in which they are popped. *)
Lemma merge_loop_pops lists heap result :
  merge_loop lists heap result
  = result ++ map item_val (merge_pops lists heap).
Proof.
  remember (heap_weight lists heap) as n eqn:Hn.
  revert heap result Hn. induction (lt_wf n) as [n _ IH]. intros heap result ->.
  rewrite merge_loop_eq, merge_pops_eq.
  destruct (heappop heap) as [[[[val idx] list_idx] heap']|] eqn:Hpop.
  - rewrite (IH _ (heappop_weight lists _ _ _ _ _ Hpop) _ _ eq_refl).
    simpl. by rewrite <- app_assoc.
  - by rewrite app_nil_r.
Qed.

(** *** The tuple order *)

Lemma item_ltb_false a b : item_ltb a b = false <-> item_le b a.
Proof.
  destruct a as [[va ia] sa], b as [[vb ib] sb].
  unfold item_ltb, item_le, item_val, item_idx, item_src; cbn [fst snd].
  destruct (Z.ltb_spec va vb), (Z.eqb_spec va vb), (Nat.ltb_spec ia ib),
    (Nat.eqb_spec ia ib), (Nat.ltb_spec sa sb); cbn; split; intros;
    try done; lia.
Qed.

Lemma item_ltb_true a b : item_ltb a b = true -> item_le a b.
Proof.
  destruct a as [[va ia] sa], b as [[vb ib] sb].
  unfold item_ltb, item_le, item_val, item_idx, item_src; cbn [fst snd].
  destruct (Z.ltb_spec va vb), (Z.eqb_spec va vb), (Nat.ltb_spec ia ib),
    (Nat.eqb_spec ia ib), (Nat.ltb_spec sa sb); cbn; intros;
    try done; lia.
Qed.

Lemma item_le_refl a : item_le a a.
Proof. unfold item_le. right. split; [done|]. right. done. Qed.

Lemma item_le_trans a b c : item_le a b -> item_le b c -> item_le a c.
Proof. unfold item_le. lia. Qed.

Lemma item_le_antisym a b : item_le a b -> item_le b a -> a = b.
Proof.
  destruct a as [[va ia] sa], b as [[vb ib] sb].
  unfold item_le, item_val, item_idx, item_src; cbn [fst snd].
  intros H1 H2. f_equal; [f_equal|]; lia.
Qed.

Lemma least_le_head x heap : item_le (least x heap) x.
Proof.
  revert x. induction heap as [|y heap IH]; intros x; simpl.
  - apply item_le_refl.
  - destruct (item_ltb y x) eqn:E; [|apply IH].
    eapply item_le_trans; [apply IH|]. by apply item_ltb_true.
Qed.

Lemma least_le x heap : Forall (item_le (least x heap)) (x :: heap).
Proof.
  revert x. induction heap as [|y heap IH]; intros x.
  - constructor; [apply item_le_refl | constructor].
  - constructor; [apply least_le_head|]. simpl.
    specialize (IH (if item_ltb y x then y else x)).
    apply Forall_cons in IH as [Hm Hrest]. constructor; [|done].
    destruct (item_ltb y x) eqn:E; [done|].
    eapply item_le_trans; [apply Hm|]. by apply item_ltb_false.
Qed.

Lemma remove_one_perm x heap : x ∈ heap -> heap ≡ₚ x :: remove_one x heap.
Proof.
  induction heap as [|y heap IH]; intros Hin.
  - by apply elem_of_nil in Hin.
  - simpl. destruct (decide (x = y)) as [->|Hne]; [done|].
    apply elem_of_cons in Hin as [?|Hin]; [done|].
    rewrite (IH Hin) at 1. apply perm_swap.
Qed.

(** The contract of [heappop]: the popped item is the least one, and the
    heap loses exactly that item. *)
Lemma heappop_spec heap m heap' :
  heappop heap = Some (m, heap') ->
  heap ≡ₚ m :: heap' /\ Forall (item_le m) heap.
Proof.
  intros Hpop. pose proof (heappop_Some _ _ _ Hpop) as [Hin ->].
  split; [by apply remove_one_perm|].
  destruct heap as [|x heap]; [done|].
  unfold heappop in Hpop. injection Hpop as <- _. apply least_le.
Qed.

Lemma heappop_None heap : heappop heap = None <-> heap = [].
Proof. by destruct heap. Qed.

(** *** Provenance of heap entries

    A heap entry [(val, idx, list_idx)] stands for the suffix of
    [lists[list_idx]] that starts at [idx].  [tag_from] lists the tuples of a
    suffix, [items_from] those an entry stands for, [all_items_from] those of
    all the sequences. *)

Fixpoint tag_from (idx src : nat) (l : list Z) : list item :=
  match l with
  | [] => []
  | v :: l' => (v, idx, src) :: tag_from (S idx) src l'
  end.

Definition items_from (lists : list (list Z)) (x : item) : list item :=
  tag_from (item_idx x) (item_src x)
    (drop (item_idx x) (lists !!! item_src x)).

Fixpoint all_items_from (src : nat) (lists : list (list Z)) : list item :=
  match lists with
  | [] => []
  | lst :: rest => tag_from 0 src lst ++ all_items_from (S src) rest
  end.

(** An entry is valid when it names an element that exists. *)
Definition valid (lists : list (list Z)) (x : item) : Prop :=
  (lists !!! item_src x) !! item_idx x = Some (item_val x).

Lemma map_val_tag_from idx src l : map item_val (tag_from idx src l) = l.
Proof. revert idx. induction l as [|v l IH]; intros idx; simpl; [done|]. by rewrite IH. Qed.

Lemma map_val_all_items_from src lists :
  map item_val (all_items_from src lists) = concat lists.
Proof.
  revert src. induction lists as [|lst rest IH]; intros src; simpl; [done|].
  by rewrite map_app, map_val_tag_from, IH.
Qed.

Lemma tag_from_le v i s j l :
  i < j -> Forall (Z.le v) l -> Forall (item_le (v, i, s)) (tag_from j s l).
Proof.
  intros Hij Hl. revert j Hij.
  induction Hl as [|w l Hvw Hl IH]; intros j Hij; simpl; constructor.
  - unfold item_le, item_val, item_idx, item_src; cbn [fst snd]. lia.
  - apply IH. lia.
Qed.

Lemma items_from_valid lists val idx src :
  valid lists (val, idx, src) ->
  items_from lists (val, idx, src)
  = (val, idx, src)
      :: (if bool_decide (idx + 1 < length (lists !!! src))
          then items_from lists ((lists !!! src) !!! (idx + 1), idx + 1, src)
          else []).
Proof.
  unfold valid, items_from. cbn [item_val item_idx item_src fst snd].
  intros Hv. rewrite (drop_S _ _ _ Hv). cbn [tag_from]. f_equal.
  rewrite Nat.add_1_r. case_bool_decide as Hlt; [done|].
  rewrite drop_ge by lia. done.
Qed.

Lemma advance_valid lists heap idx src :
  Forall (valid lists) heap -> Forall (valid lists) (advance lists heap idx src).
Proof.
  intros Hh. unfold advance. case_bool_decide as Hlt; [|done].
  apply Forall_app. split; [done|]. constructor; [|constructor].
  unfold valid. cbn [item_val item_idx item_src fst snd].
  by apply list_lookup_lookup_total_lt.
Qed.

Lemma advance_items lists heap val idx src :
  valid lists (val, idx, src) ->
  items_from lists (val, idx, src) ++ (heap ≫= items_from lists)
  ≡ₚ (val, idx, src) :: (advance lists heap idx src ≫= items_from lists).
Proof.
  intros Hv. rewrite (items_from_valid _ _ _ _ Hv). unfold advance.
  case_bool_decide as Hlt.
  - unfold heappush. rewrite bind_app, bind_singleton. cbn [app].
    apply perm_skip. apply Permutation_app_comm.
  - done.
Qed.

(** The loop pops exactly the tuples its heap stands for. *)
Lemma merge_pops_perm lists heap :
  Forall (valid lists) heap ->
  merge_pops lists heap ≡ₚ heap ≫= items_from lists.
Proof.
  remember (heap_weight lists heap) as n eqn:Hn.
  revert heap Hn. induction (lt_wf n) as [n _ IH]. intros heap -> Hvalid.
  rewrite merge_pops_eq.
  destruct (heappop heap) as [[[[val idx] src] heap']|] eqn:Hpop.
  - destruct (heappop_spec _ _ _ Hpop) as [Hperm _].
    rewrite Hperm in Hvalid. apply Forall_cons in Hvalid as [Hm Hrest].
    rewrite (IH _ (heappop_weight lists _ _ _ _ _ Hpop) _ eq_refl)
      by by apply advance_valid.
    rewrite Hperm, bind_cons. symmetry. by apply advance_items.
  - apply heappop_None in Hpop as ->. done.
Qed.

Lemma items_from_le lists x :
  Forall (Sorted Z.le) lists -> valid lists x ->
  Forall (item_le x) (items_from lists x).
Proof.
  intros Hsorted Hv. destruct x as [[val idx] src].
  assert (StronglySorted Z.le (lists !!! src)) as Hs.
  { unfold valid in Hv. cbn [item_src fst snd] in Hv.
    rewrite list_lookup_total_alt in Hv |- *.
    destruct (lists !! src) as [lst|] eqn:E; [|done]. cbn.
    apply Sorted_StronglySorted; [intros ???; apply Z.le_trans|].
    rewrite Forall_forall in Hsorted. apply Hsorted.
    by eapply list_elem_of_lookup_2. }
  unfold valid, items_from in *. cbn [item_val item_idx item_src fst snd] in *.
  rewrite <- (take_drop idx (lists !!! src)) in Hs.
  apply StronglySorted_app_1_r in Hs.
  rewrite (drop_S _ _ _ Hv) in Hs |- *. cbn [tag_from].
  apply StronglySorted_cons in Hs as [Hle _].
  constructor; [apply item_le_refl|]. apply tag_from_le; [lia|done].
Qed.

(** With sorted sequences the tuples are popped in increasing tuple order. *)
Lemma merge_pops_sorted lists heap :
  Forall (Sorted Z.le) lists -> Forall (valid lists) heap ->
  StronglySorted item_le (merge_pops lists heap).
Proof.
  intros Hsorted.
  remember (heap_weight lists heap) as n eqn:Hn.
  revert heap Hn. induction (lt_wf n) as [n _ IH]. intros heap -> Hvalid.
  rewrite merge_pops_eq.
  destruct (heappop heap) as [[[[val idx] src] heap']|] eqn:Hpop;
    [|constructor].
  destruct (heappop_spec _ _ _ Hpop) as [Hperm Hleast].
  rewrite Hperm in Hvalid, Hleast.
  apply Forall_cons in Hvalid as [Hm Hrest].
  apply Forall_cons in Hleast as [_ Hleast].
  assert (Forall (valid lists) (advance lists heap' idx src)) as Hadv
    by by apply advance_valid.
  constructor.
  - by apply (IH _ (heappop_weight lists _ _ _ _ _ Hpop) _ eq_refl).
  - rewrite merge_pops_perm by done.
    pose proof (items_from_le _ _ Hsorted Hm) as Hfrom.
    rewrite (items_from_valid _ _ _ _ Hm) in Hfrom.
    apply Forall_cons in Hfrom as [_ Hfrom].
    apply Forall_bind. unfold advance in *.
    case_bool_decide as Hlt.
    + apply Forall_app in Hadv as [_ Hnext].
      apply Forall_app. split.
      * rewrite Forall_forall in Hleast, Hrest |- *. intros y Hy.
        eapply Forall_impl; [apply (items_from_le _ _ Hsorted (Hrest _ Hy))|].
        intros z Hz. eapply item_le_trans; [by apply Hleast | done].
      * constructor; [done | constructor].
    + rewrite Forall_forall in Hleast, Hrest |- *. intros y Hy.
      eapply Forall_impl; [apply (items_from_le _ _ Hsorted (Hrest _ Hy))|].
      intros z Hz. eapply item_le_trans; [by apply Hleast | done].
Qed.

(** *** The initial heap *)

Lemma drop_cons_inv {A} (l : list A) n x rest :
  drop n l = x :: rest -> l !! n = Some x /\ drop (S n) l = rest.
Proof.
  intros Hd.
  assert (l !! n = Some x) as Hx.
  { rewrite <- (Nat.add_0_r n), <- lookup_drop, Hd. done. }
  split; [done|]. rewrite (drop_S _ _ _ Hx) in Hd. by injection Hd.
Qed.

Lemma push_heads_valid all lists src heap :
  drop src all = lists -> Forall (valid all) heap ->
  Forall (valid all) (push_heads src lists heap).
Proof.
  revert src heap. induction lists as [|lst rest IH]; intros src heap Hd Hh.
  - done.
  - apply drop_cons_inv in Hd as [Hlst Hd]. cbn [push_heads].
    apply (IH _ _ Hd). destruct lst as [|v lst]; [done|].
    apply Forall_app. split; [done|]. constructor; [|constructor].
    unfold valid. cbn [item_val item_idx item_src fst snd].
    by rewrite (list_lookup_total_correct _ _ _ Hlst).
Qed.

Lemma push_heads_items all lists src heap :
  drop src all = lists ->
  push_heads src lists heap ≫= items_from all
  = (heap ≫= items_from all) ++ all_items_from src lists.
Proof.
  revert src heap. induction lists as [|lst rest IH]; intros src heap Hd.
  - cbn. by rewrite app_nil_r.
  - apply drop_cons_inv in Hd as [Hlst Hd]. cbn [push_heads all_items_from].
    rewrite (IH _ _ Hd). destruct lst as [|v lst].
    + done.
    + unfold heappush. rewrite bind_app, bind_singleton, <- app_assoc.
      do 2 f_equal. unfold items_from. cbn [item_idx item_src fst snd].
      by rewrite (list_lookup_total_correct _ _ _ Hlst).
Qed.

(** The order of emission of [merge_sorted_lists] on two sequences or more. *)
Definition emission (lists : list (list Z)) : list item :=
  merge_pops lists (push_heads 0 lists []).

Lemma emission_perm lists : emission lists ≡ₚ all_items_from 0 lists.
Proof.
  unfold emission. rewrite merge_pops_perm.
  - by rewrite (push_heads_items lists lists 0 []).
  - by apply push_heads_valid.
Qed.

Lemma emission_sorted lists :
  Forall (Sorted Z.le) lists -> StronglySorted item_le (emission lists).
Proof.
  intros Hs. apply merge_pops_sorted; [done|]. by apply push_heads_valid.
Qed.

Lemma merge_loop_emission lists :
  merge_loop lists (push_heads 0 lists []) [] = map item_val (emission lists).
Proof. by rewrite merge_loop_pops. Qed.

Lemma item_le_val a b : item_le a b -> (item_val a <= item_val b)%Z.
Proof. unfold item_le. lia. Qed.

Lemma merge_loop_sorted lists :
  Forall (Sorted Z.le) lists ->
  Sorted Z.le (merge_loop lists (push_heads 0 lists []) []).
Proof.
  intros Hs. rewrite merge_loop_emission.
  apply StronglySorted_Sorted.
  pose proof (emission_sorted _ Hs) as Hem.
  induction Hem as [|a l _ IH Ha]; cbn; constructor; [done|].
  apply List.Forall_map. eapply Forall_impl; [exact Ha|].
  intros b. apply item_le_val.
Qed.

Lemma merge_loop_perm lists :
  merge_loop lists (push_heads 0 lists []) [] ≡ₚ concat lists.
Proof.
  rewrite merge_loop_emission, emission_perm.
  by rewrite map_val_all_items_from.
Qed.

Lemma merge_sorted_lists_sorted lists :
  Forall (Sorted Z.le) lists -> Sorted Z.le (merge_sorted_lists lists).
Proof.
  intros Hs. destruct lists as [|l1 [|l2 rest]].
  - constructor.
  - by apply Forall_cons in Hs as [? _].
  - by apply merge_loop_sorted.
Qed.

Lemma merge_sorted_lists_perm lists : merge_sorted_lists lists ≡ₚ concat lists.
Proof.
  destruct lists as [|l1 [|l2 rest]].
  - done.
  - cbn. by rewrite app_nil_r.
  - apply merge_loop_perm.
Qed.

(** *** The loop as a transition system

    One iteration of the [while] on the pair (heap, result), and the states
    the loop goes through from the initial heap. *)

Definition merge_state : Type := list item * list Z.

Definition merge_step (lists : list (list Z)) (st : merge_state)
  : option merge_state :=
  match heappop st.1 with
  | None => None
  | Some ((val, idx, list_idx), heap') =>
      Some (advance lists heap' idx list_idx, st.2 ++ [val])
  end.

Inductive reachable (lists : list (list Z)) : merge_state -> Prop :=
| reachable_init : reachable lists (push_heads 0 lists [], [])
| reachable_step st st' :
    reachable lists st -> merge_step lists st = Some st' ->
    reachable lists st'.

Lemma merge_loop_step lists heap result :
  merge_loop lists heap result
  = match merge_step lists (heap, result) with
    | None => result
    | Some (heap', result') => merge_loop lists heap' result'
    end.
Proof.
  rewrite merge_loop_eq. unfold merge_step. cbn [fst snd].
  by destruct (heappop heap) as [[[[val idx] list_idx] heap']|].
Qed.

(** The tie-break as the specification words it: of two offered tuples with
    equal values, the one of the higher source index is not the one popped. *)
Definition lower_source_first (lists : list (list Z)) : Prop :=
  forall heap result a b m heap',
    reachable lists (heap, result) ->
    a ∈ heap -> b ∈ heap ->
    item_val a = item_val b -> item_src a < item_src b ->
    heappop heap = Some (m, heap') -> m <> b.

(** The tie-break of the tuple order [(value, idx, list_idx)]. *)
Definition tie_break_before (a b : item) : Prop :=
  item_val a = item_val b
  /\ (item_idx a < item_idx b
      \/ (item_idx a = item_idx b /\ item_src a < item_src b)).

Example emission_ex1 :
  emission [[1; 1]; [1]]%Z = [(1%Z, 0, 0); (1%Z, 0, 1); (1%Z, 1, 0)].
Proof. reflexivity. Qed.

(** C3.  For every list of sorted sequences, [merge_sorted_lists] is
    non-decreasing and a permutation of the concatenation of the sequences
    (its multiset is the union of theirs); the merge of no sequence is [[]]
    and the merge of one sequence is that sequence. *)
Theorem merge_sorted_lists_correct (lists : list (list Z)) :
  Forall (Sorted Z.le) lists ->
  Sorted Z.le (merge_sorted_lists lists)
  /\ merge_sorted_lists lists ≡ₚ concat lists
  /\ merge_sorted_lists [] = []
  /\ (forall x, merge_sorted_lists [x] = x).
Proof.
  intros Hsorted. split; [|split; [|split]].
  - by apply merge_sorted_lists_sorted.
  - apply merge_sorted_lists_perm.
  - reflexivity.
  - intros x. reflexivity.
Qed.

Lemma merge_sorted_lists_correct_witness :
  Sorted Z.le (merge_sorted_lists [[2; 9]; [1; 7]; [3; 8]]%Z)
  /\ merge_sorted_lists [[2; 9]; [1; 7]; [3; 8]]%Z
     ≡ₚ concat [[2; 9]; [1; 7]; [3; 8]]%Z.
Proof.
  assert (Forall (Sorted Z.le) [[2; 9]; [1; 7]; [3; 8]]%Z) as Hs.
  { repeat constructor; lia. }
  destruct (merge_sorted_lists_correct _ Hs) as (Hsorted & Hperm & _).
  split; [exact Hsorted | exact Hperm].
Defined.

(** C4, as the specification states it, fails: with the sequences [[1, 1]]
    and [[1]], after the first pop sources 0 and 1 both offer the value 1
    (tuples [(1, 1, 0)] and [(1, 0, 1)]) and the tuple of source 1 is popped
    first. *)
Lemma lower_source_first_fails : ~ lower_source_first [[1; 1]; [1]]%Z.
Proof.
  intros Hclaim.
  apply (Hclaim [(1%Z, 0, 1); (1%Z, 1, 0)] [1%Z] (1%Z, 1, 0) (1%Z, 0, 1)
           (1%Z, 0, 1) [(1%Z, 1, 0)]).
  - eapply reachable_step; [apply reachable_init | reflexivity].
  - right; left.
  - left.
  - reflexivity.
  - cbn. lia.
  - reflexivity.
  - reflexivity.
Qed.

Lemma heappop_least heap m heap' a :
  heappop heap = Some (m, heap') -> a ∈ heap -> item_le m a.
Proof.
  intros Hpop Ha. destruct (heappop_spec _ _ _ Hpop) as [_ Hle].
  rewrite Forall_forall in Hle. by apply Hle.
Qed.

(** C4, amended.  Whenever two sources offer equal values, the tuple at the
    lower position within its own sequence is popped first, and the lower
    source index decides only between equal positions; so, for sorted
    sequences, equal values are emitted in the order of (position in the
    source, source index), and the emission is sorted in the tuple order
    [(value, idx, list_idx)]. *)
Theorem merge_tie_break (lists : list (list Z)) :
  Forall (Sorted Z.le) lists ->
  (forall heap result a b m heap',
     reachable lists (heap, result) ->
     a ∈ heap -> b ∈ heap -> tie_break_before a b ->
     heappop heap = Some (m, heap') -> m <> b)
  /\ StronglySorted item_le (emission lists)
  /\ (forall i j a b,
        emission lists !! i = Some a -> emission lists !! j = Some b ->
        tie_break_before a b -> i < j)
  /\ merge_sorted_lists lists
     = match lists with
       | [] => []
       | [lst] => lst
       | _ => map item_val (emission lists)
       end.
Proof.
  intros Hsorted.
  pose proof (emission_sorted _ Hsorted) as Hem.
  split; [|split; [exact Hem|split]].
  - intros heap result a b m heap' _ Ha Hb [Hval Htie] Hpop ->.
    pose proof (heappop_least _ _ _ _ Hpop Ha) as Hle.
    unfold item_le in Hle. lia.
  - intros i j a b Hi Hj [Hval Htie].
    destruct (decide (i < j)) as [|Hge]; [done|]. exfalso.
    assert (item_le b a) as Hba.
    { destruct (decide (i = j)) as [->|Hne].
      - rewrite Hi in Hj. injection Hj as ->. apply item_le_refl.
      - assert (j < i) as Hlt by lia.
        rewrite <- (take_drop i (emission lists)) in Hem, Hj.
        apply lookup_lt_Some in Hi as Hilen.
        rewrite lookup_app_l in Hj by (rewrite length_take; lia).
        eapply (StronglySorted_app_1_elem_of _ _ _ b a Hem).
        + by eapply list_elem_of_lookup_2.
        + rewrite (drop_S _ _ _ Hi). left. }
    unfold item_le in Hba. lia.
  - destruct lists as [|l1 [|l2 rest]]; [done..|].
    apply merge_loop_emission.
Qed.

Lemma merge_tie_break_witness :
  StronglySorted item_le (emission [[1; 1]; [1]]%Z)
  /\ merge_sorted_lists [[1; 1]; [1]]%Z
     = map item_val (emission [[1; 1]; [1]]%Z).
Proof.
  assert (Forall (Sorted Z.le) [[1; 1]; [1]]%Z) as Hs.
  { repeat constructor; lia. }
  destruct (merge_tie_break _ Hs) as (_ & Hem & _ & Hout).
  split; [exact Hem | exact Hout].
Defined.

(** ** The merge does not depend on the layout of the heap

    Any priority queue that meets the contract of [heapq] (pushing adds an
    item, popping removes a least item) pops the same tuples in the same
    order as the bag used above: the tuples of a heap are pairwise distinct
    here, so the least one is unique. *)
Section heap_contract.

Variable H : Type.
Variable h_push : H -> item -> H.
Variable h_pop : H -> option (item * H).
Variable elements : H -> list item.

Hypothesis elements_push :
  forall h x, elements (h_push h x) ≡ₚ x :: elements h.
Hypothesis pop_empty : forall h, elements h = [] -> h_pop h = None.
Hypothesis pop_least :
  forall h, elements h <> [] ->
    exists m h', h_pop h = Some (m, h')
                 /\ elements h ≡ₚ m :: elements h'
                 /\ Forall (item_le m) (elements h).

Definition advance_on (lists : list (list Z)) (h : H) (idx list_idx : nat) : H :=
  let src := lists !!! list_idx in
  if bool_decide (idx + 1 < length src)
  then h_push h (src !!! (idx + 1), idx + 1, list_idx)
  else h.

(** The [while] loop over the abstract queue, cut off after [fuel] pops. *)
Fixpoint merge_loop_on (fuel : nat) (lists : list (list Z)) (h : H)
    (result : list Z) : list Z :=
  match fuel with
  | 0 => result
  | S fuel' =>
      match h_pop h with
      | None => result
      | Some ((val, idx, list_idx), h') =>
          merge_loop_on fuel' lists (advance_on lists h' idx list_idx)
            (result ++ [val])
      end
  end.

Lemma heap_weight_perm lists h1 h2 :
  h1 ≡ₚ h2 -> heap_weight lists h1 = heap_weight lists h2.
Proof. induction 1; cbn; lia. Qed.

Lemma advance_on_elements lists h heap idx list_idx :
  elements h ≡ₚ heap ->
  elements (advance_on lists h idx list_idx)
  ≡ₚ advance lists heap idx list_idx.
Proof.
  intros Hperm. unfold advance_on, advance. case_bool_decide; [|done].
  rewrite elements_push, Hperm. unfold heappush.
  by rewrite Permutation_app_comm.
Qed.

Lemma merge_loop_on_correct fuel lists h heap result :
  elements h ≡ₚ heap -> heap_weight lists heap <= fuel ->
  merge_loop_on fuel lists h result = merge_loop lists heap result.
Proof.
  revert h heap result.
  induction fuel as [|fuel IH]; intros h heap result Hperm Hfuel.
  - destruct heap as [|x heap]; [|cbn in Hfuel; lia].
    rewrite merge_loop_eq. done.
  - cbn [merge_loop_on]. rewrite merge_loop_eq.
    destruct (heappop heap) as [[[[val idx] src] heap']|] eqn:Hpop.
    + destruct (heappop_spec _ _ _ Hpop) as [Hheap Hleast].
      destruct (pop_least h) as (m & h' & -> & Hh & Hm).
      { intros Hnil. rewrite Hnil in Hperm.
        apply Permutation_nil_l in Hperm. by subst heap. }
      assert (m = (val, idx, src)) as ->.
      { apply item_le_antisym.
        - rewrite Forall_forall in Hm. apply Hm. rewrite Hperm, Hheap. left.
        - rewrite Forall_forall in Hleast. apply Hleast.
          rewrite <- Hperm, Hh. left. }
      apply IH.
      * apply advance_on_elements. eapply Permutation_cons_inv.
        by rewrite <- Hh, <- Hheap.
      * pose proof (heappop_weight lists _ _ _ _ _ Hpop). lia.
    + apply heappop_None in Hpop as ->. apply Permutation_nil_r in Hperm.
      by rewrite (pop_empty _ Hperm).
Qed.

End heap_contract.

(** The bag of the model meets the contract. *)
Lemma bag_meets_contract :
  (forall h x, heappush h x ≡ₚ x :: h)
  /\ (forall h : list item, h = [] -> heappop h = None)
  /\ (forall h, h <> [] ->
        exists m h', heappop h = Some (m, h') /\ h ≡ₚ m :: h'
                     /\ Forall (item_le m) h).
Proof.
  split; [|split].
  - intros h x. unfold heappush. by rewrite Permutation_app_comm.
  - by intros h ->.
  - intros h Hne. destruct (heappop h) as [[m h']|] eqn:Hpop.
    + exists m, h'. split; [done|]. by apply heappop_spec.
    + by apply heappop_None in Hpop.
Qed.

(** ** The registry *)

(** *** Python's [==] on scalars is an equivalence *)

Lemma py_eq_refl a : py_eq a a = true.
Proof.
  destruct a; cbn; try done; try apply Qeq_bool_refl. apply String.eqb_refl.
Qed.

Lemma py_eq_sym a b : py_eq a b = py_eq b a.
Proof.
  destruct a, b; cbn; try done; try apply Qeq_bool_comm. apply String.eqb_sym.
Qed.

Lemma py_eq_trans a b c : py_eq a b = true -> py_eq b c = true -> py_eq a c = true.
Proof.
  destruct a, b, c; cbn; try done; try apply Qeq_bool_trans.
  rewrite !String.eqb_eq. congruence.
Qed.

Lemma has_address_self r : has_address (ip r) (port r) r = true.
Proof. unfold has_address. by rewrite !py_eq_refl. Qed.

Lemma has_address_sym r1 r2 :
  has_address (ip r1) (port r1) r2 = has_address (ip r2) (port r2) r1.
Proof.
  unfold has_address. by rewrite (py_eq_sym (ip r2)), (py_eq_sym (port r2)).
Qed.

Lemma has_address_trans a p r1 r2 :
  has_address a p r1 = true -> has_address (ip r1) (port r1) r2 = true ->
  has_address a p r2 = true.
Proof.
  unfold has_address. rewrite !andb_true_iff. intros [H1 H2] [H3 H4].
  split; eapply py_eq_trans; eauto.
Qed.

(** *** Addresses are unique keys *)

Inductive unique_addresses : list ServerInfo -> Prop :=
| unique_nil : unique_addresses []
| unique_cons r servers :
    Forall (fun x => has_address (ip r) (port r) x = false) servers ->
    unique_addresses servers ->
    unique_addresses (r :: servers).

(** Two registries with the same addresses at the same positions. *)
Definition same_addresses : list ServerInfo -> list ServerInfo -> Prop :=
  Forall2 (fun r r' => ip r = ip r' /\ port r = port r').

Definition address_count (ip_ port_ : pyval) (servers : list ServerInfo) : nat :=
  length (filter (fun r => has_address ip_ port_ r) servers).

Lemma same_addresses_unique a b :
  same_addresses a b -> unique_addresses a -> unique_addresses b.
Proof.
  intros Hab. induction Hab as [|r r' a b [Hip Hport] Hab IH]; intros Hu.
  - constructor.
  - inversion Hu as [|? ? Hr Ha]; subst. constructor; [|by apply IH].
    clear IH Hu Ha. induction Hab as [|x x' a b [Hip' Hport'] Hab IH].
    + constructor.
    + apply Forall_cons in Hr as [Hx Hr]. constructor; [|by apply IH].
      unfold has_address in *. by rewrite <- Hip, <- Hport, <- Hip', <- Hport'.
Qed.

Lemma elem_of_store new servers x :
  x ∈ store new servers -> x = new \/ x ∈ servers.
Proof.
  induction servers as [|r servers IH]; cbn.
  - intros ->%list_elem_of_singleton. by left.
  - destruct (has_address (ip new) (port new) r).
    + intros [->|Hx]%elem_of_cons; [by left|]. right. by right.
    + intros [->|Hx]%elem_of_cons; [right; by left|].
      destruct (IH Hx) as [->|?]; [by left|]. right. by right.
Qed.

Lemma store_unique new servers :
  unique_addresses servers -> unique_addresses (store new servers).
Proof.
  induction 1 as [|r servers Hr Hu IH]; cbn.
  - repeat constructor.
  - destruct (has_address (ip new) (port new) r) eqn:Hnew.
    + constructor; [|done]. eapply Forall_impl; [exact Hr|].
      intros x Hx. cbn in Hx. destruct (has_address (ip new) (port new) x) eqn:E; [|done].
      rewrite <- Hx. symmetry. rewrite has_address_sym in Hnew.
      by eapply has_address_trans.
    + constructor; [|done]. apply Forall_forall. intros x Hx.
      apply elem_of_store in Hx as [->|Hx].
      * by rewrite has_address_sym.
      * rewrite Forall_forall in Hr. by apply Hr.
Qed.

(** After [store], the address of the new record occurs once if it occurred
    at most once before. *)
Lemma store_count new servers :
  address_count (ip new) (port new) (store new servers)
  = Nat.max 1 (address_count (ip new) (port new) servers).
Proof.
  unfold address_count. induction servers as [|r servers IH]; cbn [store].
  - rewrite filter_cons_True by (by rewrite has_address_self). done.
  - destruct (has_address (ip new) (port new) r) eqn:Hr.
    + rewrite !filter_cons_True; [cbn; lia | by rewrite Hr |].
      by rewrite has_address_self.
    + rewrite !filter_cons_False by (rewrite Hr; cbn; tauto). exact IH.
Qed.

(** The record is replaced where it was, or appended. *)
Lemma store_cases new servers :
  (Forall (fun r => has_address (ip new) (port new) r = false) servers
   /\ store new servers = servers ++ [new])
  \/ (exists before old after,
        servers = before ++ old :: after
        /\ Forall (fun r => has_address (ip new) (port new) r = false) before
        /\ has_address (ip new) (port new) old = true
        /\ store new servers = before ++ new :: after).
Proof.
  induction servers as [|r servers IH]; cbn [store].
  - left. by split.
  - destruct (has_address (ip new) (port new) r) eqn:Hr.
    + right. exists [], r, servers. by repeat split.
    + destruct IH as [[Hall ->]|(before & old & after & -> & Hb & Hold & ->)].
      * left. split; [by constructor | done].
      * right. exists (r :: before), old, after. repeat split; try done.
        by constructor.
Qed.

(** The registries the operations of [ServerManager] can produce. *)
Inductive registry_reachable : list ServerInfo -> Prop :=
| registry_init : registry_reachable []
| registry_register t1 t2 data servers :
    registry_reachable servers ->
    registry_reachable (register_server t1 t2 data servers).2
| registry_probe now alive servers :
    registry_reachable servers ->
    registry_reachable (update_servers_status now alive servers).2
| registry_stats ip_ port_ t n servers :
    registry_reachable servers ->
    registry_reachable (update_server_stats ip_ port_ t n servers)
| registry_inactive ip_ port_ servers :
    registry_reachable servers ->
    registry_reachable (mark_server_inactive ip_ port_ servers).

Lemma update_servers_status_addresses now alive servers :
  same_addresses servers (update_servers_status now alive servers).2.
Proof.
  cbn. induction servers as [|r servers IH]; constructor; [by split | done].
Qed.

Lemma update_server_stats_addresses ip_ port_ t n servers :
  same_addresses servers (update_server_stats ip_ port_ t n servers).
Proof.
  induction servers as [|r servers IH]; cbn; [constructor|].
  destruct (has_address ip_ port_ r); constructor; try done.
  clear. induction servers; constructor; done.
Qed.

Lemma mark_server_inactive_addresses ip_ port_ servers :
  same_addresses servers (mark_server_inactive ip_ port_ servers).
Proof.
  induction servers as [|r servers IH]; cbn; [constructor|].
  destruct (has_address ip_ port_ r); constructor; try done.
  clear. induction servers; constructor; done.
Qed.

Lemma register_server_unique t1 t2 data servers :
  unique_addresses servers ->
  unique_addresses (register_server t1 t2 data servers).2.
Proof.
  intros Hu. unfold register_server.
  repeat (case_match; cbn [snd]); try done. by apply store_unique.
Qed.

(** Registration idempotence: in every registry the operations can produce,
    no address occurs twice. *)
Lemma registry_reachable_unique servers :
  registry_reachable servers -> unique_addresses servers.
Proof.
  induction 1 as [| ????? IH | ???? IH | ?????? IH | ???? IH].
  - constructor.
  - by apply register_server_unique.
  - eapply same_addresses_unique; [apply update_servers_status_addresses | done].
  - eapply same_addresses_unique; [apply update_server_stats_addresses | done].
  - eapply same_addresses_unique; [apply mark_server_inactive_addresses | done].
Qed.

(** *** Registration *)

(** A port the validation accepts: an instance of [int] whose value is in
    [1, 65535].  [bool] is a subclass of [int], so [True] is one
    ([valid_port_cases]). *)
Definition valid_port (v : pyval) : Prop :=
  exists p, int_value v = Some p /\ (1 <= p <= 65535)%Z.

(** C6 as the specification states it: a request whose port is not an
    integer in [1, 65535] is answered with the invalid-port reply and leaves
    the registry unchanged. *)
Definition invalid_port_claim (data : gmap string pyval) : Prop :=
  forall t1 t2 servers,
    ~ valid_port (dict_get data "port") ->
    register_server t1 t2 data servers = (invalid_port_reply, servers).

Lemma port_check port_ :
  negb (isinstance_int port_) || (int_of port_ <=? 0)%Z
    || (65535 <? int_of port_)%Z = false
  <-> valid_port port_.
Proof.
  unfold valid_port, isinstance_int, int_of.
  destruct (int_value port_) as [p|]; cbn.
  - rewrite orb_false_iff, Z.leb_gt, Z.ltb_ge. split.
    + intros [? ?]. exists p. split; [done | lia].
    + intros (q & [= <-] & ?). lia.
  - split; [done|]. by intros (q & ? & _).
Qed.

Lemma replies_differ : missing_fields_reply <> invalid_port_reply.
Proof.
  intros Heq. apply (f_equal (fun m => m !! "mensaje")) in Heq.
  vm_compute in Heq. discriminate Heq.
Qed.

(** What [register_server] does with a request that passes validation. *)
Lemma register_server_valid t1 t2 data servers :
  let ip_ := dict_get data "ip" in
  let port_ := dict_get data "port" in
  let name_ := dict_get data "name" in
  let new := mkServerInfo ip_ port_ name_ true t1 t2 0 in
  forallb truthy [ip_; port_; name_] = true -> valid_port port_ ->
  register_server t1 t2 data servers = (registered_reply, store new servers)
  /\ address_count ip_ port_ (store new servers)
     = Nat.max 1 (address_count ip_ port_ servers).
Proof.
  intros ip_ port_ name_ new Hall Hport. split.
  - unfold register_server. fold ip_ port_ name_. rewrite Hall. cbn [negb].
    apply port_check in Hport. by rewrite Hport.
  - apply (store_count new).
Qed.

Lemma elem_of_store_new new servers : new ∈ store new servers.
Proof.
  induction servers as [|r servers IH]; cbn; [left|].
  destruct (has_address (ip new) (port new) r); [left | by right].
Qed.

(** C5: the code at the failing input.  A worker registered at clock
    reading 1700000000, over its own stale record or in an empty registry,
    gets [last_response_time = 1700000000], not 0: the constructor call
    passes [time.time()] in the position of [last_response_time].  It is so
    for every request that passes validation: the stored record carries the
    first clock reading as its [last_response_time]. *)
Theorem register_server_response_time :
  let old :=
    mkServerInfo (PStr "10.0.0.5") (PInt 9000) (PStr "W1") false 3
      1699999000 42 in
  let new :=
    mkServerInfo (PStr "10.0.0.5") (PInt 9000) (PStr "W1b") true 1700000000
      1700000001 0 in
  register_server 1700000000 1700000001
    (request "10.0.0.5" (PInt 9000) "W1b") [old]
  = (registered_reply, [new])
  /\ register_server 1700000000 1700000001
       (request "10.0.0.5" (PInt 9000) "W1b") []
     = (registered_reply, [new])
  /\ last_response_time new <> 0%Z
  /\ (forall t1 t2 data servers,
        forallb truthy
          [dict_get data "ip"; dict_get data "port"; dict_get data "name"]
        = true ->
        valid_port (dict_get data "port") ->
        exists r,
          r ∈ (register_server t1 t2 data servers).2
          /\ ip r = dict_get data "ip" /\ port r = dict_get data "port"
          /\ name r = dict_get data "name" /\ active r = true
          /\ last_response_time r = t1 /\ last_check_time r = t2
          /\ total_processed r = 0).
Proof.
  intros old new. split; [|split; [|split]].
  - reflexivity.
  - reflexivity.
  - cbn. lia.
  - intros t1 t2 data servers Hall Hport.
    destruct (register_server_valid t1 t2 data servers Hall Hport) as [-> _].
    eexists. split; [apply elem_of_store_new|]. by repeat split.
Qed.

(** C6, as the specification states it, fails at port 0: the reply is the
    missing-fields one. *)
Lemma invalid_port_claim_fails :
  ~ invalid_port_claim (request "10.0.0.5" (PInt 0) "X").
Proof.
  intros Hclaim. specialize (Hclaim 5%Z 6%Z []).
  assert (~ valid_port (dict_get (request "10.0.0.5" (PInt 0) "X") "port"))
    as Hport.
  { intros (p & Hp & Hrange). vm_compute in Hp. injection Hp as <-. lia. }
  specialize (Hclaim Hport).
  change (register_server 5 6 (request "10.0.0.5" (PInt 0) "X") [])
    with (missing_fields_reply, @nil ServerInfo) in Hclaim.
  injection Hclaim as Heq. by apply replies_differ.
Qed.

(** What [isinstance(port, int) and 0 < port <= 65535] lets through: the
    integers of the range, and [True], which is an [int] for Python (the
    value 1). *)
Lemma valid_port_cases v :
  valid_port v
  <-> (exists n, v = PInt n /\ (1 <= n <= 65535)%Z) \/ v = PBool true.
Proof.
  unfold valid_port. split.
  - intros (p & Hv & Hrange). destruct v as [|b|n|q|t]; try done.
    + right. destruct b; [done|]. cbn in Hv. injection Hv as <-. lia.
    + left. exists n. cbn in Hv. injection Hv as <-. done.
  - intros [(n & -> & Hrange) | ->].
    + by exists n.
    + exists 1%Z. split; [done | lia].
Qed.

(** The port [true] passes the validation: its request is registered, with
    [True] as the port of the record. *)
Lemma port_true_registered t1 t2 data servers :
  dict_get data "port" = PBool true ->
  truthy (dict_get data "ip") = true ->
  truthy (dict_get data "name") = true ->
  register_server t1 t2 data servers
  = (registered_reply,
     store (mkServerInfo (dict_get data "ip") (PBool true)
              (dict_get data "name") true t1 t2 0) servers).
Proof.
  intros Hport Hip Hname. unfold register_server.
  rewrite Hport. cbn [forallb truthy]. by rewrite Hip, Hname.
Qed.

(** C6, amended.  A request whose port is neither an integer in
    [1, 65535] nor the value [true] gets a reply with status ["error"] and
    leaves the registry unchanged; the reply is the invalid-port one when
    [ip], [port] and [name] are all truthy, and the missing-fields one
    otherwise (port 0, a missing port, a missing [ip] or [name]). *)
Theorem invalid_port_rejected t1 t2 data servers :
  (forall n, dict_get data "port" = PInt n -> ~ (1 <= n <= 65535)%Z) ->
  dict_get data "port" <> PBool true ->
  let all_present :=
    forallb truthy
      [dict_get data "ip"; dict_get data "port"; dict_get data "name"] in
  (register_server t1 t2 data servers).2 = servers
  /\ (register_server t1 t2 data servers).1 !! "status" = Some (PStr "error")
  /\ (register_server t1 t2 data servers).1
     = if all_present then invalid_port_reply else missing_fields_reply.
Proof.
  intros Hrange Hbool all_present.
  assert (~ valid_port (dict_get data "port")) as Hport.
  { rewrite valid_port_cases. intros [(n & Hn & Hin) | Htrue]; [|done].
    by apply (Hrange n). }
  unfold register_server. fold all_present.
  destruct all_present; cbn [negb].
  - destruct (negb (isinstance_int (dict_get data "port"))
              || (int_of (dict_get data "port") <=? 0)%Z
              || (65535 <? int_of (dict_get data "port"))%Z) eqn:Hcheck.
    + by repeat split.
    + by apply port_check in Hcheck.
  - by repeat split.
Qed.

Lemma invalid_port_rejected_witness :
  (register_server 5 6 (request "10.0.0.5" (PInt 70000) "X") []).2 = []
  /\ (register_server 5 6 (request "10.0.0.5" (PInt 70000) "X") []).1
     = invalid_port_reply.
Proof.
  assert (forall n,
            dict_get (request "10.0.0.5" (PInt 70000) "X") "port" = PInt n ->
            ~ (1 <= n <= 65535)%Z) as Hrange.
  { intros n Hn. vm_compute in Hn. injection Hn as <-. lia. }
  assert (dict_get (request "10.0.0.5" (PInt 70000) "X") "port" <> PBool true)
    as Hbool.
  { intros Hn. vm_compute in Hn. discriminate Hn. }
  destruct (invalid_port_rejected 5 6 _ [] Hrange Hbool)
    as (Hreg & _ & Hreply).
  split; [exact Hreg | exact Hreply].
Defined.

(** C10.  When any of [ip], [port], [name] is falsy (missing, [None], the
    empty string, or 0) the reply is the missing-fields one and the registry
    is unchanged; port 0 is falsy, so it gets this reply and never reaches
    the range check. *)
Theorem missing_fields_rejected t1 t2 data servers :
  truthy (dict_get data "ip") = false
  \/ truthy (dict_get data "port") = false
  \/ truthy (dict_get data "name") = false ->
  register_server t1 t2 data servers = (missing_fields_reply, servers)
  /\ (register_server t1 t2 data servers).1 !! "status" = Some (PStr "error")
  /\ (register_server t1 t2 data servers).1 <> invalid_port_reply
  /\ (forall key,
        data !! key = None \/ data !! key = Some PNone
        \/ data !! key = Some (PStr "") \/ data !! key = Some (PInt 0) ->
        truthy (dict_get data key) = false).
Proof.
  intros Hfalsy.
  assert (register_server t1 t2 data servers = (missing_fields_reply, servers))
    as Hreply.
  { unfold register_server. cbn [forallb].
    destruct Hfalsy as [-> | [-> | ->]]; cbn [andb negb];
      rewrite ?andb_false_r; done. }
  rewrite Hreply. cbn [fst]. split; [done|]. split; [done|].
  split; [apply replies_differ|].
  intros key Hkey. unfold dict_get.
  destruct Hkey as [-> | [-> | [-> | ->]]]; reflexivity.
Qed.

Lemma missing_fields_rejected_witness :
  register_server 5 6 (request "10.0.0.5" (PInt 0) "X") []
  = (missing_fields_reply, []).
Proof.
  assert (truthy (dict_get (request "10.0.0.5" (PInt 0) "X") "ip") = false
          \/ truthy (dict_get (request "10.0.0.5" (PInt 0) "X") "port") = false
          \/ truthy (dict_get (request "10.0.0.5" (PInt 0) "X") "name") = false)
    as Hfalsy.
  { right; left. reflexivity. }
  destruct (missing_fields_rejected 5 6 _ [] Hfalsy) as (Hreply & _).
  exact Hreply.
Defined.

(** ** The dispatcher *)

(** The servers found active by the probe of [process_distributed], the
    (server, chunk) pairs it hands to the worker threads, and the outcomes
    of their exchanges. *)
Definition active_at_dispatch (net : network) (st : sorter) : list ServerInfo :=
  get_active_servers
    (update_servers_status (now net) (is_server_alive net) (servers st)).2.

Definition jobs_of (net : network) (numbers : list Z) (st : sorter)
  : list (ServerInfo * list Z) :=
  let active_servers := active_at_dispatch net st in
  zip active_servers (make_chunks numbers (length active_servers)).

Fixpoint outcomes_from (io : nat -> ServerInfo -> list Z -> outcome)
    (idx : nat) (jobs : list (ServerInfo * list Z)) : list outcome :=
  match jobs with
  | [] => []
  | (s, c) :: jobs' => io idx s c :: outcomes_from io (S idx) jobs'
  end.

Definition outcomes (net : network) (numbers : list Z) (st : sorter)
  : list outcome :=
  outcomes_from (worker_io net) 0 (jobs_of net numbers st).

Definition reply_of (o : outcome) : option (list Z) :=
  match o with
  | Replied sorted_chunk _ => Some sorted_chunk
  | _ => None
  end.

(** The replies of the workers that succeeded, in worker order, and the
    number of workers that failed. *)
Definition replies (os : list outcome) : list (list Z) := omap reply_of os.

Definition failures (os : list outcome) : nat :=
  length (filter (fun o => succeeded o = false) os).

Fixpoint results_from (io : nat -> ServerInfo -> list Z -> outcome)
    (idx : nat) (jobs : list (ServerInfo * list Z)) : list ServerResult :=
  match jobs with
  | [] => []
  | (s, c) :: jobs' =>
      (send_chunk_to_server (io idx s c) s c []).1
        :: results_from io (S idx) jobs'
  end.

Lemma send_chunk_to_server_result o s c servers :
  (send_chunk_to_server o s c servers).1 = (send_chunk_to_server o s c []).1.
Proof. by destruct o. Qed.

(** Every worker fills its own slot of [results]; none is left [None]. *)
Lemma run_workers_results io jobs done_ servers :
  (run_workers io (length done_) jobs
     ((Some <$> done_) ++ replicate (length jobs) None) servers).1
  = Some <$> (done_ ++ results_from io (length done_) jobs).
Proof.
  revert done_ servers.
  induction jobs as [|[s c] jobs IH]; intros done_ servers.
  - cbn. by rewrite !app_nil_r.
  - cbn [run_workers results_from length replicate].
    destruct (send_chunk_to_server (io (length done_) s c) s c servers)
      as [result servers'] eqn:Hsend.
    assert (result = (send_chunk_to_server (io (length done_) s c) s c []).1)
      as Hresult.
    { rewrite <- (send_chunk_to_server_result _ _ _ servers). by rewrite Hsend. }
    replace (<[length done_ := Some result]>
               ((Some <$> done_) ++ None :: replicate (length jobs) None))
      with ((Some <$> (done_ ++ [result])) ++ replicate (length jobs) None).
    + replace (S (length done_)) with (length (done_ ++ [result]))
        by (rewrite length_app; cbn; lia).
      rewrite IH. rewrite <- Hresult, <- app_assoc. done.
    + rewrite fmap_app, <- app_assoc. cbn.
      rewrite (insert_app_r_alt (Some <$> done_)) by (by rewrite length_fmap).
      rewrite length_fmap, Nat.sub_diag. done.
Qed.

Lemma collect_results io idx jobs successful_results failed_servers errors :
  exists failed,
    collect (Some <$> results_from io idx jobs) successful_results
      failed_servers errors
    = (successful_results ++ replies (outcomes_from io idx jobs),
       failed_servers ++ failed,
       errors + failures (outcomes_from io idx jobs))
    /\ length failed = failures (outcomes_from io idx jobs).
Proof.
  revert idx successful_results failed_servers errors.
  induction jobs as [|[s c] jobs IH];
    intros idx successful_results failed_servers errors.
  - exists []. cbn. by rewrite !app_nil_r, Nat.add_0_r.
  - cbn [results_from outcomes_from fmap list_fmap collect].
    destruct (io idx s c) as [d t | e t t' | e t] eqn:Hio;
      cbn [send_chunk_to_server fst success data server];
      unfold replies, failures; cbn [omap list_omap reply_of];
      [ rewrite filter_cons_False by (cbn; congruence)
      | rewrite filter_cons_True by done
      | rewrite filter_cons_True by done ].
    + destruct (IH (S idx) (successful_results ++ [d]) failed_servers errors)
        as (failed & -> & Hlen).
      exists failed. by rewrite <- app_assoc.
    + destruct (IH (S idx) successful_results (failed_servers ++ [name s])
                  (S errors)) as (failed & -> & Hlen).
      exists (name s :: failed). split; [|cbn; by rewrite Hlen].
      rewrite <- app_assoc. cbn. do 2 f_equal. unfold failures. lia.
    + destruct (IH (S idx) successful_results (failed_servers ++ [name s])
                  (S errors)) as (failed & -> & Hlen).
      exists (name s :: failed). split; [|cbn; by rewrite Hlen].
      rewrite <- app_assoc. cbn. do 2 f_equal. unfold failures. lia.
Qed.

Lemma jobs_of_length net numbers st :
  length (jobs_of net numbers st) = length (active_at_dispatch net st).
Proof.
  unfold jobs_of. rewrite length_zip, make_chunks_length. lia.
Qed.

Lemma outcomes_from_length io idx jobs :
  length (outcomes_from io idx jobs) = length jobs.
Proof.
  revert idx. induction jobs as [|[s c] jobs IH]; intros idx; cbn; [done|].
  by rewrite IH.
Qed.

Lemma replies_failures os : length (replies os) + failures os = length os.
Proof.
  unfold replies, failures. induction os as [|o os IH]; [done|].
  destruct o; cbn [omap list_omap reply_of length].
  - rewrite filter_cons_False by (cbn; congruence). cbn. lia.
  - rewrite filter_cons_True by done. cbn. lia.
  - rewrite filter_cons_True by done. cbn. lia.
Qed.

(** The effect of the worker threads on the registry does not depend on
    the [results] array. *)
Fixpoint registry_after (io : nat -> ServerInfo -> list Z -> outcome)
    (idx : nat) (jobs : list (ServerInfo * list Z))
    (servers_ : list ServerInfo) : list ServerInfo :=
  match jobs with
  | [] => servers_
  | (s, c) :: jobs' =>
      registry_after io (S idx) jobs'
        (send_chunk_to_server (io idx s c) s c servers_).2
  end.

Lemma run_workers_registry io idx jobs results servers_ :
  (run_workers io idx jobs results servers_).2
  = registry_after io idx jobs servers_.
Proof.
  revert idx results servers_.
  induction jobs as [|[s c] jobs IH]; intros idx results servers_; [done|].
  cbn [run_workers registry_after].
  destruct (send_chunk_to_server (io idx s c) s c servers_) as [result servers'].
  apply IH.
Qed.

(** The names [process_distributed] collects in [failed_servers]. *)
Fixpoint failed_names (io : nat -> ServerInfo -> list Z -> outcome) (idx : nat)
    (jobs : list (ServerInfo * list Z)) : list pyval :=
  match jobs with
  | [] => []
  | (s, c) :: jobs' =>
      (if succeeded (io idx s c) then [] else [name s])
        ++ failed_names io (S idx) jobs'
  end.

Lemma failed_names_length io idx jobs :
  length (failed_names io idx jobs) = failures (outcomes_from io idx jobs).
Proof.
  revert idx. induction jobs as [|[s c] jobs IH]; intros idx; [done|].
  cbn [failed_names outcomes_from]. rewrite length_app, IH. unfold failures.
  destruct (succeeded (io idx s c)) eqn:Hio.
  - by rewrite filter_cons_False by (rewrite Hio; done).
  - by rewrite filter_cons_True by done.
Qed.

Lemma collect_results_names io idx jobs successful_results failed_servers
    errors :
  collect (Some <$> results_from io idx jobs) successful_results
    failed_servers errors
  = (successful_results ++ replies (outcomes_from io idx jobs),
     failed_servers ++ failed_names io idx jobs,
     errors + failures (outcomes_from io idx jobs)).
Proof.
  revert idx successful_results failed_servers errors.
  induction jobs as [|[s c] jobs IH];
    intros idx successful_results failed_servers errors.
  - cbn. by rewrite !app_nil_r, Nat.add_0_r.
  - cbn [results_from outcomes_from failed_names fmap list_fmap collect].
    destruct (io idx s c) as [d t | e t t' | e t] eqn:Hio;
      cbn [send_chunk_to_server fst success data server succeeded];
      unfold replies, failures; cbn [omap list_omap reply_of];
      [ rewrite filter_cons_False by (cbn; congruence)
      | rewrite filter_cons_True by done
      | rewrite filter_cons_True by done ];
      rewrite IH; unfold replies, failures; rewrite <- !app_assoc; cbn;
      do 2 f_equal; lia.
Qed.

(** [process_distributed] once the probe has found an active server: the
    state after the workers and the tally, then the join of the names of
    the failed servers, then the answer. *)
Lemma process_distributed_run net numbers st :
  active_at_dispatch net st <> [] ->
  let os := outcomes net numbers st in
  let servers1 :=
    (update_servers_status (now net) (is_server_alive net) (servers st)).2 in
  let st2 :=
    mkSorter
      (registry_after (worker_io net) 0 (jobs_of net numbers st) servers1)
      (set_total_errors (total_errors (stats st) + failures os)
         (add_numbers_sorted (length numbers) (stats st))) in
  let failed := failed_names (worker_io net) 0 (jobs_of net numbers st) in
  process_distributed net numbers st
  = if join_returns failed
    then
      match replies os with
      | [] => client_send (client_up net) false (MsgAllFailed failed) st2
      | _ :: _ =>
          client_send (client_up net) true
            (MsgSorted (merge_sorted_lists (replies os))) st2
      end
    else on_exception (client_up net) st2.
Proof.
  intros Hactive os servers1 st2 failed.
  pose proof (run_workers_results (worker_io net) (jobs_of net numbers st) []
                servers1) as Hres.
  pose proof (run_workers_registry (worker_io net) 0 (jobs_of net numbers st)
                (replicate (length (jobs_of net numbers st)) None) servers1)
    as Hreg.
  cbn [length fmap list_fmap app] in Hres.
  pose proof (collect_results_names (worker_io net) 0 (jobs_of net numbers st)
                [] []
                (total_errors (add_numbers_sorted (length numbers) (stats st))))
    as Hcollect.
  unfold process_distributed.
  change (update_servers_status (now net) (is_server_alive net) (servers st))
    with ((update_servers_status (now net) (is_server_alive net) (servers st)).1,
          servers1).
  cbn iota. change (get_active_servers servers1) with (active_at_dispatch net st).
  destruct (active_at_dispatch net st) as [|a rest] eqn:Ha; [done|].
  cbn iota. rewrite <- Ha.
  change (zip (active_at_dispatch net st)
            (make_chunks numbers (length (active_at_dispatch net st))))
    with (jobs_of net numbers st).
  rewrite <- (jobs_of_length net numbers st).
  destruct (run_workers (worker_io net) 0 (jobs_of net numbers st)
              (replicate (length (jobs_of net numbers st)) None) servers1)
    as [results servers2].
  cbn [fst snd] in Hres, Hreg. subst results servers2.
  rewrite Hcollect. cbn [app]. subst os failed. unfold outcomes.
  by destruct (replies _), (join_returns _).
Qed.

Lemma process_distributed_active net numbers st :
  active_at_dispatch net st <> [] ->
  let os := outcomes net numbers st in
  let servers1 :=
    (update_servers_status (now net) (is_server_alive net) (servers st)).2 in
  let st2 :=
    mkSorter
      (registry_after (worker_io net) 0 (jobs_of net numbers st) servers1)
      (set_total_errors (total_errors (stats st) + failures os)
         (add_numbers_sorted (length numbers) (stats st))) in
  exists failed,
    length failed = failures os
    /\ process_distributed net numbers st
       = if join_returns failed
         then
           match replies os with
           | [] => client_send (client_up net) false (MsgAllFailed failed) st2
           | _ :: _ =>
               client_send (client_up net) true
                 (MsgSorted (merge_sorted_lists (replies os))) st2
           end
         else on_exception (client_up net) st2.
Proof.
  intros Hactive os servers1 st2.
  exists (failed_names (worker_io net) 0 (jobs_of net numbers st)).
  split; [apply failed_names_length|].
  by apply process_distributed_run.
Qed.

(** *** The registry during a job

    The worker threads never add, remove or rename a record, and never set
    [active] back to true. *)
Definition decays : list ServerInfo -> list ServerInfo -> Prop :=
  Forall2 (fun r r' =>
             ip r = ip r' /\ port r = port r' /\ name r = name r'
             /\ (active r = false -> active r' = false)).

Lemma decays_refl l : decays l l.
Proof. induction l; constructor; [by repeat split | done]. Qed.

Lemma decays_trans a b c : decays a b -> decays b c -> decays a c.
Proof.
  intros Hab. revert c. induction Hab as [|x y a b Hxy Hab IH]; intros c Hbc.
  - inversion Hbc. constructor.
  - inversion Hbc as [|? z ? c' Hyz Hbc']; subst. constructor; [|by apply IH].
    destruct Hxy as (? & ? & ? & ?), Hyz as (? & ? & ? & ?).
    repeat split; try congruence. auto.
Qed.

Lemma update_server_stats_decays ip_ port_ t n l :
  decays l (update_server_stats ip_ port_ t n l).
Proof.
  induction l as [|r l IH]; cbn; [constructor|].
  destruct (has_address ip_ port_ r); constructor;
    try done; try apply decays_refl.
Qed.

Lemma mark_server_inactive_decays ip_ port_ l :
  decays l (mark_server_inactive ip_ port_ l).
Proof.
  induction l as [|r l IH]; cbn; [constructor|].
  destruct (has_address ip_ port_ r); constructor;
    try done; try apply decays_refl.
Qed.

Lemma send_chunk_to_server_decays o s c l :
  decays l (send_chunk_to_server o s c l).2.
Proof.
  destruct o; cbn [send_chunk_to_server snd].
  - apply update_server_stats_decays.
  - eapply decays_trans; [apply update_server_stats_decays|].
    apply mark_server_inactive_decays.
  - apply mark_server_inactive_decays.
Qed.

Lemma registry_after_decays io idx jobs l :
  decays l (registry_after io idx jobs l).
Proof.
  revert idx l. induction jobs as [|[s c] jobs IH]; intros idx l; cbn.
  - apply decays_refl.
  - eapply decays_trans; [apply send_chunk_to_server_decays | apply IH].
Qed.

Lemma decays_lookup a b p r :
  decays a b -> a !! p = Some r ->
  exists r', b !! p = Some r' /\ ip r = ip r' /\ port r = port r'
             /\ name r = name r' /\ (active r = false -> active r' = false).
Proof.
  intros Hab Hp. destruct (Forall2_lookup_l _ _ _ _ _ Hab Hp) as (r' & Hr' & H).
  exists r'. by split.
Qed.

Lemma decays_lookup_r a b p r' :
  decays a b -> b !! p = Some r' ->
  exists r, a !! p = Some r /\ ip r = ip r' /\ port r = port r'.
Proof.
  intros Hab Hp. destruct (Forall2_lookup_r _ _ _ _ _ Hab Hp) as (r & Hr & H).
  exists r. split; [done|]. by destruct H as (? & ? & _).
Qed.

Lemma unique_addresses_lookup l i j r1 r2 :
  unique_addresses l -> l !! i = Some r1 -> l !! j = Some r2 ->
  has_address (ip r1) (port r1) r2 = true -> i = j.
Proof.
  intros Hu. revert i j. induction Hu as [|r l Hr Hu IH]; intros i j Hi Hj Hsame.
  - done.
  - rewrite Forall_forall in Hr.
    destruct i as [|i], j as [|j]; cbn in Hi, Hj.
    + done.
    + injection Hi as ->. apply list_elem_of_lookup_2 in Hj.
      by rewrite (Hr _ Hj) in Hsame.
    + injection Hj as ->. apply list_elem_of_lookup_2 in Hi.
      rewrite has_address_sym in Hsame. by rewrite (Hr _ Hi) in Hsame.
    + f_equal. by eapply IH.
Qed.

(** [mark_server_inactive] reaches the record of the failed server itself:
    no earlier record has its address. *)
Lemma mark_server_inactive_lookup base l p s :
  unique_addresses base -> decays base l -> base !! p = Some s ->
  exists r, mark_server_inactive (ip s) (port s) l !! p = Some r
            /\ active r = false.
Proof.
  intros Hu Hd. revert p. induction Hd as [|b x base l Hbx Hd IH]; intros p Hp.
  - done.
  - inversion Hu as [|? ? Hb Hu']; subst.
    destruct Hbx as (Hip & Hport & _ & _). cbn [mark_server_inactive].
    destruct p as [|p]; cbn in Hp.
    + injection Hp as ->.
      assert (has_address (ip s) (port s) x = true) as ->.
      { unfold has_address. rewrite <- Hip, <- Hport. apply has_address_self. }
      eexists. split; [reflexivity | done].
    + assert (has_address (ip s) (port s) x = false) as ->.
      { unfold has_address. rewrite <- Hip, <- Hport.
        change (has_address (ip s) (port s) b = false).
        rewrite has_address_sym. rewrite Forall_forall in Hb. apply Hb.
        by eapply list_elem_of_lookup_2. }
      cbn. by apply IH.
Qed.

Lemma outcomes_from_lookup io idx jobs k s c :
  jobs !! k = Some (s, c) ->
  outcomes_from io idx jobs !! k = Some (io (idx + k) s c).
Proof.
  revert idx k. induction jobs as [|[s' c'] jobs IH]; intros idx k Hk; [done|].
  destruct k as [|k]; cbn [outcomes_from lookup list_lookup] in *.
  - injection Hk as -> ->. by rewrite Nat.add_0_r.
  - replace (idx + S k) with (S idx + k) by lia. by apply IH.
Qed.

(** A server whose exchange failed ends the job inactive. *)
Lemma registry_after_failed io base idx jobs l k s c p :
  unique_addresses base -> decays base l ->
  jobs !! k = Some (s, c) -> succeeded (io (idx + k) s c) = false ->
  base !! p = Some s ->
  exists r, registry_after io idx jobs l !! p = Some r /\ active r = false.
Proof.
  intros Hu. revert idx l k.
  induction jobs as [|[s' c'] jobs IH]; intros idx l k Hd Hk Hfail Hp; [done|].
  cbn [registry_after].
  pose proof (send_chunk_to_server_decays (io idx s' c') s' c' l) as Hstep.
  destruct k as [|k]; cbn in Hk.
  - injection Hk as -> ->. rewrite Nat.add_0_r in Hfail.
    assert (exists r, (send_chunk_to_server (io idx s c) s c l).2 !! p = Some r
                      /\ active r = false) as (r & Hr & Hinactive).
    { destruct (io idx s c); [done| |]; cbn [send_chunk_to_server snd].
      - eapply mark_server_inactive_lookup; [done| |done].
        eapply decays_trans; [done | apply update_server_stats_decays].
      - by eapply mark_server_inactive_lookup. }
    destruct (decays_lookup _ _ _ _
                (registry_after_decays io (S idx) jobs _) Hr)
      as (r' & Hr' & _ & _ & _ & Hstay).
    exists r'. split; [done | by apply Hstay].
  - apply (IH (S idx) _ k); try done.
    + by eapply decays_trans.
    + by replace (S idx + k) with (idx + S k) by lia.
Qed.

(** *** Sort correctness *)

(** An honest worker that succeeds: it replies with a sorted permutation of
    the chunk it was sent. *)
Definition honest (o : outcome) (chunk : list Z) : Prop :=
  exists sorted_chunk elapsed,
    o = Replied sorted_chunk elapsed
    /\ Sorted Z.le sorted_chunk /\ sorted_chunk ≡ₚ chunk.

Lemma honest_replies io idx jobs :
  (forall k s c, jobs !! k = Some (s, c) -> honest (io (idx + k) s c) c) ->
  Forall (Sorted Z.le) (replies (outcomes_from io idx jobs))
  /\ concat (replies (outcomes_from io idx jobs)) ≡ₚ concat (jobs.*2)
  /\ length (replies (outcomes_from io idx jobs)) = length jobs.
Proof.
  revert idx. induction jobs as [|[s c] jobs IH]; intros idx Hhonest.
  - by repeat split.
  - destruct (Hhonest 0 s c eq_refl) as (d & t & Hio & Hsorted & Hperm).
    rewrite Nat.add_0_r in Hio.
    destruct (IH (S idx)) as (IH1 & IH2 & IH3).
    { intros k s' c' Hk. replace (S idx + k) with (idx + S k) by lia.
      by apply Hhonest. }
    cbn [outcomes_from]. rewrite Hio. unfold replies in *.
    cbn [omap list_omap reply_of fmap list_fmap concat length snd].
    split; [by constructor|]. split; [by rewrite Hperm, IH2 | by rewrite IH3].
Qed.

(** C1.  For every input and every number [W >= 1] of active workers that
    are honest and all succeed, the dispatcher returns true and the output
    it sends to the client (the k-way merge of the replies) is
    non-decreasing and a permutation of the input, provided the client
    socket takes the reply. *)
Theorem dispatch_sorts (net : network) (numbers : list Z) (st : sorter)
    (W : nat) :
  client_up net = true ->
  length (active_at_dispatch net st) = W -> 1 <= W ->
  (forall k s c,
     jobs_of net numbers st !! k = Some (s, c) ->
     honest (worker_io net k s c) c) ->
  exists output st',
    process_distributed net numbers st = (true, [MsgSorted output], st')
    /\ Sorted Z.le output /\ output ≡ₚ numbers.
Proof.
  intros Hup HW H1 Hhonest.
  assert (active_at_dispatch net st <> []) as Hactive.
  { intros Hnil. rewrite Hnil in HW. cbn in HW. lia. }
  destruct (process_distributed_active net numbers st Hactive)
    as (failed & Hfailed & Hrun).
  destruct (honest_replies (worker_io net) 0 (jobs_of net numbers st) Hhonest)
    as (Hsorted & Hperm & Hlen).
  fold (outcomes net numbers st) in Hsorted, Hperm, Hlen.
  pose proof (replies_failures (outcomes net numbers st)) as Hcount.
  unfold outcomes in Hcount at 3. rewrite outcomes_from_length in Hcount.
  assert (failed = []) as -> by (apply nil_length_inv; lia).
  rewrite jobs_of_length, HW in Hlen.
  destruct (replies (outcomes net numbers st)) as [|r rs] eqn:Hreplies.
  { cbn in Hlen. lia. }
  rewrite Hup in Hrun. cbn [client_send join_returns forallb] in Hrun.
  eexists _, _. split; [exact Hrun|].
  split; [by apply merge_sorted_lists_sorted|].
  rewrite merge_sorted_lists_perm, Hperm.
  unfold jobs_of. rewrite snd_zip by (rewrite make_chunks_length; lia).
  rewrite make_chunks_concat by lia. done.
Qed.

Lemma sorting_io_honest idx s chunk : honest (sorting_io idx s chunk) chunk.
Proof.
  exists (merge_sort Z.le chunk), 1%Z. split; [done|]. split.
  - apply Sorted_merge_sort. intros x y. apply Z.le_ge_cases.
  - apply merge_sort_Permutation.
Qed.

Lemma dispatch_sorts_witness :
  exists output st',
    process_distributed (mkNetwork 100 all_alive sorting_io true)
      [9; 2; 7; 1; 8; 3]%Z fleet
    = (true, [MsgSorted output], st')
    /\ Sorted Z.le output /\ output ≡ₚ [9; 2; 7; 1; 8; 3]%Z.
Proof.
  apply (dispatch_sorts (mkNetwork 100 all_alive sorting_io true)
           [9; 2; 7; 1; 8; 3]%Z fleet 3).
  - reflexivity.
  - reflexivity.
  - lia.
  - intros k s c _. apply sorting_io_honest.
Defined.

(** *** Failure isolation *)

Lemma jobs_of_server net numbers st k s c :
  jobs_of net numbers st !! k = Some (s, c) ->
  exists p,
    (update_servers_status (now net) (is_server_alive net) (servers st)).2 !! p
    = Some s.
Proof.
  unfold jobs_of. intros Hk.
  apply lookup_zip_with_Some in Hk as (s' & c' & [= <- <-] & Hs & _).
  apply list_elem_of_lookup_2 in Hs. unfold active_at_dispatch in Hs.
  apply list_elem_of_filter in Hs as [_ Hs].
  by apply list_elem_of_lookup_1.
Qed.

(** [', '.join(failed_servers)] returns when the name of every worker that
    failed is a [str]. *)
Lemma join_returns_failed io idx jobs :
  join_returns (failed_names io idx jobs) = true
  <-> (forall k s c,
         jobs !! k = Some (s, c) -> succeeded (io (idx + k) s c) = false ->
         is_str (name s) = true).
Proof.
  unfold join_returns. revert idx.
  induction jobs as [|[s c] jobs IH]; intros idx; [done|].
  cbn [failed_names]. rewrite forallb_app, andb_true_iff, IH. split.
  - intros [Hhead Htail] [|k] s' c' Hk Hfail; cbn in Hk.
    + injection Hk as <- <-. rewrite Nat.add_0_r in Hfail.
      rewrite Hfail in Hhead. cbn in Hhead. by rewrite andb_true_r in Hhead.
    + apply (Htail k s' c' Hk). by replace (S idx + k) with (idx + S k) by lia.
  - intros Hall. split.
    + destruct (succeeded (io idx s c)) eqn:Hio; [done|].
      cbn. rewrite andb_true_r. apply (Hall 0 s c eq_refl).
      by rewrite Nat.add_0_r.
    + intros k s' c' Hk Hfail. apply (Hall (S k) s' c' Hk).
      by replace (idx + S k) with (S idx + k) by lia.
Qed.

(** The fleet after its second worker registered again, with the number 5
    as its name: [register_server] takes any truthy name. *)
Definition renamed_fleet : sorter :=
  mkSorter
    (register_server 1 2
       {[ "action" := PStr "register"; "ip" := PStr "10.0.0.1";
          "port" := PInt 9002; "name" := PInt 5 ]}
       (servers fleet)).2
    (stats fleet).

(** C7: the code at the failing input.  Of three active workers the second,
    registered under the name 5, fails and the two others reply: the call
    returns false, the client gets the error of the exception and
    [total_errors] has grown by two, because the warning about the partial
    failure joins the names of the failed servers and [', '.join] raises
    [TypeError] on a name that is not a [str].  In general, with [F] of
    the [W] active workers failing, [0 < F < W]: when the names of the
    failed workers are strings the call returns true, sends the merge of
    the [W - F] replies (a permutation of them put together, sorted when
    they are) and [total_errors] has grown by [F]; when one of them is not
    a string it returns false, sends the error and [total_errors] has grown
    by [F + 1].  Either way the registry holds the record of every failed
    worker with [active = false]. *)
Theorem failure_isolation :
  let job := mkNetwork 100 all_alive second_down_io true in
  let input := [9; 2; 7; 1; 8; 3]%Z in
  (name <$> servers renamed_fleet = [PStr "W1"; PInt 5; PStr "W3"]
   /\ replies (outcomes job input renamed_fleet) = [[2; 9]; [3; 8]]%Z
   /\ failures (outcomes job input renamed_fleet) = 1
   /\ (process_distributed job input renamed_fleet).1 = (false, [MsgError])
   /\ total_errors (stats (process_distributed job input renamed_fleet).2)
      = total_errors (stats renamed_fleet) + 2)
  /\ (process_distributed job input fleet).1
     = (true, [MsgSorted [2; 3; 8; 9]%Z])
  /\ (forall (net : network) (numbers : list Z) (st : sorter) (W F : nat),
        client_up net = true ->
        unique_addresses (servers st) ->
        length (active_at_dispatch net st) = W ->
        failures (outcomes net numbers st) = F ->
        0 < F < W ->
        let os := outcomes net numbers st in
        let failed := failed_names (worker_io net) 0 (jobs_of net numbers st) in
        (join_returns failed = true
         <-> (forall k s c,
                jobs_of net numbers st !! k = Some (s, c) ->
                succeeded (worker_io net k s c) = false ->
                is_str (name s) = true))
        /\ length (replies os) = W - F
        /\ merge_sorted_lists (replies os) ≡ₚ concat (replies os)
        /\ (Forall (Sorted Z.le) (replies os) ->
            Sorted Z.le (merge_sorted_lists (replies os)))
        /\ exists st',
             process_distributed net numbers st
             = (if join_returns failed
                then (true, [MsgSorted (merge_sorted_lists (replies os))], st')
                else (false, [MsgError], st'))
             /\ total_errors (stats st')
                = total_errors (stats st) + F
                  + (if join_returns failed then 0 else 1)
             /\ (forall k s c,
                   jobs_of net numbers st !! k = Some (s, c) ->
                   succeeded (worker_io net k s c) = false ->
                   (exists r, r ∈ servers st' /\ ip r = ip s
                              /\ port r = port s /\ name r = name s
                              /\ active r = false)
                   /\ (forall r, r ∈ servers st' ->
                         has_address (ip s) (port s) r = true ->
                         active r = false))).
Proof.
  intros job input. split; [|split].
  - repeat split; vm_compute; reflexivity.
  - vm_compute. reflexivity.
  - intros net numbers st W F Hup Hunique HW HF HFW os failed.
    assert (active_at_dispatch net st <> []) as Hactive.
    { intros Hnil. rewrite Hnil in HW. cbn in HW. lia. }
    subst os failed.
    pose proof (process_distributed_run net numbers st Hactive) as Hrun.
    cbv zeta in Hrun.
    pose proof (replies_failures (outcomes net numbers st)) as Hcount.
    unfold outcomes in Hcount at 3.
    rewrite outcomes_from_length, jobs_of_length, HW, HF in Hcount.
    rewrite HF in Hrun.
    set (failed := failed_names (worker_io net) 0 (jobs_of net numbers st))
      in *.
    split.
    { unfold failed.
      rewrite (join_returns_failed (worker_io net) 0 (jobs_of net numbers st)).
      done. }
    split; [lia|]. split; [apply merge_sorted_lists_perm|].
    split; [apply merge_sorted_lists_sorted|].
    destruct (replies (outcomes net numbers st)) as [|r0 rs] eqn:Hreplies.
    { cbn in Hcount. lia. }
    rewrite Hup in Hrun. cbn [client_send on_exception] in Hrun.
    set (base := (update_servers_status (now net) (is_server_alive net)
                    (servers st)).2) in *.
    set (final := registry_after (worker_io net) 0 (jobs_of net numbers st)
                    base) in *.
    assert (forall k s c,
              jobs_of net numbers st !! k = Some (s, c) ->
              succeeded (worker_io net k s c) = false ->
              (exists r, r ∈ final /\ ip r = ip s /\ port r = port s
                         /\ name r = name s /\ active r = false)
              /\ (forall r, r ∈ final ->
                    has_address (ip s) (port s) r = true -> active r = false))
      as Hinactive.
    { assert (unique_addresses base) as Hbase.
      { eapply same_addresses_unique; [|exact Hunique].
        apply update_servers_status_addresses. }
      assert (decays base final) as Hdecays by apply registry_after_decays.
      intros k s c Hk Hfail.
      destruct (jobs_of_server _ _ _ _ _ _ Hk) as (p & Hp). fold base in Hp.
      destruct (registry_after_failed (worker_io net) base 0
                  (jobs_of net numbers st) base k s c p Hbase (decays_refl _)
                  Hk Hfail Hp) as (r & Hr & Hoff).
      fold final in Hr.
      destruct (decays_lookup _ _ _ _ Hdecays Hp)
        as (r' & Hr' & Hip & Hport & Hname & _).
      rewrite Hr in Hr'. injection Hr' as <-.
      split.
      - exists r. split; [by eapply list_elem_of_lookup_2|]. by repeat split.
      - intros x Hx Hsame. apply list_elem_of_lookup_1 in Hx as (q & Hq).
        destruct (decays_lookup_r _ _ _ _ Hdecays Hq)
          as (b & Hb & Hbip & Hbport).
        assert (p = q) as ->.
        { eapply (unique_addresses_lookup base); [done..|].
          unfold has_address in *. by rewrite Hbip, Hbport. }
        rewrite Hr in Hq. by injection Hq as <-. }
    destruct (join_returns failed); eexists; (split; [exact Hrun|]);
      (split; [cbn; lia | exact Hinactive]).
Qed.

(** ** The worker threads in any order

    The threads take the registry lock once per call of
    [update_server_stats] and [mark_server_inactive].  Whatever the order in
    which these calls get the lock, every server whose exchange failed ends
    up inactive. *)
Inductive registry_action : Type :=
| ActUpdateStats (ip_ port_ : pyval) (elapsed : Z) (items : nat)
| ActMarkInactive (ip_ port_ : pyval).

Definition apply_action (a : registry_action) (servers_ : list ServerInfo)
  : list ServerInfo :=
  match a with
  | ActUpdateStats ip_ port_ elapsed items =>
      update_server_stats ip_ port_ elapsed items servers_
  | ActMarkInactive ip_ port_ => mark_server_inactive ip_ port_ servers_
  end.

Definition apply_actions (acts : list registry_action)
    (servers_ : list ServerInfo) : list ServerInfo :=
  foldl (fun l a => apply_action a l) servers_ acts.

(** The registry calls of one [send_chunk_to_server], in program order. *)
Definition worker_actions (o : outcome) (s : ServerInfo) (c : list Z)
  : list registry_action :=
  match o with
  | Replied _ elapsed => [ActUpdateStats (ip s) (port s) elapsed (length c)]
  | FailedAfterReply _ elapsed _ =>
      [ActUpdateStats (ip s) (port s) elapsed (length c);
       ActMarkInactive (ip s) (port s)]
  | FailedTransport _ _ => [ActMarkInactive (ip s) (port s)]
  end.

Fixpoint job_actions (io : nat -> ServerInfo -> list Z -> outcome) (idx : nat)
    (jobs : list (ServerInfo * list Z)) : list registry_action :=
  match jobs with
  | [] => []
  | (s, c) :: jobs' =>
      worker_actions (io idx s c) s c ++ job_actions io (S idx) jobs'
  end.

Lemma registry_after_actions io idx jobs servers_ :
  registry_after io idx jobs servers_
  = apply_actions (job_actions io idx jobs) servers_.
Proof.
  revert idx servers_.
  induction jobs as [|[s c] jobs IH]; intros idx servers_; [done|].
  cbn [registry_after job_actions]. unfold apply_actions.
  rewrite foldl_app. fold (apply_actions (job_actions io (S idx) jobs)).
  rewrite IH. f_equal. by destruct (io idx s c).
Qed.

Lemma apply_actions_decays acts servers_ :
  decays servers_ (apply_actions acts servers_).
Proof.
  revert servers_. induction acts as [|a acts IH]; intros servers_; cbn.
  - apply decays_refl.
  - eapply decays_trans; [|apply IH].
    destruct a; [apply update_server_stats_decays
                | apply mark_server_inactive_decays].
Qed.

Lemma failed_job_marks io idx jobs k s c :
  jobs !! k = Some (s, c) -> succeeded (io (idx + k) s c) = false ->
  ActMarkInactive (ip s) (port s) ∈ job_actions io idx jobs.
Proof.
  revert idx k. induction jobs as [|[s' c'] jobs IH]; intros idx k Hk Hfail.
  - done.
  - cbn [job_actions]. apply elem_of_app. destruct k as [|k]; cbn in Hk.
    + injection Hk as -> ->. rewrite Nat.add_0_r in Hfail. left.
      destruct (io idx s c); [done | right; left | left].
    + right. apply (IH (S idx) k Hk).
      by replace (S idx + k) with (idx + S k) by lia.
Qed.

Lemma failed_inactive_any_schedule io base jobs schedule k s c p :
  unique_addresses base ->
  schedule ≡ₚ job_actions io 0 jobs ->
  jobs !! k = Some (s, c) -> succeeded (io k s c) = false ->
  base !! p = Some s ->
  exists r, apply_actions schedule base !! p = Some r
            /\ active r = false
            /\ ip r = ip s /\ port r = port s /\ name r = name s.
Proof.
  intros Hu Hsched Hk Hfail Hp.
  pose proof (failed_job_marks io 0 jobs k s c Hk Hfail) as Hin.
  rewrite <- Hsched in Hin.
  apply list_elem_of_split in Hin as (before & after & ->).
  unfold apply_actions. rewrite foldl_app. cbn [foldl apply_action].
  fold (apply_actions before base).
  fold (apply_actions after
          (mark_server_inactive (ip s) (port s) (apply_actions before base))).
  destruct (mark_server_inactive_lookup base (apply_actions before base) p s
              Hu (apply_actions_decays _ _) Hp) as (r & Hr & Hinactive).
  destruct (decays_lookup _ _ _ _ (apply_actions_decays after _) Hr)
    as (r' & Hr' & _ & _ & _ & Hstay).
  exists r'. split; [done|]. split; [by apply Hstay|].
  pose proof (decays_trans _ _ _
                (decays_trans _ _ _ (apply_actions_decays before base)
                   (mark_server_inactive_decays (ip s) (port s) _))
                (apply_actions_decays after _)) as Hall.
  destruct (decays_lookup _ _ _ _ Hall Hp) as (r'' & Hr'' & ? & ? & ? & _).
  rewrite Hr' in Hr''. injection Hr'' as <-. by repeat split.
Qed.

(** *** The [numbers_sorted] counter *)

Lemma all_failed_no_reply io idx jobs :
  (forall k s c, jobs !! k = Some (s, c) ->
                 succeeded (io (idx + k) s c) = false) ->
  replies (outcomes_from io idx jobs) = [].
Proof.
  revert idx. induction jobs as [|[s c] jobs IH]; intros idx Hfail; [done|].
  cbn [outcomes_from]. unfold replies in *. cbn [omap list_omap].
  pose proof (Hfail 0 s c eq_refl) as Hhead. rewrite Nat.add_0_r in Hhead.
  destruct (io idx s c); [done| |]; cbn [reply_of]; apply IH;
    intros k s' c' Hk; replace (S idx + k) with (idx + S k) by lia;
    by apply Hfail.
Qed.

(** C9.  When the probe finds an active server, [numbers_sorted] grows by
    the length of the input whatever the workers then do and whether or not
    the client can be answered; when every worker fails the call returns
    false and the counter has grown all the same. *)
Theorem numbers_sorted_counts_attempts (net : network) (numbers : list Z)
    (st : sorter) :
  active_at_dispatch net st <> [] ->
  numbers_sorted (stats (process_distributed net numbers st).2)
  = numbers_sorted (stats st) + length numbers
  /\ ((forall k s c,
         jobs_of net numbers st !! k = Some (s, c) ->
         succeeded (worker_io net k s c) = false) ->
      (process_distributed net numbers st).1.1 = false
      /\ numbers_sorted (stats (process_distributed net numbers st).2)
         = numbers_sorted (stats st) + length numbers).
Proof.
  intros Hactive.
  destruct (process_distributed_active net numbers st Hactive)
    as (failed & _ & Hrun).
  assert (numbers_sorted (stats (process_distributed net numbers st).2)
          = numbers_sorted (stats st) + length numbers) as Hcount.
  { rewrite Hrun.
    destruct (join_returns failed), (replies (outcomes net numbers st)),
      (client_up net); reflexivity. }
  split; [exact Hcount|]. intros Hfail. split; [|exact Hcount].
  rewrite Hrun. unfold outcomes.
  rewrite (all_failed_no_reply (worker_io net) 0 _ Hfail).
  by destruct (join_returns failed), (client_up net).
Qed.

Lemma numbers_sorted_counts_attempts_witness :
  (process_distributed (mkNetwork 100 all_alive all_down_io true)
     [9; 2; 7; 1; 8; 3]%Z fleet).1.1 = false
  /\ numbers_sorted
       (stats (process_distributed (mkNetwork 100 all_alive all_down_io true)
                 [9; 2; 7; 1; 8; 3]%Z fleet).2)
     = numbers_sorted (stats fleet) + 6.
Proof.
  assert (active_at_dispatch (mkNetwork 100 all_alive all_down_io true) fleet
          <> []) as Hactive by (vm_compute; discriminate).
  destruct (numbers_sorted_counts_attempts
              (mkNetwork 100 all_alive all_down_io true)
              [9; 2; 7; 1; 8; 3]%Z fleet Hactive) as (_ & Hfail).
  apply Hfail. intros k s c _. reflexivity.
Defined.

(** ** The job counters *)

(** The arguments with which [handle_distributed_sort] calls
    [process_distributed], when it gets that far: the client socket is up,
    the probe counted an active server and the upload decoded to a list. *)
Definition dispatch_input (s : session) (h : ClientHandler)
  : option (list Z * sorter) :=
  let st := distributed_sorter h in
  let '((active_count, _), servers1) :=
    update_servers_status (s_now s) (s_is_server_alive s) (servers st) in
  if s_client_up s && negb (active_count =? 0)
  then
    match s_upload s with
    | UploadBody bytes_received (BodyList numbers) =>
        Some (numbers,
              mkSorter servers1 (add_bytes_processed bytes_received (stats st)))
    | _ => None
    end
  else None.

(** The states of a [ClientHandler]: it starts with both counters at 0;
    sessions that sort go through [handle_distributed_sort]; everything else
    (registrations, the LIST banner, the monitor) only touches the registry
    and the statistics of the sorter. *)
Inductive reachable_handler : ClientHandler -> Prop :=
| handler_init st : reachable_handler (mkClientHandler st 0 0)
| handler_sort s h :
    reachable_handler h -> reachable_handler (handle_distributed_sort s h).2
| handler_other st h : reachable_handler h -> reachable_handler (with_sorter st h).

Lemma handle_distributed_sort_counters s h :
  let h' := (handle_distributed_sort s h).2 in
  match dispatch_input s h with
  | Some (numbers, st) =>
      let success_ := (process_distributed (s_dispatch s) numbers st).1.1 in
      total_operations h' = S (total_operations h)
      /\ successful_operations h'
         = successful_operations h + (if success_ then 1 else 0)
  | None =>
      total_operations h' = total_operations h
      /\ successful_operations h' = successful_operations h
  end.
Proof.
  unfold handle_distributed_sort, dispatch_input.
  cbn [update_servers_status].
  destruct (s_client_up s); cbn [negb andb]; [|done].
  destruct (_ =? 0); cbn [negb]; [done|].
  destruct (s_upload s) as [| | | |bytes_received [| |numbers]]; try done.
  cbn [with_sorter distributed_sorter total_operations successful_operations].
  destruct (process_distributed _ _ _) as [[success_ msgs] st'].
  cbn [fst snd]. destruct success_; cbn; split; lia.
Qed.

Lemma reachable_handler_invariant h :
  reachable_handler h -> successful_operations h <= total_operations h.
Proof.
  induction 1 as [st | s h _ IH | st h _ IH]; [done| |done].
  pose proof (handle_distributed_sort_counters s h) as Hstep. cbn zeta in Hstep.
  destruct (dispatch_input s h) as [[numbers st]|].
  - destruct Hstep as [-> ->].
    destruct (process_distributed _ _ _).1.1; lia.
  - destruct Hstep as [-> ->]. done.
Qed.

(** C8.  A session in which the dispatcher is invoked adds exactly one to
    [total_operations], whatever the dispatcher returns, and one to
    [successful_operations] exactly when it returns true; any other session
    leaves both unchanged.  So in every state of the handler, and between
    the two increments, [successful_operations <= total_operations], and
    neither counter ever decreases. *)
Theorem dispatch_counters (s : session) (h : ClientHandler) :
  reachable_handler h ->
  let h' := (handle_distributed_sort s h).2 in
  match dispatch_input s h with
  | Some (numbers, st) =>
      let success_ := (process_distributed (s_dispatch s) numbers st).1.1 in
      total_operations h' = total_operations h + 1
      /\ successful_operations h'
         = successful_operations h + (if success_ then 1 else 0)
  | None =>
      total_operations h' = total_operations h
      /\ successful_operations h' = successful_operations h
  end
  /\ successful_operations h <= total_operations h
  /\ successful_operations (incr_total h) <= total_operations (incr_total h)
  /\ successful_operations h' <= total_operations h'
  /\ total_operations h <= total_operations h'
  /\ successful_operations h <= successful_operations h'.
Proof.
  intros Hreach h'.
  pose proof (reachable_handler_invariant h Hreach) as Hinv.
  pose proof (reachable_handler_invariant h' (handler_sort s h Hreach)) as Hinv'.
  pose proof (handle_distributed_sort_counters s h) as Hstep.
  cbn zeta in Hstep. fold h' in Hstep.
  destruct (dispatch_input s h) as [[numbers st]|].
  - destruct Hstep as [Htotal Hsucc].
    repeat split; try done; try (cbn; lia).
  - destruct Hstep as [Htotal Hsucc]. repeat split; try done; cbn; lia.
Qed.

Lemma dispatch_counters_witness :
  total_operations
    (handle_distributed_sort (sort_session all_down_io)
       (mkClientHandler fleet 0 0)).2
  = 0 + 1
  /\ successful_operations
       (handle_distributed_sort (sort_session all_down_io)
          (mkClientHandler fleet 0 0)).2
     <= total_operations
          (handle_distributed_sort (sort_session all_down_io)
             (mkClientHandler fleet 0 0)).2.
Proof.
  pose proof (dispatch_counters (sort_session all_down_io)
                (mkClientHandler fleet 0 0) (handler_init fleet)) as Hthm.
  cbn zeta in Hthm. destruct Hthm as (Hstep & _ & _ & Hinv & _).
  split; [|exact Hinv].
  set (input := dispatch_input _ _) in Hstep. vm_compute in input.
  subst input. cbn beta iota in Hstep. destruct Hstep as [Htotal _].
  exact Htotal.
Defined.

(** * More of the code

    Properties of the same functions that the claims above do not state,
    the framing loops, the rest of [client_handler.py] and the monitor of
    [middleware.py]. *)

(** ** Partitioning: the sizes of the chunks *)

Lemma slice_length {A} (a b : nat) (l : list A) :
  length (slice a b l) = (b - a) `min` (length l - a).
Proof. unfold slice. by rewrite length_take, length_drop. Qed.

Lemma make_chunks_lookup numbers c i :
  i < c ->
  make_chunks numbers c !! i
  = Some (slice (i * Nat.max 1 (length numbers / c))
            (if bool_decide (i < c - 1)
             then i * Nat.max 1 (length numbers / c)
                  + Nat.max 1 (length numbers / c)
             else length numbers)
            numbers).
Proof.
  intros Hi. unfold make_chunks. rewrite list_lookup_fmap.
  by rewrite lookup_seq_lt by done.
Qed.

(** X1.  With fewer numbers than active servers every number goes alone to
    one of the first servers and the remaining servers get an empty chunk:
    they are still contacted, with [[]]. *)
Theorem make_chunks_short (numbers : list Z) (c : nat) :
  length numbers < c ->
  make_chunks numbers c
  = ((fun x => [x]) <$> numbers) ++ replicate (c - length numbers) [].
Proof.
  intros Hshort.
  assert (Nat.max 1 (length numbers / c) = 1) as Hchunk.
  { rewrite Nat.div_small by done. done. }
  apply list_eq. intros i.
  destruct (decide (i < c)) as [Hi|Hi].
  - rewrite (make_chunks_lookup _ _ _ Hi), Hchunk, Nat.mul_1_r.
    destruct (decide (i < length numbers)) as [Hin|Hout].
    + rewrite lookup_app_l by (by rewrite length_fmap).
      rewrite list_lookup_fmap.
      destruct (lookup_lt_is_Some_2 numbers i Hin) as [x Hx].
      rewrite Hx. cbn. f_equal. rewrite bool_decide_true by lia.
      unfold slice. rewrite (drop_S _ _ _ Hx).
      by replace (i + 1 - i) with 1 by lia.
    + rewrite lookup_app_r by (rewrite length_fmap; lia).
      rewrite lookup_replicate_2 by (rewrite length_fmap; lia).
      f_equal. unfold slice. rewrite drop_ge by lia. by rewrite take_nil.
  - rewrite !lookup_ge_None_2; [done | |].
    + rewrite length_app, length_fmap, length_replicate. lia.
    + rewrite make_chunks_length. lia.
Qed.

(** X2.  With at least as many numbers as active servers no chunk is empty:
    every chunk but the last has exactly [n / c] numbers and the last one
    has the [n / c] of its share plus the [n mod c] left over. *)
Theorem make_chunks_sizes (numbers : list Z) (c : nat) :
  1 <= c -> c <= length numbers ->
  let n := length numbers in
  (forall i chunk, i < c - 1 -> make_chunks numbers c !! i = Some chunk ->
                   length chunk = n / c)
  /\ (forall chunk, make_chunks numbers c !! (c - 1) = Some chunk ->
                    length chunk = n / c + n mod c)
  /\ Forall (fun chunk => chunk <> []) (make_chunks numbers c).
Proof.
  intros Hc Hn n.
  assert (1 <= n / c) as Hq.
  { apply Nat.div_le_lower_bound; lia. }
  assert (Nat.max 1 (n / c) = n / c) as Hchunk by lia.
  pose proof (Nat.div_mod_eq n c) as Hdiv.
  assert (forall i chunk, i < c - 1 ->
            make_chunks numbers c !! i = Some chunk -> length chunk = n / c)
    as Hinner.
  { intros i chunk Hi. rewrite make_chunks_lookup by lia. fold n.
    rewrite Hchunk, bool_decide_true by done. intros [= <-].
    rewrite slice_length. fold n. nia. }
  assert (forall chunk, make_chunks numbers c !! (c - 1) = Some chunk ->
                        length chunk = n / c + n mod c) as Hlast.
  { intros chunk. rewrite make_chunks_lookup by lia. fold n.
    rewrite Hchunk, bool_decide_false by lia. intros [= <-].
    rewrite slice_length. fold n. nia. }
  split; [exact Hinner|]. split; [exact Hlast|].
  apply Forall_lookup. intros i chunk Hi.
  pose proof (lookup_lt_Some _ _ _ Hi) as Hlt.
  rewrite make_chunks_length in Hlt.
  destruct (decide (i < c - 1)) as [Hin|Hout].
  - pose proof (Hinner i chunk Hin Hi). intros ->. cbn in *. lia.
  - replace i with (c - 1) in Hi by lia.
    pose proof (Hlast chunk Hi). intros ->. cbn in *. lia.
Qed.

Lemma make_chunks_short_witness :
  make_chunks [5; 1]%Z 4 = [[5]; [1]; []; []]%Z.
Proof. apply (make_chunks_short [5; 1]%Z 4). cbn. lia. Defined.

Lemma make_chunks_sizes_witness :
  Forall (fun chunk => chunk <> []) (make_chunks [5; 1; 3; 2; 4; 0; 6]%Z 3).
Proof.
  destruct (make_chunks_sizes [5; 1; 3; 2; 4; 0; 6]%Z 3 ltac:(lia)
              ltac:(cbn; lia)) as (_ & _ & Hall).
  exact Hall.
Defined.

(** ** The merge keeps every element *)

(** X3.  Sorted or not, the sequences lose and gain nothing in the merge:
    the output is a permutation of their concatenation, so it has as many
    elements as they have together, and empty sequences contribute
    nothing. *)
Theorem merge_sorted_lists_keeps_elements (lists : list (list Z)) :
  merge_sorted_lists lists ≡ₚ concat lists
  /\ length (merge_sorted_lists lists) = sum_list (length <$> lists)
  /\ (Forall (fun lst => lst = []) lists -> merge_sorted_lists lists = []).
Proof.
  pose proof (merge_sorted_lists_perm lists) as Hperm.
  split; [exact Hperm|]. split.
  - rewrite Hperm. clear Hperm. induction lists as [|lst lists IH]; [done|].
    cbn. rewrite length_app, IH. done.
  - intros Hempty. apply Permutation_nil_r. rewrite Hperm. clear Hperm.
    induction Hempty as [|lst lists -> _ IH]; [done|]. cbn. exact IH.
Qed.

(** ** The registry: what every operation keeps *)

(** Two registries with the same identities (address and name) at the same
    positions. *)
Definition same_identities : list ServerInfo -> list ServerInfo -> Prop :=
  Forall2 (fun r r' => ip r = ip r' /\ port r = port r' /\ name r = name r').

(** What validation lets into a record: a truthy [ip] and [name], and as
    [port] an integer of [1, 65535] or [True]. *)
Definition well_formed (r : ServerInfo) : Prop :=
  truthy (ip r) = true
  /\ ((exists n, port r = PInt n /\ (1 <= n <= 65535)%Z)
      \/ port r = PBool true)
  /\ truthy (name r) = true.

Lemma same_identities_well_formed a b :
  same_identities a b -> Forall well_formed a -> Forall well_formed b.
Proof.
  induction 1 as [|r r' a b (Hip & Hport & Hname) _ IH]; intros Hwf; [done|].
  apply Forall_cons in Hwf as [Hr Ha]. constructor; [|by apply IH].
  unfold well_formed in *. by rewrite <- Hip, <- Hport, <- Hname.
Qed.

Lemma decays_same_identities a b : decays a b -> same_identities a b.
Proof.
  induction 1 as [|r r' a b (? & ? & ? & _) _ IH]; constructor; [done|done].
Qed.

Lemma update_servers_status_identities now_ alive servers_ :
  same_identities servers_ (update_servers_status now_ alive servers_).2.
Proof. cbn. induction servers_ as [|r l IH]; constructor; [done|done]. Qed.

Lemma register_server_well_formed t1 t2 data servers_ :
  Forall well_formed servers_ ->
  Forall well_formed (register_server t1 t2 data servers_).2.
Proof.
  intros Hwf. unfold register_server.
  destruct (forallb truthy _) eqn:Hall; cbn [negb]; [|done].
  destruct (negb _ || _ || _) eqn:Hcheck; [done|]. cbn [snd].
  apply port_check, valid_port_cases in Hcheck. cbn [forallb] in Hall.
  apply andb_true_iff in Hall as [Hip Hall].
  apply andb_true_iff in Hall as [_ Hall].
  apply andb_true_iff in Hall as [Hname _].
  apply Forall_forall. intros x Hx. apply elem_of_store in Hx as [->|Hx].
  - split; [exact Hip|]. split; [exact Hcheck | exact Hname].
  - rewrite Forall_forall in Hwf. by apply Hwf.
Qed.

(** X4.  In every registry the operations of [ServerManager] can produce
    from the empty one, no two records have addresses that compare equal,
    and every record has a truthy [ip] and [name] and a port that is an
    integer of [1, 65535] or the value [True], which the validation takes
    for an [int]. *)
Theorem registry_invariant (servers_ : list ServerInfo) :
  registry_reachable servers_ ->
  unique_addresses servers_ /\ Forall well_formed servers_.
Proof.
  induction 1 as [| t1 t2 data l _ [IHu IHw] | now_ alive l _ [IHu IHw]
                 | a p t n l _ [IHu IHw] | a p l _ [IHu IHw]].
  - split; constructor.
  - split; [by apply register_server_unique
           | by apply register_server_well_formed].
  - split.
    + eapply same_addresses_unique;
        [apply update_servers_status_addresses | done].
    + eapply same_identities_well_formed;
        [apply update_servers_status_identities | done].
  - split.
    + eapply same_addresses_unique;
        [apply update_server_stats_addresses | done].
    + eapply same_identities_well_formed; [|done].
      apply decays_same_identities, update_server_stats_decays.
  - split.
    + eapply same_addresses_unique;
        [apply mark_server_inactive_addresses | done].
    + eapply same_identities_well_formed; [|done].
      apply decays_same_identities, mark_server_inactive_decays.
Qed.

Lemma registry_invariant_witness :
  unique_addresses
    (register_server 7 8 (request "10.0.0.5" (PInt 9000) "W1b")
       (register_server 5 6 (request "10.0.0.5" (PInt 9000) "W1") []).2).2.
Proof.
  refine (proj1 (registry_invariant _ _)).
  apply registry_register, registry_register, registry_init.
Defined.

Lemma unique_addresses_app_r before old after x :
  unique_addresses (before ++ old :: after) -> x ∈ after ->
  has_address (ip old) (port old) x = false.
Proof.
  induction before as [|b before IH]; cbn; intros Hu Hx.
  - inversion Hu as [|? ? Hold _]; subst.
    rewrite Forall_forall in Hold. by apply Hold.
  - inversion Hu; subst. by apply IH.
Qed.

Lemma filter_others_all ip_ port_ l :
  Forall (fun r => has_address ip_ port_ r = false) l ->
  filter (fun r => has_address ip_ port_ r = false) l = l
  /\ address_count ip_ port_ l = 0.
Proof.
  unfold address_count. induction 1 as [|r l Hr _ [IH1 IH2]]; [done|].
  rewrite filter_cons_True by done.
  rewrite filter_cons_False by (rewrite Hr; cbn; tauto).
  by rewrite IH1.
Qed.

(** A port that passes validation compares equal to itself. *)
Lemma valid_port_eq v : valid_port v -> py_eq v v = true.
Proof.
  rewrite valid_port_cases. intros [(n & -> & _) | ->]; [|done].
  cbn. apply Qeq_bool_refl.
Qed.

(** The reply and the registry of a request that passes validation. *)
Lemma register_server_accepts t1 t2 data servers_ :
  forallb truthy
    [dict_get data "ip"; dict_get data "port"; dict_get data "name"] = true ->
  valid_port (dict_get data "port") ->
  register_server t1 t2 data servers_
  = (registered_reply,
     store (mkServerInfo (dict_get data "ip") (dict_get data "port")
              (dict_get data "name") true t1 t2 0) servers_).
Proof.
  intros Hall Hport. unfold register_server. rewrite Hall. cbn [negb].
  apply port_check in Hport. by rewrite Hport.
Qed.

(** X5.  A registration that passes validation, with an [ip] that compares
    equal to itself (every JSON value does but [NaN]), is an upsert on the
    address: afterwards exactly one record has the address, and it is the
    new one; the registry grows by one record only when the address was
    not registered; the records of the other addresses are the same as
    before, in the same order. *)
Theorem register_server_upsert (t1 t2 : Z) (data : gmap string pyval)
    (servers_ : list ServerInfo) :
  forallb truthy
    [dict_get data "ip"; dict_get data "port"; dict_get data "name"] = true ->
  valid_port (dict_get data "port") ->
  py_eq (dict_get data "ip") (dict_get data "ip") = true ->
  unique_addresses servers_ ->
  let ip_ := dict_get data "ip" in
  let port_ := dict_get data "port" in
  let new := mkServerInfo ip_ port_ (dict_get data "name") true t1 t2 0 in
  let registry := (register_server t1 t2 data servers_).2 in
  address_count ip_ port_ registry = 1
  /\ (forall r, r ∈ registry -> has_address ip_ port_ r = true -> r = new)
  /\ length registry
     = length servers_ + (1 - address_count ip_ port_ servers_)
  /\ filter (fun r => has_address ip_ port_ r = false) registry
     = filter (fun r => has_address ip_ port_ r = false) servers_.
Proof.
  intros Hall Hport Hip Hunique ip_ port_ new registry.
  pose proof (register_server_accepts t1 t2 data servers_ Hall Hport) as Hrun.
  unfold registry. rewrite Hrun. cbn [snd]. fold ip_ port_ new. clear Hrun.
  assert (has_address ip_ port_ new = true) as Hnew.
  { unfold has_address, new. cbn [ip port]. fold ip_ in Hip.
    by rewrite Hip, (valid_port_eq port_ Hport). }
  destruct (store_cases new servers_)
    as [[Hnone ->] | (before & old & after & -> & Hbefore & Hold & ->)];
    change (ip new) with ip_ in *; change (port new) with port_ in *.
  - destruct (filter_others_all _ _ _ Hnone) as [Hfilter Hcount].
    rewrite Hcount. unfold address_count.
    rewrite !filter_app, !length_app, Hfilter.
    rewrite filter_cons_True by (by rewrite Hnew).
    rewrite filter_cons_False by (rewrite Hnew; done).
    fold (address_count ip_ port_ servers_). rewrite Hcount.
    cbn. rewrite app_nil_r. repeat split; try lia.
    intros r [Hr|Hr]%elem_of_app Hsame.
    + rewrite Forall_forall in Hnone. by rewrite (Hnone _ Hr) in Hsame.
    + by apply list_elem_of_singleton in Hr.
  - assert (Forall (fun r => has_address ip_ port_ r = false) after) as Hafter.
    { apply Forall_forall. intros x Hx.
      destruct (has_address ip_ port_ x) eqn:Hsame; [|done].
      rewrite <- (unique_addresses_app_r _ _ _ _ Hunique Hx).
      symmetry. unfold has_address in *.
      apply andb_true_iff in Hold as [H1 H2].
      apply andb_true_iff in Hsame as [H3 H4].
      apply andb_true_iff. rewrite (py_eq_sym (ip old)) in H1.
      rewrite (py_eq_sym (port old)) in H2.
      split; eapply py_eq_trans; eauto. }
    destruct (filter_others_all _ _ _ Hbefore) as [Hfb Hcb].
    destruct (filter_others_all _ _ _ Hafter) as [Hfa Hca].
    unfold address_count in *.
    rewrite !filter_app, !length_app.
    rewrite !(filter_cons_True (fun r => has_address ip_ port_ r))
      by (by rewrite ?Hnew, ?Hold).
    rewrite !(filter_cons_False (fun r => has_address ip_ port_ r = false))
      by (rewrite ?Hnew, ?Hold; done).
    cbn [length]. rewrite Hcb, Hca. repeat split; try (cbn; lia).
    intros r Hr Hsame. apply elem_of_app in Hr as [Hr|Hr].
    + rewrite Forall_forall in Hbefore. by rewrite (Hbefore _ Hr) in Hsame.
    + apply elem_of_cons in Hr as [->|Hr]; [done|].
      rewrite Forall_forall in Hafter. by rewrite (Hafter _ Hr) in Hsame.
Qed.

Lemma register_server_upsert_witness :
  address_count (PStr "10.0.0.1") (PInt 9002)
    (register_server 7 8 (request "10.0.0.1" (PInt 9002) "again")
       (servers fleet)).2
  = 1.
Proof.
  assert (unique_addresses (servers fleet)) as Hunique by repeat constructor.
  assert (valid_port
            (dict_get (request "10.0.0.1" (PInt 9002) "again") "port"))
    as Hport.
  { exists 9002%Z. split; [reflexivity | lia]. }
  assert (forallb truthy
            [dict_get (request "10.0.0.1" (PInt 9002) "again") "ip";
             dict_get (request "10.0.0.1" (PInt 9002) "again") "port";
             dict_get (request "10.0.0.1" (PInt 9002) "again") "name"]
          = true) as Hall by reflexivity.
  destruct (register_server_upsert 7 8
              (request "10.0.0.1" (PInt 9002) "again")
              (servers fleet) Hall Hport eq_refl Hunique) as (Hcount & _).
  exact Hcount.
Defined.

(** X6.  [update_server_stats] and [mark_server_inactive] for an address
    that is not registered change nothing: no record is created and no
    other record is touched. *)
Theorem unknown_address_ignored (ip_ port_ : pyval) (t : Z) (n : nat)
    (servers_ : list ServerInfo) :
  address_count ip_ port_ servers_ = 0 ->
  update_server_stats ip_ port_ t n servers_ = servers_
  /\ mark_server_inactive ip_ port_ servers_ = servers_.
Proof.
  unfold address_count. induction servers_ as [|r l IH]; [done|].
  cbn [update_server_stats mark_server_inactive].
  destruct (has_address ip_ port_ r) eqn:Hr.
  - rewrite filter_cons_True by (by rewrite Hr). cbn. lia.
  - rewrite filter_cons_False by (rewrite Hr; cbn; tauto).
    intros Hcount. destruct (IH Hcount) as [-> ->]. done.
Qed.

Lemma unknown_address_ignored_witness :
  mark_server_inactive (PStr "10.0.0.9") (PInt 9001) (servers fleet)
  = servers fleet.
Proof.
  apply (unknown_address_ignored (PStr "10.0.0.9") (PInt 9001) 0 0
           (servers fleet)).
  reflexivity.
Defined.

(** X7.  After a probe the active snapshot is exactly the records whose
    address answered, in registry order, each stamped with the time of the
    probe; the pair the probe returns is the size of that snapshot and the
    size of the registry, so the handler's test [active_count == 0] and the
    dispatcher's test [not active_servers] agree on the same probe. *)
Theorem probe_snapshot (now_ : Z) (alive : pyval -> pyval -> bool)
    (servers_ : list ServerInfo) :
  let registry := (update_servers_status now_ alive servers_).2 in
  get_active_servers registry
  = set_probe true now_ <$> filter (fun s => alive (ip s) (port s)) servers_
  /\ (update_servers_status now_ alive servers_).1
     = (length (get_active_servers registry), length registry)
  /\ ((update_servers_status now_ alive servers_).1.1 = 0
      <-> get_active_servers registry = [])
  /\ Forall (fun r => last_check_time r = now_) registry.
Proof.
  cbn zeta. split; [|split; [|split]].
  - cbn [update_servers_status snd]. unfold get_active_servers.
    induction servers_ as [|r l IH]; [done|]. cbn [fmap list_fmap].
    destruct (alive (ip r) (port r)) eqn:Hr.
    + rewrite filter_cons_True by done.
      rewrite (filter_cons_True (fun s => alive (ip s) (port s)))
        by (by rewrite Hr).
      cbn. f_equal. exact IH.
    + rewrite filter_cons_False by (cbn; tauto).
      rewrite (filter_cons_False (fun s => alive (ip s) (port s)))
        by (rewrite Hr; cbn; tauto).
      exact IH.
  - cbn. by rewrite length_fmap.
  - cbn. unfold get_active_servers. split.
    + by intros ?%nil_length_inv.
    + by intros ->.
  - cbn. induction servers_; constructor; done.
Qed.

(** ** The dispatcher: what is sent, lost and counted *)

(** The chunks whose worker replied and the chunks whose worker failed. *)
Fixpoint surviving (io : nat -> ServerInfo -> list Z -> outcome) (idx : nat)
    (jobs : list (ServerInfo * list Z)) : list (list Z) :=
  match jobs with
  | [] => []
  | (s, c) :: jobs' =>
      (if succeeded (io idx s c) then [c] else [])
        ++ surviving io (S idx) jobs'
  end.

Fixpoint lost (io : nat -> ServerInfo -> list Z -> outcome) (idx : nat)
    (jobs : list (ServerInfo * list Z)) : list (list Z) :=
  match jobs with
  | [] => []
  | (s, c) :: jobs' =>
      (if succeeded (io idx s c) then [] else [c]) ++ lost io (S idx) jobs'
  end.

(** The items [update_server_stats] is called with during a job: the length
    of the chunk sent, for every worker whose reply arrived. *)
Fixpoint credited (io : nat -> ServerInfo -> list Z -> outcome) (idx : nat)
    (jobs : list (ServerInfo * list Z)) : nat :=
  match jobs with
  | [] => 0
  | (s, c) :: jobs' =>
      match io idx s c with
      | FailedTransport _ _ => 0
      | _ => length c
      end + credited io (S idx) jobs'
  end.

Definition processed_total (servers_ : list ServerInfo) : nat :=
  sum_list (total_processed <$> servers_).

(** X8.  When the probe finds no active server the call returns false
    without contacting any worker and without counting the numbers: the
    registry is the probed one, [numbers_sorted] and [bytes_processed] are
    untouched, and the client gets the no-server error when its socket
    takes it; when it does not, the failed write counts as one error. *)
Theorem dispatch_without_servers (net : network) (numbers : list Z)
    (st : sorter) :
  active_at_dispatch net st = [] ->
  let run := process_distributed net numbers st in
  run.1.1 = false
  /\ servers run.2
     = (update_servers_status (now net) (is_server_alive net) (servers st)).2
  /\ numbers_sorted (stats run.2) = numbers_sorted (stats st)
  /\ bytes_processed (stats run.2) = bytes_processed (stats st)
  /\ run.1.2 = (if client_up net then [MsgNoServers] else [])
  /\ total_errors (stats run.2)
     = total_errors (stats st) + (if client_up net then 0 else 1)
  /\ (forall io,
        process_distributed
          (mkNetwork (now net) (is_server_alive net) io (client_up net))
          numbers st
        = run).
Proof.
  intros Hnone run.
  assert (forall io,
            process_distributed
              (mkNetwork (now net) (is_server_alive net) io (client_up net))
              numbers st
            = client_send (client_up net) false MsgNoServers
                (mkSorter
                   (update_servers_status (now net) (is_server_alive net)
                      (servers st)).2 (stats st))) as Hrun.
  { intros io. unfold process_distributed. cbn [update_servers_status now
      is_server_alive worker_io client_up].
    unfold active_at_dispatch in Hnone. cbn [update_servers_status snd] in Hnone.
    by rewrite Hnone. }
  assert (run = client_send (client_up net) false MsgNoServers
                  (mkSorter
                     (update_servers_status (now net) (is_server_alive net)
                        (servers st)).2 (stats st))) as ->.
  { unfold run. rewrite <- (Hrun (worker_io net)). by destruct net. }
  unfold client_send, on_exception.
  destruct (client_up net); cbn; repeat split; try done; try lia;
    intros io; rewrite Hrun; done.
Qed.

Lemma dispatch_without_servers_witness :
  (process_distributed (mkNetwork 100 all_alive sorting_io true)
     [9; 2; 7]%Z (mkSorter [] (mkStats 0 0 0 0))).1
  = (false, [MsgNoServers]).
Proof.
  destruct (dispatch_without_servers (mkNetwork 100 all_alive sorting_io true)
              [9; 2; 7]%Z (mkSorter [] (mkStats 0 0 0 0)) eq_refl)
    as (Hret & _ & _ & _ & Hmsgs & _).
  cbn zeta in *.
  destruct (process_distributed _ _ _) as [[ret msgs] st']. cbn in *.
  by rewrite Hret, Hmsgs.
Defined.

Lemma all_failed_names io idx jobs :
  (forall k s c, jobs !! k = Some (s, c) ->
                 succeeded (io (idx + k) s c) = false) ->
  failed_names io idx jobs = name <$> jobs.*1
  /\ failures (outcomes_from io idx jobs) = length jobs.
Proof.
  revert idx. induction jobs as [|[s c] jobs IH]; intros idx Hfail; [done|].
  pose proof (Hfail 0 s c eq_refl) as Hhead. rewrite Nat.add_0_r in Hhead.
  destruct (IH (S idx)) as [IHn IHf].
  { intros k s' c' Hk. replace (S idx + k) with (idx + S k) by lia.
    by apply Hfail. }
  cbn [failed_names outcomes_from fmap list_fmap fst length].
  rewrite Hhead, IHn. unfold failures in *.
  rewrite filter_cons_True by done. cbn. by rewrite IHf.
Qed.

Lemma jobs_of_servers net numbers st :
  (jobs_of net numbers st).*1 = active_at_dispatch net st.
Proof.
  unfold jobs_of. apply fst_zip. rewrite make_chunks_length. lia.
Qed.

Lemma jobs_of_lookup_server net numbers st k s :
  active_at_dispatch net st !! k = Some s ->
  exists c, jobs_of net numbers st !! k = Some (s, c).
Proof.
  intros Hk. rewrite <- (jobs_of_servers net numbers st) in Hk.
  rewrite list_lookup_fmap in Hk.
  destruct (jobs_of net numbers st !! k) as [[s' c]|]; [|done].
  cbn in Hk. injection Hk as ->. by exists c.
Qed.

(** X9.  When every worker fails the call returns false, [total_errors]
    grows by their number, and every one of them has been marked inactive:
    the registry is left with no active server.  The client is sent the
    names of all the servers that were active, in registry order, when
    these names are strings; when one of them is not, joining them raises,
    the client is sent the error of the exception instead and
    [total_errors] grows by one more. *)
Theorem dispatch_all_failed (net : network) (numbers : list Z) (st : sorter) :
  client_up net = true ->
  unique_addresses (servers st) ->
  active_at_dispatch net st <> [] ->
  (forall k s c,
     jobs_of net numbers st !! k = Some (s, c) ->
     succeeded (worker_io net k s c) = false) ->
  let names := name <$> active_at_dispatch net st in
  exists st',
    process_distributed net numbers st
    = (false,
       [if forallb is_str names then MsgAllFailed names else MsgError], st')
    /\ total_errors (stats st')
       = total_errors (stats st) + length (active_at_dispatch net st)
         + (if forallb is_str names then 0 else 1)
    /\ get_active_servers (servers st') = [].
Proof.
  intros Hup Hunique Hactive Hfail names.
  pose proof (process_distributed_run net numbers st Hactive) as Hrun.
  cbn zeta in Hrun. unfold outcomes in Hrun.
  rewrite (all_failed_no_reply (worker_io net) 0 _ Hfail) in Hrun.
  destruct (all_failed_names (worker_io net) 0 _ Hfail) as [Hnames Hcount].
  rewrite Hnames, Hcount, jobs_of_servers, jobs_of_length, Hup in Hrun.
  fold names in Hrun. unfold join_returns in Hrun.
  cbn [client_send on_exception] in Hrun.
  set (base := (update_servers_status (now net) (is_server_alive net)
                  (servers st)).2) in *.
  assert (get_active_servers
            (registry_after (worker_io net) 0 (jobs_of net numbers st) base)
          = []) as Hnone.
  { assert (unique_addresses base) as Hbase.
    { eapply same_addresses_unique; [|exact Hunique].
      apply update_servers_status_addresses. }
    unfold get_active_servers.
    destruct (filter (fun s => active s)
                (registry_after (worker_io net) 0 (jobs_of net numbers st)
                   base))
      as [|r rest] eqn:Hfilter; [done|]. exfalso.
    assert (r ∈ filter (fun s => active s)
                  (registry_after (worker_io net) 0 (jobs_of net numbers st)
                     base)) as Hr by (rewrite Hfilter; left).
    apply list_elem_of_filter in Hr as [Hract Hr].
    apply list_elem_of_lookup_1 in Hr as (p & Hp).
    pose proof (registry_after_decays (worker_io net) 0
                  (jobs_of net numbers st) base) as Hdecays.
    destruct (Forall2_lookup_r _ _ _ _ _ Hdecays Hp)
      as (b & Hb & _ & _ & _ & Hstay).
    destruct (active b) eqn:Hbact.
    - assert (b ∈ active_at_dispatch net st) as Hin.
      { unfold active_at_dispatch, get_active_servers. fold base.
        apply list_elem_of_filter. split; [by rewrite Hbact|].
        by eapply list_elem_of_lookup_2. }
      apply list_elem_of_lookup_1 in Hin as (k & Hk).
      destruct (jobs_of_lookup_server net numbers st k b Hk) as (c & Hjob).
      destruct (registry_after_failed (worker_io net) base 0
                  (jobs_of net numbers st) base k b c p Hbase (decays_refl _)
                  Hjob (Hfail _ _ _ Hjob) Hb) as (r' & Hr' & Hinactive).
      rewrite Hp in Hr'. injection Hr' as <-.
      by rewrite Hinactive in Hract.
    - by rewrite (Hstay eq_refl) in Hract. }
  destruct (forallb is_str names); eexists;
    (split; [exact Hrun|]); (split; [cbn; lia | exact Hnone]).
Qed.

Lemma dispatch_all_failed_witness :
  exists st',
    process_distributed (mkNetwork 100 all_alive all_down_io true)
      [9; 2; 7; 1; 8; 3]%Z fleet
    = (false, [MsgAllFailed [PStr "W1"; PStr "W2"; PStr "W3"]], st')
    /\ get_active_servers (servers st') = [].
Proof.
  assert (unique_addresses (servers fleet)) as Hunique by repeat constructor.
  assert (active_at_dispatch (mkNetwork 100 all_alive all_down_io true) fleet
          <> []) as Hactive by (vm_compute; discriminate).
  destruct (dispatch_all_failed (mkNetwork 100 all_alive all_down_io true)
              [9; 2; 7; 1; 8; 3]%Z fleet eq_refl Hunique Hactive
              (fun k s c _ => eq_refl)) as (st' & Hrun & _ & Hnone).
  exists st'. split; [exact Hrun | exact Hnone].
Defined.

Lemma surviving_lost io idx jobs :
  concat (jobs.*2) ≡ₚ concat (surviving io idx jobs) ++ concat (lost io idx jobs).
Proof.
  revert idx. induction jobs as [|[s c] jobs IH]; intros idx; [done|].
  cbn [fmap list_fmap snd concat surviving lost].
  rewrite (IH (S idx)).
  destruct (succeeded (io idx s c)); cbn [app concat].
  - by rewrite <- app_assoc.
  - apply Permutation_app_swap_app.
Qed.

Lemma honest_or_failed_replies io idx jobs :
  (forall k s c, jobs !! k = Some (s, c) ->
                 honest (io (idx + k) s c) c
                 \/ succeeded (io (idx + k) s c) = false) ->
  Forall (Sorted Z.le) (replies (outcomes_from io idx jobs))
  /\ concat (replies (outcomes_from io idx jobs))
     ≡ₚ concat (surviving io idx jobs).
Proof.
  revert idx. induction jobs as [|[s c] jobs IH]; intros idx Hjobs.
  - by split.
  - destruct (IH (S idx)) as (IH1 & IH2).
    { intros k s' c' Hk. replace (S idx + k) with (idx + S k) by lia.
      by apply Hjobs. }
    pose proof (Hjobs 0 s c eq_refl) as Hhead. rewrite Nat.add_0_r in Hhead.
    cbn [outcomes_from surviving]. unfold replies in *.
    destruct Hhead as [(d & t & -> & Hsorted & Hperm) | Hfail].
    + cbn [omap list_omap reply_of succeeded concat app].
      split; [by constructor|]. by rewrite Hperm, IH2.
    + rewrite Hfail. destruct (io idx s c); [done| |];
        cbn [omap list_omap reply_of app]; by split.
Qed.

(** X10.  A job in which some workers fail, all of them registered under
    names that are strings, still answers the client, with less than it was
    given: the output is sorted and holds exactly the numbers of the chunks
    whose worker replied; the numbers of the chunks whose worker failed are
    not sent to another worker and are missing from the output. *)
Theorem partial_failure_loses_chunks (net : network) (numbers : list Z)
    (st : sorter) :
  client_up net = true ->
  (forall k s c,
     jobs_of net numbers st !! k = Some (s, c) ->
     honest (worker_io net k s c) c
     \/ succeeded (worker_io net k s c) = false) ->
  (forall k s c,
     jobs_of net numbers st !! k = Some (s, c) ->
     succeeded (worker_io net k s c) = false ->
     is_str (name s) = true) ->
  replies (outcomes net numbers st) <> [] ->
  exists output st',
    process_distributed net numbers st = (true, [MsgSorted output], st')
    /\ Sorted Z.le output
    /\ output
       ≡ₚ concat (surviving (worker_io net) 0 (jobs_of net numbers st))
    /\ numbers
       ≡ₚ output ++ concat (lost (worker_io net) 0 (jobs_of net numbers st)).
Proof.
  intros Hup Hjobs Hnames Hsome.
  assert (active_at_dispatch net st <> []) as Hactive.
  { intros Hnil. apply Hsome. unfold outcomes, jobs_of. by rewrite Hnil. }
  pose proof (process_distributed_run net numbers st Hactive) as Hrun.
  cbn zeta in Hrun.
  apply (join_returns_failed (worker_io net) 0) in Hnames.
  rewrite Hnames in Hrun.
  destruct (honest_or_failed_replies (worker_io net) 0 _ Hjobs)
    as (Hsorted & Hperm).
  fold (outcomes net numbers st) in Hsorted, Hperm.
  destruct (replies (outcomes net numbers st)) as [|r rs] eqn:Hreplies; [done|].
  rewrite Hup in Hrun. cbn [client_send] in Hrun.
  eexists _, _. split; [exact Hrun|].
  split; [by apply merge_sorted_lists_sorted|].
  assert (merge_sorted_lists (r :: rs)
          ≡ₚ concat (surviving (worker_io net) 0 (jobs_of net numbers st)))
    as Hout by (by rewrite merge_sorted_lists_perm).
  split; [exact Hout|]. rewrite Hout, <- surviving_lost.
  unfold jobs_of. rewrite snd_zip by (rewrite make_chunks_length; lia).
  rewrite make_chunks_concat; [done|].
  destruct (active_at_dispatch net st); [done | cbn; lia].
Qed.

Lemma second_down_io_honest_or_failed idx s chunk :
  honest (second_down_io idx s chunk) chunk
  \/ succeeded (second_down_io idx s chunk) = false.
Proof.
  unfold second_down_io. destruct (idx =? 1); [by right|]. left.
  apply (sorting_io_honest idx s).
Qed.

Lemma partial_failure_loses_chunks_witness :
  exists output st',
    process_distributed (mkNetwork 100 all_alive second_down_io true)
      [9; 2; 7; 1; 8; 3]%Z fleet
    = (true, [MsgSorted output], st')
    /\ [9; 2; 7; 1; 8; 3]%Z
       ≡ₚ output
          ++ concat
               (lost second_down_io 0
                  (jobs_of (mkNetwork 100 all_alive second_down_io true)
                     [9; 2; 7; 1; 8; 3]%Z fleet)).
Proof.
  destruct (partial_failure_loses_chunks
              (mkNetwork 100 all_alive second_down_io true)
              [9; 2; 7; 1; 8; 3]%Z fleet eq_refl
              (fun k s c _ => second_down_io_honest_or_failed k s c))
    as (output & st' & Hrun & _ & _ & Hlost).
  { intros k s c Hk _. vm_compute in Hk.
    destruct k as [|[|[|k]]]; try discriminate Hk;
      injection Hk as <- _; reflexivity. }
  { vm_compute. discriminate. }
  exists output, st'. split; [exact Hrun | exact Hlost].
Defined.

Example partial_failure_lost :
  lost second_down_io 0
    (jobs_of (mkNetwork 100 all_alive second_down_io true)
       [9; 2; 7; 1; 8; 3]%Z fleet)
  = [[7; 1]]%Z.
Proof. vm_compute. reflexivity. Qed.

(** X11.  When the client socket refuses the answer, whatever the workers
    did, the call returns false and nothing reaches the client; the failed
    write counts as one more error on top of the failed workers, and the
    numbers have been counted as sorted. *)
Theorem dispatch_client_gone (net : network) (numbers : list Z) (st : sorter) :
  client_up net = false ->
  active_at_dispatch net st <> [] ->
  let run := process_distributed net numbers st in
  run.1 = (false, [])
  /\ total_errors (stats run.2)
     = total_errors (stats st) + failures (outcomes net numbers st) + 1
  /\ numbers_sorted (stats run.2) = numbers_sorted (stats st) + length numbers.
Proof.
  intros Hdown Hactive run. unfold run.
  rewrite (process_distributed_run net numbers st Hactive). cbn zeta.
  rewrite Hdown.
  destruct (join_returns _), (replies (outcomes net numbers st)); cbn;
    repeat split; lia.
Qed.

Lemma dispatch_client_gone_witness :
  (process_distributed (mkNetwork 100 all_alive sorting_io false)
     [9; 2; 7; 1; 8; 3]%Z fleet).1
  = (false, []).
Proof.
  assert (active_at_dispatch (mkNetwork 100 all_alive sorting_io false) fleet
          <> []) as Hactive by (vm_compute; discriminate).
  destruct (dispatch_client_gone (mkNetwork 100 all_alive sorting_io false)
              [9; 2; 7; 1; 8; 3]%Z fleet eq_refl Hactive) as (Hrun & _).
  exact Hrun.
Defined.

(** *** Work accounting *)

Lemma processed_total_update a p t n l :
  (exists r, r ∈ l /\ has_address a p r = true) ->
  processed_total (update_server_stats a p t n l) = processed_total l + n.
Proof.
  unfold processed_total. induction l as [|x l IH]; intros (r & Hr & Hsame).
  - by apply elem_of_nil in Hr.
  - cbn [update_server_stats]. destruct (has_address a p x) eqn:Hx.
    + cbn. lia.
    + apply elem_of_cons in Hr as [->|Hr]; [congruence|].
      cbn. rewrite IH by eauto. lia.
Qed.

Lemma processed_total_mark a p l :
  processed_total (mark_server_inactive a p l) = processed_total l.
Proof.
  unfold processed_total. induction l as [|x l IH]; [done|].
  cbn [mark_server_inactive]. destruct (has_address a p x); cbn; [done|].
  by rewrite IH.
Qed.

Lemma processed_total_probe now_ alive l :
  processed_total (update_servers_status now_ alive l).2 = processed_total l.
Proof.
  unfold processed_total. cbn. induction l as [|x l IH]; [done|].
  cbn. by rewrite IH.
Qed.

Lemma decays_present base l s :
  decays base l -> s ∈ base ->
  exists r, r ∈ l /\ has_address (ip s) (port s) r = true.
Proof.
  intros Hd [p Hp]%list_elem_of_lookup_1.
  destruct (decays_lookup _ _ _ _ Hd Hp) as (r & Hr & Hip & Hport & _).
  exists r. split; [by eapply list_elem_of_lookup_2|].
  unfold has_address. rewrite <- Hip, <- Hport. apply has_address_self.
Qed.

Definition action_items (a : registry_action) : nat :=
  match a with
  | ActUpdateStats _ _ _ items => items
  | ActMarkInactive _ _ => 0
  end.

Definition action_present (base : list ServerInfo) (a : registry_action)
  : Prop :=
  match a with
  | ActUpdateStats ip_ port_ _ _ | ActMarkInactive ip_ port_ =>
      exists s, s ∈ base /\ ip s = ip_ /\ port s = port_
  end.

Lemma apply_actions_total base acts l :
  decays base l -> Forall (action_present base) acts ->
  processed_total (apply_actions acts l)
  = processed_total l + sum_list (action_items <$> acts).
Proof.
  intros Hd Hacts. revert l Hd.
  induction Hacts as [|a acts Ha _ IH]; intros l Hd.
  { unfold apply_actions. cbn [foldl fmap list_fmap sum_list]. lia. }
  unfold apply_actions. cbn [foldl fmap list_fmap sum_list].
  fold (apply_actions acts (apply_action a l)).
  rewrite IH.
  - destruct a as [a p t n | a p]; cbn [apply_action action_items].
    + destruct Ha as (s & Hs & <- & <-).
      rewrite processed_total_update by (by eapply decays_present).
      unfold id. lia.
    + rewrite processed_total_mark. unfold id. lia.
  - eapply decays_trans; [exact Hd|].
    destruct a; [apply update_server_stats_decays
                | apply mark_server_inactive_decays].
Qed.

Lemma sum_list_append l1 l2 :
  sum_list (l1 ++ l2) = sum_list l1 + sum_list l2.
Proof. induction l1 as [|x l1 IH]; cbn; [done|]. rewrite IH. lia. Qed.

Lemma job_actions_items io idx jobs :
  sum_list (action_items <$> job_actions io idx jobs) = credited io idx jobs.
Proof.
  revert idx. induction jobs as [|[s c] jobs IH]; intros idx; [done|].
  cbn [job_actions credited]. rewrite fmap_app, sum_list_append, IH.
  f_equal. destruct (io idx s c); cbn; unfold id; lia.
Qed.

Lemma job_actions_present io base idx jobs :
  (forall s c, (s, c) ∈ jobs -> s ∈ base) ->
  Forall (action_present base) (job_actions io idx jobs).
Proof.
  revert idx. induction jobs as [|[s c] jobs IH]; intros idx Hjobs;
    [constructor|].
  cbn [job_actions]. apply Forall_app. split.
  - assert (s ∈ base) as Hs by (eapply Hjobs; left).
    destruct (io idx s c); repeat constructor; by exists s.
  - apply IH. intros s' c' Hin. eapply Hjobs. by right.
Qed.

Lemma jobs_of_in_base net numbers st s c :
  (s, c) ∈ jobs_of net numbers st ->
  s ∈ (update_servers_status (now net) (is_server_alive net) (servers st)).2.
Proof.
  intros (k & Hk)%list_elem_of_lookup_1.
  destruct (jobs_of_server _ _ _ _ _ _ Hk) as (p & Hp).
  by eapply list_elem_of_lookup_2.
Qed.

Lemma all_replied_credited io idx jobs :
  (forall k s c, jobs !! k = Some (s, c) ->
                 succeeded (io (idx + k) s c) = true) ->
  credited io idx jobs = length (concat (jobs.*2)).
Proof.
  revert idx. induction jobs as [|[s c] jobs IH]; intros idx Hall; [done|].
  pose proof (Hall 0 s c eq_refl) as Hhead. rewrite Nat.add_0_r in Hhead.
  cbn [credited fmap list_fmap snd concat]. rewrite length_app, (IH (S idx)).
  - by destruct (io idx s c).
  - intros k s' c' Hk. replace (S idx + k) with (idx + S k) by lia.
    by apply Hall.
Qed.

(** X12.  Over a job the [total_processed] counters of the registry grow,
    together, by the lengths of the chunks sent to the workers whose reply
    arrived, whether or not that reply could be used: a worker whose reply
    is not a list is credited and then marked inactive.  When every worker
    replies with a list, the registry is credited with the length of the
    input. *)
Theorem job_credits_chunks (net : network) (numbers : list Z) (st : sorter) :
  active_at_dispatch net st <> [] ->
  let final := servers (process_distributed net numbers st).2 in
  processed_total final
  = processed_total (servers st)
    + credited (worker_io net) 0 (jobs_of net numbers st)
  /\ ((forall k s c,
         jobs_of net numbers st !! k = Some (s, c) ->
         succeeded (worker_io net k s c) = true) ->
      processed_total final = processed_total (servers st) + length numbers).
Proof.
  intros Hactive final.
  assert (processed_total final
          = processed_total (servers st)
            + credited (worker_io net) 0 (jobs_of net numbers st)) as Htotal.
  { unfold final. rewrite (process_distributed_run net numbers st Hactive).
    cbn zeta.
    assert (forall b m s, servers (client_send (client_up net) b m s).2
                          = servers s) as Hsend.
    { intros b m s. unfold client_send, on_exception.
      by destruct (client_up net). }
    destruct (join_returns _);
      [destruct (replies (outcomes net numbers st)); rewrite Hsend|];
      cbn [on_exception servers snd];
      rewrite registry_after_actions,
        (apply_actions_total
           (update_servers_status (now net) (is_server_alive net)
              (servers st)).2)
        by (try apply decays_refl; apply job_actions_present;
            apply jobs_of_in_base);
      by rewrite job_actions_items, processed_total_probe. }
  split; [exact Htotal|]. intros Hall. rewrite Htotal. f_equal.
  rewrite (all_replied_credited _ 0 _ Hall). unfold jobs_of.
  rewrite snd_zip by (rewrite make_chunks_length; lia).
  rewrite make_chunks_concat; [done|].
  destruct (active_at_dispatch net st); [done | cbn; lia].
Qed.

Lemma job_credits_chunks_witness :
  processed_total
    (servers (process_distributed (mkNetwork 100 all_alive sorting_io true)
                [9; 2; 7; 1; 8; 3]%Z fleet).2)
  = processed_total (servers fleet) + 6.
Proof.
  assert (active_at_dispatch (mkNetwork 100 all_alive sorting_io true) fleet
          <> []) as Hactive by (vm_compute; discriminate).
  destruct (job_credits_chunks (mkNetwork 100 all_alive sorting_io true)
              [9; 2; 7; 1; 8; 3]%Z fleet Hactive) as (_ & Hall).
  apply Hall. intros k s c _. reflexivity.
Defined.

(** X13.  The worker threads may take the registry lock in any order.
    Whatever the order of their calls of [update_server_stats] and
    [mark_server_inactive], the registry keeps its records, their addresses
    and names and never reactivates one; every server whose exchange failed
    ends inactive; and the registry is credited with the same number of
    items. *)
Theorem worker_threads_any_order (net : network) (numbers : list Z)
    (st : sorter) (schedule : list registry_action) :
  unique_addresses (servers st) ->
  schedule ≡ₚ job_actions (worker_io net) 0 (jobs_of net numbers st) ->
  let base :=
    (update_servers_status (now net) (is_server_alive net) (servers st)).2 in
  let final := apply_actions schedule base in
  decays base final
  /\ (forall k s c,
        jobs_of net numbers st !! k = Some (s, c) ->
        succeeded (worker_io net k s c) = false ->
        exists r, r ∈ final /\ ip r = ip s /\ port r = port s
                  /\ name r = name s /\ active r = false)
  /\ processed_total final
     = processed_total (servers st)
       + credited (worker_io net) 0 (jobs_of net numbers st)
  /\ apply_actions (job_actions (worker_io net) 0 (jobs_of net numbers st)) base
     = registry_after (worker_io net) 0 (jobs_of net numbers st) base.
Proof.
  intros Hunique Hsched base final.
  assert (unique_addresses base) as Hbase.
  { eapply same_addresses_unique; [|exact Hunique].
    apply update_servers_status_addresses. }
  split; [apply apply_actions_decays|]. split; [|split].
  - intros k s c Hk Hfail.
    destruct (jobs_of_server _ _ _ _ _ _ Hk) as (p & Hp). fold base in Hp.
    destruct (failed_inactive_any_schedule (worker_io net) base
                (jobs_of net numbers st) schedule k s c p Hbase Hsched Hk
                Hfail Hp) as (r & Hr & Hinactive & Hip & Hport & Hname).
    exists r. split; [by eapply list_elem_of_lookup_2 | done].
  - unfold final. rewrite (apply_actions_total base).
    + rewrite Hsched, job_actions_items. unfold base.
      by rewrite processed_total_probe.
    + apply decays_refl.
    + rewrite Hsched. apply job_actions_present, jobs_of_in_base.
  - symmetry. apply registry_after_actions.
Qed.

Lemma worker_threads_any_order_witness :
  decays
    (update_servers_status 100 all_alive (servers fleet)).2
    (apply_actions
       (reverse
          (job_actions second_down_io 0
             (jobs_of (mkNetwork 100 all_alive second_down_io true)
                [9; 2; 7; 1; 8; 3]%Z fleet)))
       (update_servers_status 100 all_alive (servers fleet)).2).
Proof.
  assert (unique_addresses (servers fleet)) as Hunique by repeat constructor.
  destruct (worker_threads_any_order
              (mkNetwork 100 all_alive second_down_io true)
              [9; 2; 7; 1; 8; 3]%Z fleet
              (reverse
                 (job_actions second_down_io 0
                    (jobs_of (mkNetwork 100 all_alive second_down_io true)
                       [9; 2; 7; 1; 8; 3]%Z fleet)))
              Hunique (reverse_Permutation _)) as (Hdecays & _).
  exact Hdecays.
Defined.

(** ** Framing: the length prefix and the transfer loops

    [send_chunk_to_server], [process_distributed] and
    [handle_distributed_sort] move a message as a 4-byte big-endian length
    ([struct.pack('!I', n)]) followed by the body, written and read in
    blocks of at most [chunk_size] bytes.  Bytes are integers in
    [0, 256). *)

(** [struct.pack('!I', n)]; [struct.error] outside [0, 2^32): [None]. *)
Definition pack_uint32 (n : Z) : option (list Z) :=
  if bool_decide (0 <= n < 2 ^ 32)%Z
  then Some [(n / 2 ^ 24) mod 256; (n / 2 ^ 16) mod 256; (n / 2 ^ 8) mod 256;
             n mod 256]%Z
  else None.

(** [struct.unpack('!I', raw)[0]]; [struct.error] unless [raw] has four
    bytes: [None]. *)
Definition unpack_uint32 (raw : list Z) : option Z :=
  match raw with
  | [a; b; c; d] => Some (((a * 256 + b) * 256 + c) * 256 + d)%Z
  | _ => None
  end.

(** The block size of the transfer loops, [1024 * 1024]. *)
Definition MiB : nat := 2 ^ 20.

(** [range(0, n, chunk_size)]. *)
Definition block_starts (n chunk_size : nat) : list nat :=
  (fun k => k * chunk_size) <$> seq 0 ((n + chunk_size - 1) / chunk_size).

(** The body of the [for i in range(0, len(json_data), chunk_size)] loops:
    the arguments of the successive [sendall] calls. *)
Definition send_blocks (chunk_size : nat) (json_data : list Z)
  : list (list Z) :=
  (fun i =>
     let end_idx := Nat.min (i + chunk_size) (length json_data) in
     slice i end_idx json_data)
  <$> block_starts (length json_data) chunk_size.

(** [bytes_sent] at the end of the loop of [process_distributed]. *)
Definition bytes_sent (chunk_size : nat) (json_data : list Z) : nat :=
  foldl (fun sent i =>
           sent + (Nat.min (i + chunk_size) (length json_data) - i))
    0 (block_starts (length json_data) chunk_size).

(** One framed message: the prefix, then the blocks; [None] when the length
    does not fit the prefix. *)
Definition send_framed (chunk_size : nat) (json_data : list Z)
  : option (list (list Z)) :=
  match pack_uint32 (Z.of_nat (length json_data)) with
  | Some prefix => Some (prefix :: send_blocks chunk_size json_data)
  | None => None
  end.

(** The other end of a connection: the bytes it delivers before it closes,
    and for each coming [recv] how many bytes TCP hands over at most (at
    least one; when the list is exhausted, as many as asked for). *)
Record peer : Type := mkPeer {
  pending : list Z;
  fragments : list nat
}.

(** [sock.recv(bufsize)]: what is there, up to [bufsize]; [b""] once the
    peer has closed. *)
Definition recv (bufsize : nat) (p : peer) : list Z * peer :=
  let available :=
    match fragments p with
    | [] => bufsize
    | f :: _ => Nat.min bufsize (Nat.max 1 f)
    end in
  (take available (pending p),
   mkPeer (drop available (pending p)) (tail (fragments p))).

(** The [while bytes_received < msglen] loops; [bytes_received] is the
    length of [data] throughout.  [None] when the peer closes during the
    transfer. *)
Equations? recv_body (chunk_size msglen : nat) (p : peer) (data : list Z)
  : option (list Z) * peer by wf (msglen - length data) lt :=
  recv_body chunk_size msglen p data with inspect (bool_decide (length data < msglen)) := {
    | exist _ false _ => (Some data, p)
    | exist _ true Hlt with inspect (recv (Nat.min (msglen - length data) chunk_size) p) := {
        | exist _ ([], p') _ => (None, p')
        | exist _ (b :: chunk, p') Hrecv =>
            recv_body chunk_size msglen p' (data ++ b :: chunk) } }.
Proof.
  apply bool_decide_eq_true in Hlt.
  match goal with H : take _ _ = _ :: _ |- _ => rewrite H end.
  rewrite length_app. cbn. lia.
Qed.

(** What receiving one framed message comes to. *)
Inductive received : Type :=
| RecvClosed
| RecvBadPrefix
| RecvTruncated
| RecvMessage (data : list Z).

Definition recv_framed (chunk_size : nat) (p : peer) : received * peer :=
  let '(raw_msglen, p1) := recv 4 p in
  match raw_msglen with
  | [] => (RecvClosed, p1)
  | _ :: _ =>
      match unpack_uint32 raw_msglen with
      | None => (RecvBadPrefix, p1)
      | Some msglen =>
          match recv_body chunk_size (Z.to_nat msglen) p1 [] with
          | (Some data, p2) => (RecvMessage data, p2)
          | (None, p2) => (RecvTruncated, p2)
          end
      end
  end.

Example send_framed_ex :
  send_framed 4 [1; 2; 3; 4; 5; 6; 7; 8; 9; 10]%Z
  = Some [[0; 0; 0; 10]; [1; 2; 3; 4]; [5; 6; 7; 8]; [9; 10]]%Z.
Proof. reflexivity. Qed.

Example recv_framed_ex :
  recv_framed 4 (mkPeer [0; 0; 0; 5; 1; 2; 3; 4; 5; 77]%Z [4; 2; 1; 9])
  = (RecvMessage [1; 2; 3; 4; 5]%Z, mkPeer [77]%Z []).
Proof. reflexivity. Qed.

Lemma unpack_pack n prefix :
  pack_uint32 n = Some prefix ->
  unpack_uint32 prefix = Some n /\ length prefix = 4.
Proof.
  unfold pack_uint32. case_bool_decide as Hn; [|done]. intros [= <-].
  split; [|done]. cbn [unpack_uint32]. f_equal.
  change (2 ^ 32)%Z with 4294967296%Z in Hn.
  change (2 ^ 24)%Z with 16777216%Z. change (2 ^ 16)%Z with 65536%Z.
  change (2 ^ 8)%Z with 256%Z.
  Z.div_mod_to_equations. lia.
Qed.

Lemma block_count n chunk_size :
  0 < chunk_size ->
  let m := (n + chunk_size - 1) / chunk_size in
  n <= m * chunk_size /\ (0 < n -> (m - 1) * chunk_size < n /\ 0 < m)
  /\ (n = 0 -> m = 0).
Proof.
  intros Hcs m.
  pose proof (Nat.div_mod_eq (n + chunk_size - 1) chunk_size) as Hdiv.
  pose proof (Nat.mod_upper_bound (n + chunk_size - 1) chunk_size
                ltac:(lia)) as Hmod.
  fold m in Hdiv. repeat split; nia.
Qed.

Lemma send_blocks_slices chunk_size (json_data : list Z) :
  send_blocks chunk_size json_data
  = (fun k => slice (k * chunk_size) (k * chunk_size + chunk_size) json_data)
    <$> seq 0 ((length json_data + chunk_size - 1) / chunk_size).
Proof.
  unfold send_blocks, block_starts. rewrite <- list_fmap_compose.
  apply list_fmap_ext. intros _ k _. unfold compose. cbv beta zeta.
  rewrite (slice_clip (k * chunk_size) (k * chunk_size + chunk_size)).
  rewrite (slice_clip (k * chunk_size) (_ `min` _)).
  by rewrite <- Nat.min_assoc, Nat.min_id.
Qed.

Lemma foldl_add {A} (g : A -> nat) (l : list A) (a : nat) :
  foldl (fun sent i => sent + g i) a l = a + sum_list (g <$> l).
Proof.
  revert a. induction l as [|x l IH]; intros a; cbn; [lia|].
  rewrite IH. lia.
Qed.

Lemma length_concat_sum {A} (ls : list (list A)) :
  length (concat ls) = sum_list (length <$> ls).
Proof. induction ls as [|l ls IH]; cbn; [done|]. by rewrite length_app, IH. Qed.

Lemma send_blocks_concat chunk_size (json_data : list Z) :
  0 < chunk_size -> concat (send_blocks chunk_size json_data) = json_data.
Proof.
  intros Hcs.
  destruct (block_count (length json_data) chunk_size Hcs) as (Hcover & _).
  rewrite send_blocks_slices, concat_slices. by apply take_ge.
Qed.

(** X14.  The send loops cut the body into consecutive blocks that put
    together are the body: no block is empty, none is longer than
    [chunk_size], there are [ceil(len / chunk_size)] of them (none for an
    empty body), and [bytes_sent] ends equal to the length of the body. *)
Theorem send_blocks_cover (chunk_size : nat) (json_data : list Z) :
  0 < chunk_size ->
  concat (send_blocks chunk_size json_data) = json_data
  /\ Forall (fun block => 0 < length block <= chunk_size)
       (send_blocks chunk_size json_data)
  /\ length (send_blocks chunk_size json_data)
     = (length json_data + chunk_size - 1) / chunk_size
  /\ bytes_sent chunk_size json_data = length json_data.
Proof.
  intros Hcs.
  destruct (block_count (length json_data) chunk_size Hcs)
    as (Hcover & Hlast & Hzero).
  pose proof (send_blocks_concat chunk_size json_data Hcs) as Hconcat.
  split; [exact Hconcat|]. split; [|split].
  - rewrite send_blocks_slices. apply Forall_fmap, Forall_forall.
    intros k [_ Hk]%elem_of_seq. cbn. rewrite slice_length.
    destruct (decide (length json_data = 0)) as [Hnil|Hpos].
    + rewrite (Hzero Hnil) in Hk. lia.
    + destruct Hlast as [Hlt _]; [lia|]. nia.
  - unfold send_blocks, block_starts. by rewrite !length_fmap, length_seq.
  - unfold bytes_sent. rewrite foldl_add. cbn.
    transitivity (length (concat (send_blocks chunk_size json_data)));
      [|by rewrite Hconcat].
    rewrite length_concat_sum. f_equal.
    unfold send_blocks. rewrite <- list_fmap_compose.
    apply list_fmap_ext. intros _ i _. unfold compose. cbv beta zeta.
    rewrite slice_length. lia.
Qed.

Lemma send_blocks_cover_witness :
  concat (send_blocks 4 [1; 2; 3; 4; 5; 6; 7; 8; 9; 10]%Z)
  = [1; 2; 3; 4; 5; 6; 7; 8; 9; 10]%Z.
Proof.
  destruct (send_blocks_cover 4 [1; 2; 3; 4; 5; 6; 7; 8; 9; 10]%Z
              ltac:(lia)) as (Hconcat & _).
  exact Hconcat.
Defined.

Lemma recv_body_eq chunk_size msglen p data :
  recv_body chunk_size msglen p data
  = if bool_decide (length data < msglen)
    then
      match recv (Nat.min (msglen - length data) chunk_size) p with
      | ([], p') => (None, p')
      | (chunk, p') => recv_body chunk_size msglen p' (data ++ chunk)
      end
    else (Some data, p).
Proof.
  funelim (recv_body chunk_size msglen p data).
  - by rewrite e.
  - rewrite Hlt. unfold recv. cbv zeta. by rewrite e'.
  - rewrite Hlt. unfold recv. cbv zeta.
    match goal with H : take _ _ = _ :: _ |- _ => by rewrite H end.
Qed.

(** [recv] hands over a prefix of what is pending, and at least one byte
    when asked for one and one is there. *)
Lemma recv_take bufsize p :
  0 < bufsize ->
  exists a,
    0 < a <= bufsize
    /\ recv bufsize p
       = (take a (pending p), mkPeer (drop a (pending p)) (tail (fragments p))).
Proof.
  intros Hpos. unfold recv. cbv zeta.
  destruct (fragments p) as [|f fs]; eexists; (split; [|reflexivity]); lia.
Qed.

(** The transfer loop reads exactly the bytes that are missing, or fails when
    the peer closes before: fragmentation plays no part. *)
Lemma recv_body_spec chunk_size msglen :
  0 < chunk_size ->
  forall need p data,
    need = msglen - length data ->
    length data <= msglen ->
    (need <= length (pending p) ->
     exists frags',
       recv_body chunk_size msglen p data
       = (Some (data ++ take need (pending p)),
          mkPeer (drop need (pending p)) frags'))
    /\ (length (pending p) < need ->
        exists p', recv_body chunk_size msglen p data = (None, p')).
Proof.
  intros Hcs need. induction (lt_wf need) as [need _ IH].
  intros p data Hneed Hle. rewrite recv_body_eq.
  case_bool_decide as Hlt.
  - destruct (recv_take (Nat.min (msglen - length data) chunk_size) p
                ltac:(lia)) as (a & Ha & ->).
    destruct (take a (pending p)) as [|b chunk] eqn:Htake.
    + assert (pending p = []) as Hnil.
      { destruct (pending p); [done|]. destruct a; [lia|done]. }
      split; [rewrite Hnil; cbn; lia|]. intros _. by eexists.
    + rewrite <- Htake.
      assert (length (take a (pending p)) = Nat.min a (length (pending p)))
        as Hlen by apply length_take.
      assert (0 < length (take a (pending p))) as Hpos
        by (rewrite Htake; cbn; lia).
      destruct (IH (need - length (take a (pending p))) ltac:(lia)
                  (mkPeer (drop a (pending p)) (tail (fragments p)))
                  (data ++ take a (pending p))) as [IHsome IHnone].
      { rewrite length_app. lia. }
      { rewrite length_app. lia. }
      cbn [pending] in IHsome, IHnone. rewrite length_drop in IHsome, IHnone.
      split.
      * intros Hall. destruct IHsome as (frags' & ->); [lia|].
        exists frags'. rewrite <- app_assoc.
        replace (length (take a (pending p))) with a by lia.
        rewrite take_take_drop, drop_drop.
        by replace (a + (need - a)) with need by lia.
      * intros Hshort. destruct IHnone as (p' & ->); [lia|]. by eexists.
  - assert (need = 0) as -> by lia. split.
    + intros _. exists (fragments p). rewrite take_0, drop_0, app_nil_r.
      by destruct p.
    + lia.
Qed.

(** Whether the first [recv(4)] can return all four bytes of the prefix. *)
Definition prefix_whole (frags : list nat) : Prop :=
  match frags with
  | [] => True
  | f :: _ => 4 <= f
  end.

Lemma recv_prefix p :
  prefix_whole (fragments p) ->
  recv 4 p = (take 4 (pending p),
              mkPeer (drop 4 (pending p)) (tail (fragments p))).
Proof.
  unfold recv, prefix_whole. cbv zeta.
  destruct (fragments p) as [|f fs]; [done|]. intros Hf.
  by replace (Nat.min 4 (Nat.max 1 f)) with 4 by lia.
Qed.

(** X15.  A message that [send_framed] writes is read back whole by
    [recv_framed], whatever the block sizes of the two loops and however
    the stream is fragmented after the prefix, and the bytes that follow
    the message stay unread. *)
Theorem framing_round_trip (send_size recv_size : nat) (body rest : list Z)
    (frags : list nat) :
  0 < send_size -> 0 < recv_size ->
  (Z.of_nat (length body) < 2 ^ 32)%Z ->
  prefix_whole frags ->
  exists blocks frags',
    send_framed send_size body = Some blocks
    /\ recv_framed recv_size (mkPeer (concat blocks ++ rest) frags)
       = (RecvMessage body, mkPeer rest frags').
Proof.
  intros Hsend Hrecv Hfit Hwhole. unfold send_framed.
  destruct (pack_uint32 (Z.of_nat (length body))) as [prefix|] eqn:Hpack.
  2: { unfold pack_uint32 in Hpack. case_bool_decide; [done | lia]. }
  destruct (unpack_pack _ _ Hpack) as [Hunpack Hlen].
  pose proof (send_blocks_concat send_size body Hsend) as Hconcat.
  destruct (recv_body_spec recv_size (length body) Hrecv (length body)
              (mkPeer (body ++ rest) (tail frags)) [])
    as [(frags' & Hbody) _]; [cbn; lia | cbn; lia | |].
  { cbn. rewrite length_app. lia. }
  cbn [pending app] in Hbody.
  rewrite take_app_length, drop_app_length in Hbody.
  exists (prefix :: send_blocks send_size body), frags'.
  split; [reflexivity|].
  unfold recv_framed. rewrite recv_prefix by done.
  cbn [pending fragments concat]. rewrite Hconcat, <- app_assoc.
  rewrite take_app_length', drop_app_length' by done.
  destruct prefix as [|b prefix]; [done|].
  by rewrite Hunpack, Nat2Z.id, Hbody.
Qed.

Lemma framing_round_trip_witness :
  exists blocks frags',
    send_framed 4 [1; 2; 3; 4; 5; 6; 7; 8; 9; 10]%Z = Some blocks
    /\ recv_framed 3 (mkPeer (concat blocks ++ [77]%Z) [4; 2; 1; 9])
       = (RecvMessage [1; 2; 3; 4; 5; 6; 7; 8; 9; 10]%Z, mkPeer [77]%Z frags').
Proof.
  apply (framing_round_trip 4 3 [1; 2; 3; 4; 5; 6; 7; 8; 9; 10]%Z [77]%Z
           [4; 2; 1; 9]); [lia | lia | reflexivity | cbn; lia].
Defined.

(** A first [recv(4)] that returns one to three bytes: [struct.unpack]
    fails. *)
Lemma recv_framed_short_prefix recv_size p :
  pending p <> [] ->
  length (pending p) < 4
  \/ (exists f fs, fragments p = f :: fs /\ f < 4) ->
  (recv_framed recv_size p).1 = RecvBadPrefix.
Proof.
  intros Hopen Hshort. unfold recv_framed.
  destruct (recv_take 4 p ltac:(lia)) as (a & Ha & Hrecv).
  assert (exists a', 0 < a' /\ Nat.min a' (length (pending p)) < 4
                     /\ recv 4 p
                        = (take a' (pending p),
                           mkPeer (drop a' (pending p)) (tail (fragments p))))
    as (a' & Ha' & Hlen & ->).
  { destruct Hshort as [Hfew | (f & fs & Hfrags & Hf)].
    - exists a. repeat split; [lia | lia | done].
    - exists (Nat.min 4 (Nat.max 1 f)). repeat split; [lia | lia |].
      unfold recv. by rewrite Hfrags. }
  rewrite <- length_take in Hlen.
  destruct (take a' (pending p)) as [|b1 [|b2 [|b3 [|b4 raw]]]] eqn:Htake;
    try done; [|cbn in Hlen; lia].
  destruct (pending p); [done|]. destruct a'; [lia | done].
Qed.

(** [recv_framed] once the prefix has come whole. *)
Lemma recv_framed_whole_prefix recv_size p msglen :
  0 < recv_size ->
  prefix_whole (fragments p) ->
  unpack_uint32 (take 4 (pending p)) = Some msglen ->
  let body := drop 4 (pending p) in
  let n := Z.to_nat msglen in
  (length body < n -> (recv_framed recv_size p).1 = RecvTruncated)
  /\ (n <= length body ->
      exists frags',
        recv_framed recv_size p
        = (RecvMessage (take n body), mkPeer (drop n body) frags')).
Proof.
  intros Hrecv Hwhole Hunpack body n. unfold recv_framed.
  rewrite recv_prefix by done.
  destruct (take 4 (pending p)) as [|b raw] eqn:Htake; [done|].
  rewrite Hunpack. fold n.
  destruct (recv_body_spec recv_size n Hrecv n
              (mkPeer body (tail (fragments p))) [])
    as [Hsome Hnone]; [cbn; lia | cbn; lia |].
  cbn [pending app] in Hsome, Hnone. split.
  - intros Hshort. destruct (Hnone Hshort) as (p' & Hbody).
    fold body. by rewrite Hbody.
  - intros Hall. destruct (Hsome Hall) as (frags' & Hbody).
    exists frags'. fold body. by rewrite Hbody.
Qed.

(** X17.  After a whole prefix that announces [msglen] bytes, the transfer
    loop gives up exactly when the peer closes before [msglen] bytes have
    come, and otherwise returns the next [msglen] bytes and leaves the rest
    of the stream unread; a stream that is closed from the start is told
    apart from both. *)
Theorem recv_framed_outcome (recv_size : nat) (p : peer) (msglen : Z) :
  0 < recv_size ->
  prefix_whole (fragments p) ->
  unpack_uint32 (take 4 (pending p)) = Some msglen ->
  let body := drop 4 (pending p) in
  let n := Z.to_nat msglen in
  (length body < n -> (recv_framed recv_size p).1 = RecvTruncated)
  /\ (n <= length body ->
      (recv_framed recv_size p).1 = RecvMessage (take n body)
      /\ pending (recv_framed recv_size p).2 = drop n body).
Proof.
  intros Hrecv Hwhole Hunpack body n.
  destruct (recv_framed_whole_prefix recv_size p msglen Hrecv Hwhole Hunpack)
    as [Hshort Hall].
  split; [exact Hshort|]. intros Hfits.
  destruct (Hall Hfits) as (frags' & Hrun). fold body n in Hrun.
  by rewrite Hrun.
Qed.

Lemma recv_framed_outcome_witness :
  (recv_framed 2 (mkPeer [0; 0; 0; 5; 1; 2; 3]%Z [4; 1])).1 = RecvTruncated.
Proof.
  destruct (recv_framed_outcome 2 (mkPeer [0; 0; 0; 5; 1; 2; 3]%Z [4; 1]) 5%Z
              ltac:(lia) ltac:(cbn; lia) eq_refl) as [Hshort _].
  apply Hshort. cbn. lia.
Defined.

(** ** [client_handler.py]: the upload, the LIST banner and the routing

    The upload of [handle_distributed_sort] read from a peer: the prefix,
    the transfer loop in blocks of 1 MiB, then [json.loads], whose outcome
    on the body is [decode]. *)
Definition receive_upload (decode : list Z -> payload) (p : peer) : upload :=
  match (recv_framed MiB p).1 with
  | RecvClosed => UploadClosed
  | RecvBadPrefix => UploadBadPrefix
  | RecvTruncated => UploadTruncated
  | RecvMessage json_data => UploadBody (length json_data) (decode json_data)
  end.

(** The exchange of [send_chunk_to_server] with a worker whose reply comes
    from a peer: the prefix and the transfer loop raise when the stream is
    closed, cut short or has a broken prefix; once the body is there the
    statistics of the server are updated, and [json.loads] gives a list
    ([decode] returns it) or the call raises [ValueError].  [error] is the
    text of the exception raised, [elapsed] the time to the end of the
    transfer and [elapsed'] the time to the [except] clause. *)
Definition receive_reply (decode : list Z -> option (list Z))
    (error : string) (elapsed elapsed' : Z) (p : peer) : outcome :=
  match (recv_framed MiB p).1 with
  | RecvClosed | RecvBadPrefix | RecvTruncated =>
      FailedTransport error elapsed'
  | RecvMessage json_data =>
      match decode json_data with
      | Some sorted_chunk => Replied sorted_chunk elapsed
      | None => FailedAfterReply error elapsed elapsed'
      end
  end.

(** One line of the banner of [handle_list]: the position, counted from 1,
    the name, the address, and the response time when one is shown ([None]
    stands for "N/A"). *)
Record banner_line : Type := mkBannerLine {
  bl_position : nat;
  bl_name : pyval;
  bl_ip : pyval;
  bl_port : pyval;
  bl_tiempo_resp : option Z
}.

Inductive list_msg : Type :=
| ListNoServers
| ListBanner (count : nat) (entries : list banner_line).

Definition banner_entry (i : nat) (server_ : ServerInfo) : banner_line :=
  mkBannerLine (S i) (name server_) (ip server_) (port server_)
    (if (0 <? last_response_time server_)%Z
     then Some (last_response_time server_)
     else None).

(** [is_server_alive] answers, or it raises ([None]): [create_connection]
    lets a [TypeError] or a [UnicodeError] through for an [ip] it cannot
    take, and [gethostbyname] is called outside the [try].  The sweep of
    [update_servers_status] then stops at the first probe that raises, with
    the records before it updated, and the exception goes to the caller. *)
Fixpoint sweep (now_ : Z) (probe : pyval -> pyval -> option bool)
    (servers_ : list ServerInfo) : bool * list ServerInfo :=
  match servers_ with
  | [] => (true, [])
  | s :: rest =>
      match probe (ip s) (port s) with
      | None => (false, s :: rest)
      | Some is_active =>
          let '(returned, rest') := sweep now_ probe rest in
          (returned, set_probe is_active now_ s :: rest')
      end
  end.

(** [update_servers_status] with such a probe: the pair it returns, or
    [None] when the sweep raised, and the registry it leaves. *)
Definition try_update_servers_status (now_ : Z)
    (probe : pyval -> pyval -> option bool) (servers_ : list ServerInfo)
  : option (nat * nat) * list ServerInfo :=
  let '(returned, servers') := sweep now_ probe servers_ in
  (if returned
   then Some (length (filter (fun s => active s) servers'), length servers_)
   else None,
   servers').

(** [handle_list]: the value returned and the message it writes, or [None]
    when the sweep raised, and the registry after the sweep. *)
Definition handle_list (now_ : Z) (probe : pyval -> pyval -> option bool)
    (servers_ : list ServerInfo)
  : option (bool * list_msg) * list ServerInfo :=
  let '(counts, servers1) := try_update_servers_status now_ probe servers_ in
  match counts with
  | None => (None, servers1)
  | Some _ =>
      let active_servers := get_active_servers servers1 in
      match active_servers with
      | [] => (Some (false, ListNoServers), servers1)
      | _ :: _ =>
          (Some (true,
                 ListBanner (length active_servers)
                   (imap banner_entry active_servers)),
           servers1)
      end
  end.

(** What [handle_client] makes of the first read of a connection:
    - [FirstRaised]: [recv] or [decode] raises;
    - [FirstList]: the text is ["LIST"];
    - [FirstNotJson]: [json.loads] raises [JSONDecodeError];
    - [FirstNotObject]: JSON that is not an object, so [.get] raises;
    - [FirstObject]: a JSON object. *)
Inductive first_message : Type :=
| FirstRaised
| FirstList
| FirstNotJson
| FirstNotObject
| FirstObject (json_data : gmap string pyval).

(** One connection: the first read, the probe of [handle_list] (which may
    raise), whether the writes of [handle_client] and [handle_list]
    succeed, the clock readings of [register_server], and the session of
    [handle_distributed_sort], whose own sweeps return. *)
Record connection : Type := mkConnection {
  c_first : first_message;
  c_now : Z;
  c_is_server_alive : pyval -> pyval -> option bool;
  c_client_up : bool;
  c_t1 : Z;
  c_t2 : Z;
  c_session : session
}.

(** What is written to the socket of a connection. *)
Inductive wire_msg : Type :=
| WireList (m : list_msg)
| WireRegister (response : gmap string pyval)
| WireSort (m : client_msg)
| WireUnknownAction (action : pyval)
| WireInvalidFormat.

(** A write of [handle_client]; when it raises, the handlers of
    [handle_client] log and close. *)
Definition wire_send (client_up_ : bool) (m : wire_msg) : list wire_msg :=
  if client_up_ then [m] else [].

Definition with_registry (servers_ : list ServerInfo) (h : ClientHandler)
  : ClientHandler :=
  with_sorter (mkSorter servers_ (stats (distributed_sorter h))) h.

Definition handle_client (c : connection) (h : ClientHandler)
  : list wire_msg * ClientHandler :=
  let st := distributed_sorter h in
  match c_first c with
  | FirstRaised => ([], h)
  | FirstList =>
      let '(outcome_, servers1) :=
        handle_list (c_now c) (c_is_server_alive c) (servers st) in
      let h1 := with_registry servers1 h in
      match outcome_ with
      | None => ([], h1)
      | Some (listed, m) =>
          if negb (c_client_up c) then ([], h1)
          else if listed
          then
            let '(msgs, h2) := handle_distributed_sort (c_session c) h1 in
            (WireList m :: (WireSort <$> msgs), h2)
          else ([WireList m], h1)
      end
  | FirstNotJson => (wire_send (c_client_up c) WireInvalidFormat, h)
  | FirstNotObject => ([], h)
  | FirstObject json_data =>
      let action := dict_get json_data "action" in
      if py_eq action (PStr "register")
      then
        let '(response, servers1) :=
          register_server (c_t1 c) (c_t2 c) json_data (servers st) in
        (wire_send (c_client_up c) (WireRegister response),
         with_registry servers1 h)
      else if py_eq action (PStr "sort")
      then
        let '(msgs, h1) := handle_distributed_sort (c_session c) h in
        (WireSort <$> msgs, h1)
      else (wire_send (c_client_up c) (WireUnknownAction action), h)
  end.

(** ** [middleware.py]: the monitor and the life of the middleware *)

(** One round of [monitor_servers] after its sleep; an exception of the
    sweep is logged and the loop goes on. *)
Definition monitor_servers (now_ : Z) (probe : pyval -> pyval -> option bool)
    (h : ClientHandler) : ClientHandler :=
  match servers (distributed_sorter h) with
  | [] => h
  | _ :: _ =>
      with_registry
        (try_update_servers_status now_ probe
           (servers (distributed_sorter h))).2
        h
  end.

(** The state [DistributedMiddleware.__init__] builds. *)
Definition middleware_init : ClientHandler :=
  mkClientHandler (mkSorter [] (mkStats 0 0 0 0)) 0 0.

(** What happens to the middleware: a connection is handled, or the monitor
    wakes up.  Connections are taken one at a time. *)
Inductive event : Type :=
| Connection (c : connection)
| MonitorRound (now_ : Z) (probe : pyval -> pyval -> option bool).

Definition middleware_step (h : ClientHandler) (e : event) : ClientHandler :=
  match e with
  | Connection c => (handle_client c h).2
  | MonitorRound now_ probe => monitor_servers now_ probe h
  end.

Definition middleware_run (events : list event) : ClientHandler :=
  foldl middleware_step middleware_init events.

(** ** Properties of the handlers *)

Lemma process_distributed_idle net numbers st :
  active_at_dispatch net st = [] ->
  process_distributed net numbers st
  = client_send (client_up net) false MsgNoServers
      (mkSorter
         (update_servers_status (now net) (is_server_alive net) (servers st)).2
         (stats st)).
Proof.
  intros Hnone. unfold process_distributed. cbn [update_servers_status].
  unfold active_at_dispatch in Hnone. cbn [update_servers_status snd] in Hnone.
  by rewrite Hnone.
Qed.

Lemma client_send_state up returns msg st :
  servers (client_send up returns msg st).2 = servers st
  /\ bytes_processed (stats (client_send up returns msg st).2)
     = bytes_processed (stats st).
Proof. unfold client_send, on_exception. by destruct up. Qed.

(** The registry and [bytes_processed] after [process_distributed]. *)
Lemma process_distributed_state net numbers st :
  servers (process_distributed net numbers st).2
  = registry_after (worker_io net) 0 (jobs_of net numbers st)
      (update_servers_status (now net) (is_server_alive net) (servers st)).2
  /\ bytes_processed (stats (process_distributed net numbers st).2)
     = bytes_processed (stats st).
Proof.
  destruct (active_at_dispatch net st) as [|a rest] eqn:Hactive.
  - rewrite process_distributed_idle by done.
    unfold jobs_of. rewrite Hactive.
    match goal with
    | |- context [client_send ?u ?r ?m ?s] =>
        destruct (client_send_state u r m s) as [-> ->]
    end.
    done.
  - rewrite process_distributed_run by (by rewrite Hactive).
    destruct (join_returns _); [|done].
    destruct (replies _);
      match goal with
      | |- context [client_send ?u ?r ?m ?s] =>
          destruct (client_send_state u r m s) as [-> ->]
      end; done.
Qed.

Lemma same_identities_refl l : same_identities l l.
Proof. induction l; constructor; [by repeat split | done]. Qed.

Lemma same_identities_trans a b c :
  same_identities a b -> same_identities b c -> same_identities a c.
Proof.
  intros Hab. revert c. induction Hab as [|x y a b Hxy Hab IH]; intros c Hbc.
  - inversion Hbc. constructor.
  - inversion Hbc as [|? z ? c' Hyz Hbc']; subst. constructor; [|by apply IH].
    destruct Hxy as (? & ? & ?), Hyz as (? & ? & ?).
    repeat split; congruence.
Qed.

Lemma same_identities_addresses a b : same_identities a b -> same_addresses a b.
Proof. induction 1 as [|r r' a b (? & ? & _) _ IH]; constructor; done. Qed.

Lemma process_distributed_identities net numbers st :
  same_identities (servers st) (servers (process_distributed net numbers st).2).
Proof.
  destruct (process_distributed_state net numbers st) as [-> _].
  eapply same_identities_trans; [apply update_servers_status_identities|].
  apply decays_same_identities, registry_after_decays.
Qed.

Lemma sweep_identities now_ probe servers_ :
  same_identities servers_ (sweep now_ probe servers_).2.
Proof.
  induction servers_ as [|s rest IH]; cbn [sweep]; [constructor|].
  destruct (probe (ip s) (port s)) as [is_active|].
  - destruct (sweep now_ probe rest) as [returned rest'].
    constructor; [done | exact IH].
  - apply same_identities_refl.
Qed.




Lemma try_update_servers_status_identities now_ probe servers_ :
  same_identities servers_ (try_update_servers_status now_ probe servers_).2.
Proof.
  unfold try_update_servers_status.
  pose proof (sweep_identities now_ probe servers_) as Hsame.
  by destruct (sweep now_ probe servers_).
Qed.

(** The registry and [bytes_processed] after [handle_distributed_sort]. *)
Lemma handle_distributed_sort_state s h :
  let st := distributed_sorter h in
  let st' := distributed_sorter (handle_distributed_sort s h).2 in
  let active_count :=
    (update_servers_status (s_now s) (s_is_server_alive s) (servers st)).1.1 in
  same_identities (servers st) (servers st')
  /\ bytes_processed (stats st')
     = bytes_processed (stats st)
       + match s_upload s with
         | UploadBody bytes_received _ =>
             if s_client_up s && negb (active_count =? 0)
             then bytes_received else 0
         | _ => 0
         end.
Proof.
  intros st st' active_count.
  pose proof (update_servers_status_identities (s_now s) (s_is_server_alive s)
                (servers st)) as Hprobe.
  unfold st', handle_distributed_sort. fold st.
  unfold active_count. cbn [update_servers_status fst snd] in *.
  destruct (s_client_up s); cbn [negb andb].
  2: { cbn. split; [done|]. destruct (s_upload s); lia. }
  destruct (_ =? 0); cbn [negb].
  { cbn. split; [done|]. destruct (s_upload s); lia. }
  destruct (s_upload s) as [| | | |bytes_received [| |numbers]];
    cbn -[process_distributed]; try (split; [done | lia]).
  match goal with
  | |- context [process_distributed ?net ?ns ?st0] =>
      pose proof (process_distributed_identities net ns st0) as Hids;
      destruct (process_distributed_state net ns st0) as [_ Hbytes];
      destruct (process_distributed net ns st0) as [[success_ msgs] st2]
  end.
  cbn [snd servers stats] in Hids, Hbytes.
  split.
  - destruct success_; cbn; by eapply same_identities_trans.
  - destruct success_; cbn; rewrite Hbytes; cbn; lia.
Qed.

(** X18.  [bytes_processed] counts an upload exactly when its body has come
    whole, by the length the prefix announced, whatever the body decodes
    to: a body that is not JSON or not a list is counted like a list, and
    [process_distributed] leaves the counter alone.  An upload that stops
    short of the announced length is dropped without a reply after the
    ready message, and without counting bytes, an error or an operation. *)
Theorem upload_bytes_counted (s : session) (h : ClientHandler)
    (decode : list Z -> payload) (p : peer) (msglen : Z) :
  s_client_up s = true ->
  get_active_servers
    (update_servers_status (s_now s) (s_is_server_alive s)
       (servers (distributed_sorter h))).2 <> [] ->
  s_upload s = receive_upload decode p ->
  prefix_whole (fragments p) ->
  unpack_uint32 (take 4 (pending p)) = Some msglen ->
  let st := stats (distributed_sorter h) in
  let run := handle_distributed_sort s h in
  let st' := stats (distributed_sorter run.2) in
  let body := drop 4 (pending p) in
  (Z.to_nat msglen <= length body ->
   bytes_processed st' = bytes_processed st + Z.to_nat msglen)
  /\ (length body < Z.to_nat msglen ->
      run.1 = [MsgReady]
      /\ st' = st
      /\ total_operations run.2 = total_operations h
      /\ successful_operations run.2 = successful_operations h).
Proof.
  intros Hup Hactive Hupload Hwhole Hunpack st run st' body.
  assert (0 < MiB) as Hsize
    by (unfold MiB; apply Nat.neq_0_lt_0, Nat.pow_nonzero; lia).
  destruct (recv_framed_whole_prefix MiB p msglen Hsize Hwhole Hunpack)
    as [Hshort Hall].
  fold body in Hshort, Hall.
  assert (((update_servers_status (s_now s) (s_is_server_alive s)
              (servers (distributed_sorter h))).1.1 =? 0) = false) as Hcount.
  { apply Nat.eqb_neq. cbn [update_servers_status fst].
    unfold get_active_servers in Hactive.
    cbn [update_servers_status snd] in Hactive.
    destruct (filter _ _); [done | cbn; lia]. }
  split.
  - intros Hfits. destruct (Hall Hfits) as (frags' & Hrun).
    destruct (handle_distributed_sort_state s h) as [_ Hbytes].
    unfold st', st, run. rewrite Hbytes, Hupload. unfold receive_upload.
    rewrite Hrun, Hup, Hcount. cbn [fst andb negb].
    rewrite length_take. lia.
  - intros Hfew. specialize (Hshort Hfew).
    unfold st', st, run, handle_distributed_sort.
    cbn [update_servers_status fst snd] in Hcount |- *.
    rewrite Hup, Hcount, Hupload. unfold receive_upload. rewrite Hshort.
    by cbn.
Qed.

Lemma upload_bytes_counted_witness :
  bytes_processed
    (stats
       (distributed_sorter
          (handle_distributed_sort
             (mkSession 100 all_alive true
                (receive_upload (fun _ => BodyNotJson)
                   (mkPeer [0; 0; 0; 3; 120; 121; 122]%Z [4; 1; 2]))
                (mkNetwork 101 all_alive sorting_io true))
             (mkClientHandler fleet 0 0)).2))
  = 0 + 3.
Proof.
  destruct (upload_bytes_counted
              (mkSession 100 all_alive true
                 (receive_upload (fun _ => BodyNotJson)
                    (mkPeer [0; 0; 0; 3; 120; 121; 122]%Z [4; 1; 2]))
                 (mkNetwork 101 all_alive sorting_io true))
              (mkClientHandler fleet 0 0) (fun _ => BodyNotJson)
              (mkPeer [0; 0; 0; 3; 120; 121; 122]%Z [4; 1; 2]) 3%Z
              eq_refl ltac:(done) eq_refl ltac:(cbn; lia) eq_refl)
    as [Hcounted _].
  apply Hcounted. cbn. lia.
Defined.

(** X16.  The prefix is read with a single [recv(4)], which is not
    repeated: when the stream is open and that call returns fewer than four
    bytes (the peer closes after one to three bytes, or TCP delivers the
    prefix in pieces), [struct.unpack] fails and the message is given up,
    whatever follows.  [handle_distributed_sort] then answers the ready
    message with the protocol error and counts nothing;
    [send_chunk_to_server] reports the worker as failed and marks it
    inactive without updating its statistics. *)
Theorem short_prefix_rejected (p : peer) :
  pending p <> [] ->
  length (pending p) < 4
  \/ (exists f fs, fragments p = f :: fs /\ f < 4) ->
  (forall recv_size, (recv_framed recv_size p).1 = RecvBadPrefix)
  /\ (forall decode s h,
        s_client_up s = true ->
        get_active_servers
          (update_servers_status (s_now s) (s_is_server_alive s)
             (servers (distributed_sorter h))).2 <> [] ->
        s_upload s = receive_upload decode p ->
        let run := handle_distributed_sort s h in
        run.1 = [MsgReady; MsgProtocolError]
        /\ stats (distributed_sorter run.2) = stats (distributed_sorter h)
        /\ total_operations run.2 = total_operations h
        /\ successful_operations run.2 = successful_operations h)
  /\ (forall decode error elapsed elapsed' server_ chunk servers_,
        let run :=
          send_chunk_to_server (receive_reply decode error elapsed elapsed' p)
            server_ chunk servers_ in
        success run.1 = false
        /\ data run.1 = []
        /\ run.2 = mark_server_inactive (ip server_) (port server_) servers_).
Proof.
  intros Hopen Hshort.
  pose proof (fun recv_size => recv_framed_short_prefix recv_size p Hopen Hshort)
    as Hbad.
  split; [exact Hbad|]. split.
  - intros decode s h Hup Hactive Hupload run.
    unfold run, handle_distributed_sort.
    unfold get_active_servers in Hactive.
    cbn [update_servers_status fst snd] in Hactive |- *.
    rewrite Hup, Hupload. unfold receive_upload. rewrite Hbad. cbn [negb].
    destruct (filter _ _) as [|a rest]; [done|]. by cbn.
  - intros decode error elapsed elapsed' server_ chunk servers_ run.
    unfold run, receive_reply. rewrite Hbad. by cbn.
Qed.

Lemma short_prefix_rejected_witness :
  (recv_framed MiB (mkPeer [0; 0; 0; 2; 91; 93]%Z [3; 3])).1 = RecvBadPrefix.
Proof.
  assert (length (pending (mkPeer [0; 0; 0; 2; 91; 93]%Z [3; 3])) < 4
          \/ (exists f fs,
                fragments (mkPeer [0; 0; 0; 2; 91; 93]%Z [3; 3]) = f :: fs
                /\ f < 4)) as Hshort.
  { right. exists 3, [3]. split; [done | lia]. }
  destruct (short_prefix_rejected (mkPeer [0; 0; 0; 2; 91; 93]%Z [3; 3])
              ltac:(done) Hshort) as (Hbad & _).
  apply Hbad.
Defined.





(** ** The middleware as a whole *)

Lemma handle_list_registry now_ probe servers_ :
  (handle_list now_ probe servers_).2
  = (try_update_servers_status now_ probe servers_).2.
Proof.
  unfold handle_list.
  destruct (try_update_servers_status now_ probe servers_)
    as [[counts|] servers1]; [|done].
  cbv zeta. by destruct (get_active_servers _).
Qed.

Lemma with_registry_same h :
  with_registry (servers (distributed_sorter h)) h = h.
Proof. by destruct h as [[servers_ stats_] total successful]. Qed.

(** What one connection can do to the handler: nothing, a probe or a
    registration of the registry, or a sort session, after a probe when it
    began with LIST. *)
Lemma handle_client_cases c h :
  let before := servers (distributed_sorter h) in
  let h' := (handle_client c h).2 in
  (exists servers1,
     same_identities before servers1 /\ h' = with_registry servers1 h)
  \/ (exists t1 t2 json_data,
        h' = with_registry (register_server t1 t2 json_data before).2 h)
  \/ (exists s servers1,
        same_identities before servers1
        /\ h' = (handle_distributed_sort s (with_registry servers1 h)).2).
Proof.
  intros before h'. unfold h', handle_client.
  assert (exists servers1,
            same_identities before servers1 /\ h = with_registry servers1 h)
    as Hsame.
  { exists before. split; [apply same_identities_refl|].
    symmetry. apply with_registry_same. }
  destruct (c_first c) as [| | | |json_data]; cbv zeta; try by left.
  - pose proof (handle_list_registry (c_now c) (c_is_server_alive c) before)
      as Hregistry.
    pose proof (try_update_servers_status_identities (c_now c)
                  (c_is_server_alive c) before) as Hprobe.
    fold before.
    destruct (handle_list _ _ before) as [[[listed m]|] servers1];
      cbn [snd] in Hregistry; rewrite <- Hregistry in Hprobe;
      [|left; by exists servers1].
    destruct (c_client_up c); cbn [negb]; [|left; by exists servers1].
    destruct listed; [|left; by exists servers1].
    right. right. exists (c_session c), servers1. split; [done|].
    by destruct (handle_distributed_sort _ _).
  - destruct (py_eq _ (PStr "register")).
    + right. left. exists (c_t1 c), (c_t2 c), json_data. fold before.
      by destruct (register_server _ _ _ before).
    + destruct (py_eq _ (PStr "sort")); [|by left].
      right. right. exists (c_session c), before.
      split; [apply same_identities_refl|].
      unfold before. rewrite with_registry_same.
      by destruct (handle_distributed_sort _ _).
Qed.

Lemma monitor_servers_identities now_ probe h :
  exists servers1,
    same_identities (servers (distributed_sorter h)) servers1
    /\ monitor_servers now_ probe h = with_registry servers1 h.
Proof.
  unfold monitor_servers.
  destruct (servers (distributed_sorter h)) as [|r l] eqn:Hservers.
  - exists []. split; [constructor|].
    rewrite <- Hservers. symmetry. apply with_registry_same.
  - rewrite <- Hservers. eexists. split; [|reflexivity].
    apply try_update_servers_status_identities.
Qed.

(** What one event can do to the handler. *)
Lemma middleware_step_cases h e :
  let before := servers (distributed_sorter h) in
  let h' := middleware_step h e in
  (exists servers1,
     same_identities before servers1 /\ h' = with_registry servers1 h)
  \/ (exists t1 t2 json_data,
        h' = with_registry (register_server t1 t2 json_data before).2 h)
  \/ (exists s servers1,
        same_identities before servers1
        /\ h' = (handle_distributed_sort s (with_registry servers1 h)).2).
Proof.
  destruct e as [c | now_ alive]; cbn [middleware_step].
  - apply handle_client_cases.
  - left. apply monitor_servers_identities.
Qed.

Lemma middleware_step_registry h e :
  let before := servers (distributed_sorter h) in
  let after := servers (distributed_sorter (middleware_step h e)) in
  same_identities before after
  \/ exists t1 t2 json_data, after = (register_server t1 t2 json_data before).2.
Proof.
  intros before after. unfold after.
  destruct (middleware_step_cases h e)
    as [(servers1 & Hsame & ->) | [(t1 & t2 & json_data & ->)
                                  | (s & servers1 & Hsame & ->)]].
  - by left.
  - right. by exists t1, t2, json_data.
  - left. fold before in Hsame.
    destruct (handle_distributed_sort_state s (with_registry servers1 h))
      as [Hsort _].
    by eapply same_identities_trans.
Qed.

Lemma middleware_step_counters h e :
  reachable_handler h ->
  reachable_handler (middleware_step h e)
  /\ total_operations h <= total_operations (middleware_step h e)
     <= S (total_operations h).
Proof.
  intros Hreach.
  destruct (middleware_step_cases h e)
    as [(servers1 & _ & ->) | [(t1 & t2 & json_data & ->)
                              | (s & servers1 & _ & ->)]].
  - split; [apply handler_other | cbn; lia]; done.
  - split; [apply handler_other | cbn; lia]; done.
  - split; [by apply handler_sort, handler_other|].
    pose proof (handle_distributed_sort_counters s (with_registry servers1 h))
      as Hstep. cbv zeta in Hstep.
    destruct (dispatch_input _ _) as [[numbers st]|];
      destruct Hstep as [-> _]; cbn; lia.
Qed.

(** X20.  Whatever connections and monitor rounds the middleware goes
    through from its start, taken one at a time: no two records of the
    registry have addresses that compare equal, every record has a truthy
    [ip] and [name] and a port that is an integer of [1, 65535] or the
    value [True] (which the validation takes for an [int]), and the
    successful operations are at most the operations, which are at most the
    events handled. *)
Theorem middleware_invariant (events : list event) :
  let h := middleware_run events in
  unique_addresses (servers (distributed_sorter h))
  /\ Forall well_formed (servers (distributed_sorter h))
  /\ successful_operations h <= total_operations h <= length events.
Proof.
  cbv zeta. unfold middleware_run.
  assert (forall h n,
            unique_addresses (servers (distributed_sorter h)) ->
            Forall well_formed (servers (distributed_sorter h)) ->
            reachable_handler h ->
            total_operations h <= n ->
            let h' := foldl middleware_step h events in
            unique_addresses (servers (distributed_sorter h'))
            /\ Forall well_formed (servers (distributed_sorter h'))
            /\ reachable_handler h'
            /\ total_operations h' <= n + length events) as Hrun.
  { induction events as [|e events IH]; intros h n Hu Hwf Hreach Hn.
    - cbn. repeat split; try done. lia.
    - cbn [foldl length].
      destruct (middleware_step_counters h e Hreach) as [Hreach' Htotal].
      destruct (IH (middleware_step h e) (S n)) as (Hu' & Hwf' & Hr' & Hn');
        try done; try lia.
      + destruct (middleware_step_registry h e)
          as [Hsame | (t1 & t2 & json_data & ->)].
        * eapply same_addresses_unique;
            [by apply same_identities_addresses | done].
        * by apply register_server_unique.
      + destruct (middleware_step_registry h e)
          as [Hsame | (t1 & t2 & json_data & ->)].
        * by eapply same_identities_well_formed.
        * by apply register_server_well_formed.
      + repeat split; try done. lia. }
  destruct (Hrun middleware_init 0) as (Hu & Hwf & Hreach & Hn);
    [constructor | constructor | apply handler_init | cbn; lia |].
  repeat split; try done. by apply reachable_handler_invariant.
Qed.

(** A record and the record found later at its place: with the same [ip]
    and [port], or, after a registration that replaced it, with ones that
    compare equal to them. *)
Definition same_place (r r' : ServerInfo) : Prop :=
  (ip r' = ip r /\ port r' = port r)
  \/ has_address (ip r) (port r) r' = true.

(** The registry [b] is the registry [a] with every record at its place,
    and at most [n] records after them. *)
Definition grows (n : nat) (a b : list ServerInfo) : Prop :=
  exists kept added,
    b = kept ++ added /\ Forall2 same_place a kept /\ length added <= n.

Lemma same_place_trans r1 r2 r3 :
  same_place r1 r2 -> same_place r2 r3 -> same_place r1 r3.
Proof.
  unfold same_place, has_address.
  intros [[Hip Hport] | H12] [[Hip' Hport'] | H23].
  - left. split; congruence.
  - right. by rewrite <- Hip, <- Hport.
  - right. by rewrite Hip', Hport'.
  - right. apply andb_true_iff in H12 as [? ?], H23 as [? ?].
    apply andb_true_iff. split; eapply py_eq_trans; eauto.
Qed.

Lemma same_place_kept l : Forall2 same_place l l.
Proof. induction l; constructor; [by left | done]. Qed.

Lemma same_identities_grows a b : same_identities a b -> grows 0 a b.
Proof.
  intros Hsame. exists b, []. split; [by rewrite app_nil_r|]. split; [|done].
  induction Hsame as [|r r' a b (Hip & Hport & _) _ IH]; constructor; [|done].
  by left.
Qed.

Lemma grows_trans n m a b c : grows n a b -> grows m b c -> grows (n + m) a c.
Proof.
  intros (kept & added & -> & Hkept & Hn) (kept' & added' & -> & Hkept' & Hm).
  apply Forall2_app_inv_l in Hkept' as (k1 & k2 & Hk1 & Hk2 & ->).
  exists k1, (k2 ++ added'). split; [by rewrite app_assoc|]. split.
  - clear -Hkept Hk1. revert k1 Hk1.
    induction Hkept as [|r r' a b Hr _ IH]; intros k1 Hk1.
    + inversion Hk1. constructor.
    + inversion Hk1 as [|? r'' ? k Hr' Hk]; subst.
      constructor; [by eapply same_place_trans | by apply IH].
  - rewrite length_app. apply Forall2_length in Hk2. lia.
Qed.

Lemma register_server_grows t1 t2 json_data servers_ :
  grows 1 servers_ (register_server t1 t2 json_data servers_).2.
Proof.
  assert (grows 1 servers_ servers_) as Hrefl.
  { exists servers_, []. split; [by rewrite app_nil_r|].
    split; [apply same_place_kept | cbn; lia]. }
  unfold register_server. destruct (negb (forallb truthy _)); [done|].
  destruct (negb _ || _ || _); [done|]. cbn [snd].
  set (new := mkServerInfo _ _ _ true t1 t2 0).
  destruct (store_cases new servers_)
    as [[_ ->] | (before & old & after & -> & _ & Hold & ->)].
  - exists servers_, [new]. split; [done|].
    split; [apply same_place_kept | done].
  - exists (before ++ new :: after), []. split; [by rewrite app_nil_r|].
    split; [|cbn; lia].
    apply Forall2_app; [apply same_place_kept|].
    constructor; [|apply same_place_kept].
    right. by rewrite has_address_sym.
Qed.

(** X21.  No event removes a worker or moves it: after any sequence of
    connections and monitor rounds, whatever happens to the workers and
    whatever the clients send, the registry is the old one, record for
    record and in the same order, each place holding a record with the same
    [ip] and [port] or, where a worker registered again, with ones that
    compare equal to them, followed by at most one new record per event. *)
Theorem workers_never_removed (h : ClientHandler) (events : list event) :
  let before := servers (distributed_sorter h) in
  let after := servers (distributed_sorter (foldl middleware_step h events)) in
  exists kept added,
    after = kept ++ added
    /\ Forall2 same_place before kept
    /\ length added <= length events.
Proof.
  cbv zeta. change (grows (length events) (servers (distributed_sorter h))
                      (servers (distributed_sorter
                                  (foldl middleware_step h events)))).
  revert h. induction events as [|e events IH]; intros h.
  - cbn. apply same_identities_grows, same_identities_refl.
  - cbn [foldl length]. change (S (length events)) with (1 + length events).
    eapply grows_trans; [|apply IH].
    destruct (middleware_step_registry h e)
      as [Hsame | (t1 & t2 & json_data & ->)].
    + apply same_identities_grows in Hsame.
      destruct Hsame as (kept & added & Heq & Hkept & Hlen).
      exists kept, added. split; [done|]. split; [done | lia].
    + apply register_server_grows.
Qed.
